(** * DirHash: a shallow embedding of [DirHash.cpp] and its specification

    The development follows the layout of the source file:
    - wide strings, [_wcsicmp] and the hexadecimal codec ([ToHex], [FromHex]);
    - the [Hash] facade ([IsHashId], [GetHash], [GetHashes], [Clone]);
    - the name filter [IsExcludedName] and the walker ([HashDirectory],
      [HashFile]);
    - the checksum-file parser [ParseSumFile] and the post-sort of
      [SortSumFile];
    - the part of [_tmain] that runs once the command line has been read.

    Conventions.  [TCHAR] is [wchar_t] (the file defines [UNICODE]); a wide
    character is its code unit, a [Z]; a wide string is the list of the code
    units that precede the terminator.  An [unsigned char] is a [Z] too, and
    every conversion to a narrower type is written out ([to_uchar],
    [to_wchar]). *)

From Stdlib Require Import ZArith Lia Bool List Sorted Permutation.
From Stdlib Require Import Ascii String.
From stdpp Require Import base option list gmap.
From Equations Require Import Equations.

Local Open Scope Z_scope.
Set Warnings "-register-all".

(** ** Characters and strings *)

Abbreviation wchar := Z (only parsing).
Abbreviation wstring := (list Z) (only parsing).
Abbreviation ByteArray := (list Z) (only parsing).

(** Conversion to [unsigned char] and to [wchar_t]. *)
Definition to_uchar (z : Z) : Z := z mod 256.
Definition to_wchar (z : Z) : Z := z mod 65536.

(** A wide literal [L"..."] of ASCII characters. *)
Definition W (s : string) : wstring :=
  map (fun a => Z.of_N (N_of_ascii a)) (list_ascii_of_string s).

(** [towlower] of the C run-time in the "C" locale, the only locale the
    program runs in (it never calls [setlocale]): the letters [A]-[Z] are
    mapped to [a]-[z], every other code unit is left alone. *)
Definition towlower (c : wchar) : wchar :=
  if (65 <=? c) && (c <=? 90) then c + 32 else c.

(** [_wcsicmp] of the C run-time: the difference of the first pair of
    lower-cased code units that differ, the terminator counting as [0]. *)
Fixpoint _wcsicmp (s1 s2 : wstring) : Z :=
  match s1, s2 with
  | [], [] => 0
  | [], c2 :: _ => 0 - towlower c2
  | c1 :: _, [] => towlower c1 - 0
  | c1 :: r1, c2 :: r2 =>
      let d := towlower c1 - towlower c2 in
      if d =? 0 then _wcsicmp r1 r2 else d
  end.

(** [compare_nocase], "used for sorting directory content". *)
Definition compare_nocase (first second : wstring) : bool :=
  _wcsicmp first second <? 0.

(** ** Hexadecimal codec *)

(** [TCHAR ToHex(unsigned char b)]; [g_bLowerCase] is the global flag. *)
Definition ToHex_char (g_bLowerCase : bool) (b : Z) : wchar :=
  if (0 <=? b) && (b <=? 9) then to_wchar (48 + b)
  else if (10 <=? b) && (b <=? 15) then
    to_wchar ((if g_bLowerCase then 97 else 65) + b - 10)
  else (if g_bLowerCase then 120 else 88).

(** [void ToHex(const ByteArray& data, LPTSTR szHex)]: two digits per byte,
    high nibble first.  The arguments [b >> 4] and [b & 0x0F] are converted
    to the parameter type [unsigned char]. *)
Fixpoint ToHex (g_bLowerCase : bool) (data : ByteArray) : wstring :=
  match data with
  | [] => []
  | b :: rest =>
      ToHex_char g_bLowerCase (to_uchar (Z.shiftr b 4))
      :: ToHex_char g_bLowerCase (to_uchar (Z.land b 15))
      :: ToHex g_bLowerCase rest
  end.

(** [bool FromHex(TCHAR c, unsigned char& b)]: [None] is [return false]. *)
Definition FromHex_char (c : wchar) : option Z :=
  if (48 <=? c) && (c <=? 57) then Some (to_uchar (c - 48))
  else if (97 <=? c) && (c <=? 102) then Some (to_uchar (10 + (c - 97)))
  else if (65 <=? c) && (c <=? 70) then Some (to_uchar (10 + (c - 65)))
  else None.

(** The [for] loop of [FromHex]; [n] is the number of iterations left,
    [l / 2 - i].  [None] is the [break], which leaves [i <> l / 2].  The
    second digit is only read when the first one was accepted. *)
Fixpoint FromHex_loop (n : nat) (szHex : wstring) (buffer : ByteArray)
  : option ByteArray :=
  match n with
  | O => Some buffer
  | S n' =>
      match szHex with
      | c1 :: c2 :: rest =>
          match FromHex_char c1 with
          | Some b1 =>
              match FromHex_char c2 with
              | Some b2 =>
                  FromHex_loop n' rest (buffer ++ [to_uchar (b1 * 16 + b2)])
              | None => None
              end
          | None => None
          end
      | _ => None
      end
  end.

(** [bool FromHex(const TCHAR* szHex, ByteArray& buffer)]: the result and the
    final content of [buffer], which is cleared on entry and on failure. *)
Definition FromHex (szHex : wstring) : bool * ByteArray :=
  let l := length szHex in
  if (l mod 2 =? 0)%nat then
    match FromHex_loop (l / 2)%nat szHex [] with
    | Some buffer => (true, buffer)
    | None => (false, [])
    end
  else (false, []).

(** The characters of [[0-9a-fA-F]]. *)
Definition is_hex_digit (c : wchar) : bool :=
  ((48 <=? c) && (c <=? 57)) || ((97 <=? c) && (c <=? 102))
  || ((65 <=? c) && (c <=? 70)).

Definition is_byte (b : Z) : Prop := 0 <= b < 256.

(** ** The [Hash] facade *)

(** The concrete classes derived from [Hash]. *)
Inductive HashClass :=
| NeonBlake2s | NeonBlake2b | Streebog
| Md5Cng | Sha1Cng | Sha256Cng | Sha384Cng | Sha512Cng
| Blake3Hash.

Global Instance HashClass_eq_dec : EqDecision HashClass.
Proof. solve_decision. Defined.

(** [GetID]. *)
Definition GetID (c : HashClass) : wstring :=
  match c with
  | NeonBlake2s => W "Blake2s"
  | NeonBlake2b => W "Blake2b"
  | Streebog => W "Streebog"
  | Md5Cng => W "MD5"
  | Sha1Cng => W "SHA1"
  | Sha256Cng => W "SHA256"
  | Sha384Cng => W "SHA384"
  | Sha512Cng => W "SHA512"
  | Blake3Hash => W "Blake3"
  end.

(** Modelled from the spec: the constants [BLAKE2S_OUTBYTES],
    [BLAKE2B_OUTBYTES] and [BLAKE3_OUT_LEN] come from headers of the BLAKE2
    and BLAKE3 libraries; the digest sizes are 32, 64 and 32 bytes. *)
Definition BLAKE2S_OUTBYTES : Z := 32.
Definition BLAKE2B_OUTBYTES : Z := 64.
Definition BLAKE3_OUT_LEN : Z := 32.

(** [GetHashSize]. *)
Definition GetHashSize (c : HashClass) : Z :=
  match c with
  | NeonBlake2s => BLAKE2S_OUTBYTES
  | NeonBlake2b => BLAKE2B_OUTBYTES
  | Streebog => 64
  | Md5Cng => 16
  | Sha1Cng => 20
  | Sha256Cng => 32
  | Sha384Cng => 48
  | Sha512Cng => 64
  | Blake3Hash => BLAKE3_OUT_LEN
  end.

(** [UsesMSCrypto]: the subclasses of [CngHash]. *)
Definition UsesMSCrypto (c : HashClass) : bool :=
  match c with
  | Md5Cng | Sha1Cng | Sha256Cng | Sha384Cng | Sha512Cng => true
  | _ => false
  end.

(** The hash primitives are external libraries (BLAKE2, BLAKE3, Streebog,
    Windows CNG).  The facade only needs their interface: a context type,
    the context a constructor leaves behind ([None] when CNG refuses to
    create the hash object, which leaves [m_hash] null), absorbing bytes,
    and producing the digest. *)
Class Primitives := {
  Ctx : Type;
  prim_init : HashClass -> option Ctx;
  prim_update : HashClass -> Ctx -> ByteArray -> Ctx;
  prim_final : HashClass -> Ctx -> ByteArray
}.

(** An object of class [Hash]: its dynamic class and its context. *)
Record Hash `{Primitives} := mkHash {
  hash_class : HashClass;
  m_ctx : option Ctx
}.

Section HashFacade.
Context `{Primitives}.
(** The build flag [USE_STREEBOG]. *)
Variable USE_STREEBOG : bool.

(** The constructors: every one of them runs [Init]. *)
Definition Hash_new (c : HashClass) : Hash := mkHash _ c (prim_init c).

(** [IsValid]: [m_hash != NULL] for a [CngHash], [true] otherwise. *)
Definition IsValid (h : Hash) : bool :=
  if UsesMSCrypto (hash_class h) then bool_decide (is_Some (m_ctx h))
  else true.

(** [Update]. *)
Definition Update (h : Hash) (pbData : ByteArray) : Hash :=
  mkHash _ (hash_class h)
    ((fun ctx => prim_update (hash_class h) ctx pbData) <$> m_ctx h).

(** [Final]: the digest written to [pbDigest]; [None] when nothing is
    written (an invalid [CngHash]). *)
Definition Final (h : Hash) : option ByteArray :=
  prim_final (hash_class h) <$> m_ctx h.

(** [Hash::IsHashId]. *)
Definition IsHashId (szHashId : wstring) : bool :=
  (_wcsicmp szHashId (W "SHA1") =? 0)
  || (_wcsicmp szHashId (W "SHA256") =? 0)
  || (_wcsicmp szHashId (W "SHA384") =? 0)
  || (_wcsicmp szHashId (W "SHA512") =? 0)
  || (_wcsicmp szHashId (W "MD5") =? 0)
  || (_wcsicmp szHashId (W "Streebog") =? 0)
  || (_wcsicmp szHashId (W "Blake2s") =? 0)
  || (_wcsicmp szHashId (W "Blake2b") =? 0)
  || (_wcsicmp szHashId (W "Blake3") =? 0).

(** [Hash::IsHashSize]. *)
Definition IsHashSize (size : Z) : bool :=
  (size =? 16) || (size =? 20) || (size =? 32) || (size =? 48)
  || (size =? 64).

(** [Hash::GetHash], for a non-null [szHashId]; [None] is [NULL].  The
    class chosen for an identifier: *)
Definition GetHash_class (szHashId : wstring) : option HashClass :=
  if _wcsicmp szHashId (W "SHA1") =? 0 then Some Sha1Cng
  else if _wcsicmp szHashId (W "SHA256") =? 0 then Some Sha256Cng
  else if _wcsicmp szHashId (W "SHA384") =? 0 then Some Sha384Cng
  else if _wcsicmp szHashId (W "SHA512") =? 0 then Some Sha512Cng
  else if _wcsicmp szHashId (W "MD5") =? 0 then Some Md5Cng
  else if _wcsicmp szHashId (W "Blake2s") =? 0 then Some NeonBlake2s
  else if _wcsicmp szHashId (W "Blake2b") =? 0 then Some NeonBlake2b
  else if _wcsicmp szHashId (W "Blake3") =? 0 then Some Blake3Hash
  else if USE_STREEBOG && (_wcsicmp szHashId (W "Streebog") =? 0)
       then Some Streebog
  else None.

Definition GetHash (szHashId : wstring) : option Hash :=
  Hash_new <$> GetHash_class szHashId.

(** [virtual Hash* Clone() { return GetHash(GetID()); }]; no class
    overrides it. *)
Definition Clone (h : Hash) : option Hash := GetHash (GetID (hash_class h)).

(** [CloneHashes]: every clone is pushed, a null one as a null pointer. *)
Definition CloneHashes (pHashes : list Hash)
  (pOutputHashes : list (option Hash)) : list (option Hash) :=
  pOutputHashes ++ map Clone pHashes.

(** [UpdateHashes]. *)
Definition UpdateHashes (pHashes : list Hash) (pbBuffer : ByteArray)
  : list Hash :=
  map (fun h => Update h pbBuffer) pHashes.

(** [ValidateHashesVector]. *)
Definition ValidateHashesVector (pHashes : list Hash) : bool :=
  forallb IsValid pHashes.
End HashFacade.

(** *** Comma-separated lists of identifiers *)

(** The number of code units of [s] before the first [c]. *)
Fixpoint span_until (c : wchar) (s : wstring) : nat :=
  match s with
  | [] => O
  | x :: s' => if x =? c then O else S (span_until c s')
  end.

(** [std::wstring::find_first_of] for a one-character set, from [pos];
    [None] is [npos]. *)
Definition find_first_of (s : wstring) (c : wchar) (pos : nat) : option nat :=
  let k := span_until c (drop pos s) in
  if (pos + k <? length s)%nat then Some (pos + k)%nat else None.

(** [std::wstring::substr], for [pos <= size()]. *)
Definition substr (s : wstring) (pos n : nat) : wstring :=
  take n (drop pos s).

Definition comma : wchar := 44.

Section HashIdCombination.
Context `{Primitives}.
Variable USE_STREEBOG : bool.

(** The [while (pos != posEnd)] loop of [Hash::GetHashes], from the current
    values of [pos] and [res].  [pos] starts at [0] and never passes
    [posEnd]; the third case is there only because [nat] has no such bound. *)
Equations? GetHashes_loop (strHashId : wstring) (pos : nat) (res : list Hash)
  : list Hash by wf (length strHashId - pos)%nat lt :=
GetHashes_loop strHashId pos res :=
  let posEnd := length strHashId in
  match lt_eq_lt_dec pos posEnd with
  | inleft (right _) => res
  | inright _ => res
  | inleft (left _) =>
      let pos2 :=
        match find_first_of strHashId comma pos with
        | Some p => p
        | None => posEnd
        end in
      let strHashIdPart := substr strHashId pos (pos2 - pos) in
      if IsHashId strHashIdPart then
        let res' :=
          match GetHash USE_STREEBOG strHashIdPart with
          | Some hash => res ++ [hash]
          | None => res
          end in
        match Nat.eq_dec pos2 posEnd with
        | left _ => res'
        | right _ =>
            match Nat.eq_dec (pos2 + 1)%nat posEnd with
            | left _ => []
            | right _ => GetHashes_loop strHashId (pos2 + 1)%nat res'
            end
        end
      else []
  end.
Proof.
  clear GetHashes_loop. subst pos2 posEnd. unfold find_first_of.
  destruct (_ <? _)%nat; lia.
Qed.

(** [Hash::GetHashes], for a non-null [szHashId]. *)
Definition GetHashes (szHashId : wstring) : list Hash :=
  GetHashes_loop szHashId 0 [].
End HashIdCombination.

(** The loop of [Hash::IsHashIdCombination]; [true] is the [return true]
    that follows the loop. *)
Equations? IsHashIdCombination_loop (strHashId : wstring) (pos : nat) : bool
  by wf (length strHashId - pos)%nat lt :=
IsHashIdCombination_loop strHashId pos :=
  let posEnd := length strHashId in
  match lt_eq_lt_dec pos posEnd with
  | inleft (right _) => true
  | inright _ => true
  | inleft (left _) =>
      let pos2 :=
        match find_first_of strHashId comma pos with
        | Some p => p
        | None => posEnd
        end in
      let strHashIdPart := substr strHashId pos (pos2 - pos) in
      if negb (IsHashId strHashIdPart) then false
      else
        match Nat.eq_dec pos2 posEnd with
        | left _ => true
        | right _ =>
            match Nat.eq_dec (pos2 + 1)%nat posEnd with
            | left _ => false
            | right _ => IsHashIdCombination_loop strHashId (pos2 + 1)%nat
            end
        end
  end.
Proof.
  clear IsHashIdCombination_loop. subst pos2 posEnd. unfold find_first_of.
  destruct (_ <? _)%nat; lia.
Qed.

(** [Hash::IsHashIdCombination], for a non-null [szHashId]. *)
Definition IsHashIdCombination (szHashId : wstring) : bool :=
  IsHashIdCombination_loop szHashId 0.

(** ** Paths and directory entries *)

(** [class CPath]: the display path and the absolute path. *)
Record CPath := mkCPath {
  m_path : wstring;
  m_absolutPath : wstring
}.

Global Instance CPath_eq_dec : EqDecision CPath.
Proof. solve_decision. Defined.

Definition backslash : wchar := 92.

(** [CPath::AppendName]. *)
Definition AppendName (p : CPath) (szName : wstring) : CPath :=
  {| m_path := m_path p ++ [backslash] ++ szName;
     m_absolutPath := m_absolutPath p ++ [backslash] ++ szName |}.

(** [class CDirContent]; the constructor appends the name to the path of
    the directory. *)
Record CDirContent := mkCDirContent {
  m_szPath : CPath;
  m_bIsDir : bool
}.

Definition CDirContent_new (szPath : CPath) (szName : wstring) (bIsDir : bool)
  : CDirContent :=
  {| m_szPath := AppendName szPath szName; m_bIsDir := bIsDir |}.

(** [CDirContent::operator LPCWSTR]: the display path of the entry. *)
Definition CDirContent_LPCWSTR (c : CDirContent) : wstring :=
  m_path (m_szPath c).

(** [class HashResultEntry]. *)
Record HashResultEntry := mkHashResultEntry {
  m_hashName : wstring;
  m_digest : ByteArray;
  m_processed : bool
}.

(** The default constructor. *)
Definition HashResultEntry_new : HashResultEntry :=
  {| m_hashName := []; m_digest := []; m_processed := false |}.

(** ** Sorting *)

(** [std::list::sort(comp)] is a stable sort; it is modelled by the stable
    insertion sort.  [x], which comes first in the input, is put in front
    of the first element that [comp] does not place before it. *)
Section ListSort.
Context {A : Type} (comp : A -> A -> bool).

Fixpoint sort_insert (x : A) (l : list A) : list A :=
  match l with
  | [] => [x]
  | y :: l' => if comp y x then y :: sort_insert x l' else x :: l
  end.

Fixpoint list_sort (l : list A) : list A :=
  match l with
  | [] => []
  | x :: l' => sort_insert x (list_sort l')
  end.
End ListSort.

(** ** The walker *)

(** Conversion to [DWORD] and to [int]. *)
Definition to_dword (z : Z) : Z := z mod 4294967296.
Definition to_int (z : Z) : Z := (z + 2147483648) mod 4294967296 - 2147483648.

Definition ERROR_NO_MORE_FILES : Z := 18.

(** What the file system shows of a tree: for a file its name, whether it
    is a reparse point and whether [CreateFileW] and [GetFileSizeEx] succeed
    on it; for a directory its name, whether it is a reparse point, the
    error of [FindFirstFile] when it fails, the entries [FindFirstFile] and
    [FindNextFile] return, in the order they return them, and the error
    that ends the enumeration. *)
Inductive Node :=
| FileNode (cFileName : wstring) (reparse : bool) (openable : bool)
| DirNode (cFileName : wstring) (reparse : bool) (findFirstError : option Z)
    (entries : list Node) (findNextError : Z).

Definition cFileName_of (n : Node) : wstring :=
  match n with
  | FileNode name _ _ => name
  | DirNode name _ _ _ _ => name
  end.

(** [ffd.dwFileAttributes & FILE_ATTRIBUTE_DIRECTORY]. *)
Definition is_directory (n : Node) : bool :=
  match n with
  | FileNode _ _ _ => false
  | DirNode _ _ _ _ _ => true
  end.

(** [IsReparsePoint] on the path of the entry. *)
Definition IsReparsePoint (n : Node) : bool :=
  match n with
  | FileNode _ r _ => r
  | DirNode _ r _ _ _ => r
  end.

(** The globals the walker reads. *)
Record Globals := mkGlobals {
  onlySpecList : list wstring;
  excludeSpecList : list wstring;
  g_bNoFollow : bool;
  g_bSkipError : bool;
  g_verificationFileName : CPath;
  g_outputFileName : CPath
}.

(** The state the walker updates: two globals and the [m_processed] marks
    of [digestList] (a [mutable] member, written through the [const]
    reference). *)
Record WalkState := mkWalkState {
  g_sumFileSkipped : bool;
  g_bMismatchFound : bool;
  digestList : gmap (list Z) HashResultEntry
}.

(** What the walker does, in the order it does it: [TDir] for a directory
    that [HashDirectory] lists, with what it did for its entries; [TFile]
    for a file that [HashFile] tries to open, with the outcome.  Reading and
    hashing the content of an opened file ([ProcessFile], [AddHashJob]) is
    not followed further. *)
Inductive Trace :=
| TFile (path : CPath) (opened : bool)
| TDir (path : CPath) (children : list Trace).

Definition Trace_path (t : Trace) : CPath :=
  match t with
  | TFile p _ => p
  | TDir p _ => p
  end.

(** The result of [HashFile] and [HashDirectory]: the [DWORD] they return,
    what they did, and the state they leave. *)
Abbreviation WalkResult := (Z * list Trace * WalkState)%type (only parsing).

Section Walker.
(** [PathMatchSpec] of the Windows shell. *)
Variable PathMatchSpec : wstring -> wstring -> bool.
Variable g : Globals.
Variable bSumMode : bool.

(** [IsExcludedName]. *)
Definition IsExcludedName (szName : wstring) (bIsFile : bool) : bool :=
  if bIsFile && negb (bool_decide (onlySpecList g = [])) then
    negb (existsb (fun spec => PathMatchSpec szName spec) (onlySpecList g))
  else existsb (fun spec => PathMatchSpec szName spec) (excludeSpecList g).

(** [HashFile]. *)
Definition HashFile (filePath : CPath) (openable : bool) (st : WalkState)
  : WalkResult :=
  let szFilePath := m_path filePath in
  if IsExcludedName szFilePath true then (0, [], st)
  else
    let open (st : WalkState) : WalkResult :=
      if openable then (0, [TFile filePath true], st)
      else if g_bSkipError g then
        (0, [TFile filePath false],
         if bSumMode
         then mkWalkState (g_sumFileSkipped st) true (digestList st)
         else st)
      else (to_dword (-1), [TFile filePath false], st) in
    if bSumMode && negb (bool_decide (digestList st = ∅)) then
      match digestList st !! szFilePath with
      | None =>
          if g_bSkipError g
          then (0, [], mkWalkState (g_sumFileSkipped st) true (digestList st))
          else (to_dword (-5), [], st)
      | Some e =>
          open (mkWalkState (g_sumFileSkipped st) (g_bMismatchFound st)
                  (<[szFilePath :=
                      mkHashResultEntry (m_hashName e) (m_digest e) true]>
                     (digestList st)))
      end
    else open st.

(** An entry that the enumeration returned, with what the walker does when
    it reaches it. *)
Abbreviation Walker := (CPath -> WalkState -> WalkResult) (only parsing).

(** The [do ... while (FindNextFile ...)] loop of [HashDirectory]: the
    content of [dirContent] and the final value of [g_sumFileSkipped]. *)
Fixpoint enumerate (dirPath : CPath) (verifying : bool)
  (found : list (Node * Walker)) (sumFileSkipped : bool)
  : list (CDirContent * Walker) * bool :=
  match found with
  | [] => ([], sumFileSkipped)
  | (ffd, walk) :: rest =>
      let name := cFileName_of ffd in
      let keep (skipped : bool) (entry : CDirContent) :=
        let '(dirContent, skipped') := enumerate dirPath verifying rest skipped in
        ((entry, walk) :: dirContent, skipped') in
      let drop (skipped : bool) := enumerate dirPath verifying rest skipped in
      if is_directory ffd then
        if negb (bool_decide (name = W ".")) && negb (bool_decide (name = W ".."))
        then
          let entry := CDirContent_new dirPath name true in
          if negb (g_bNoFollow g) || negb (IsReparsePoint ffd)
          then keep sumFileSkipped entry
          else drop sumFileSkipped
        else drop sumFileSkipped
      else
        let entry := CDirContent_new dirPath name false in
        if negb (g_bNoFollow g) || negb (IsReparsePoint ffd) then
          if bSumMode && negb sumFileSkipped then
            if verifying then
              if _wcsicmp (m_absolutPath (g_verificationFileName g))
                   (m_absolutPath (m_szPath entry)) =? 0
              then drop true
              else keep sumFileSkipped entry
            else
              if bool_decide (m_absolutPath (g_outputFileName g) = [])
              then keep true entry
              else if _wcsicmp (m_absolutPath (g_outputFileName g))
                        (m_absolutPath (m_szPath entry)) =? 0
              then drop true
              else keep sumFileSkipped entry
          else keep sumFileSkipped entry
        else drop sumFileSkipped
  end.

(** The [for] loop of [HashDirectory] over the sorted [dirContent]; it
    stops at the first error. *)
Fixpoint HashDirectory_for (dirContent : list (CDirContent * Walker))
  (st : WalkState) : WalkResult :=
  match dirContent with
  | [] => (0, [], st)
  | (it, walk) :: rest =>
      let '(dwError, done, st') := walk (m_szPath it) st in
      if dwError =? 0 then
        let '(dwError', done', st'') := HashDirectory_for rest st' in
        (dwError', done ++ done', st'')
      else (dwError, done, st')
  end.

(** The body of [HashDirectory], given what the enumeration of the
    directory returns. *)
Definition HashDirectory_body (dirPath : CPath) (findFirstError : option Z)
  (found : list (Node * Walker)) (findNextError : Z) (st : WalkState)
  : WalkResult :=
  if IsExcludedName (m_path dirPath) false then (0, [], st)
  else
    match findFirstError with
    | Some dwError =>
        if g_bSkipError g then (0, [TDir dirPath []], st)
        else (dwError, [TDir dirPath []], st)
    | None =>
        let verifying := negb (bool_decide (digestList st = ∅)) in
        let '(dirContent, skipped) :=
          enumerate dirPath verifying found (g_sumFileSkipped st) in
        let st := mkWalkState skipped (g_bMismatchFound st) (digestList st) in
        if negb (findNextError =? ERROR_NO_MORE_FILES) then
          if g_bSkipError g then (0, [TDir dirPath []], st)
          else (findNextError, [TDir dirPath []], st)
        else
          let dirContent :=
            list_sort
              (fun a b => compare_nocase (CDirContent_LPCWSTR (fst a))
                            (CDirContent_LPCWSTR (fst b)))
              dirContent in
          let '(dwError, done, st) := HashDirectory_for dirContent st in
          (dwError, [TDir dirPath done], st)
    end.

(** [HashDirectory] and [HashFile] on the node found at a path. *)
Fixpoint HashNode (n : Node) : Walker :=
  match n with
  | FileNode _ _ openable => fun filePath st => HashFile filePath openable st
  | DirNode _ _ findFirstError entries findNextError => fun dirPath st =>
      HashDirectory_body dirPath findFirstError
        (map (fun e => (e, HashNode e)) entries) findNextError st
  end.

(** [HashDirectory] on a directory of which the enumeration returns
    [entries]. *)
Definition HashDirectory (dirPath : CPath) (findFirstError : option Z)
  (entries : list Node) (findNextError : Z) (st : WalkState) : WalkResult :=
  HashNode (DirNode [] false findFirstError entries findNextError) dirPath st.
End Walker.

(** ** Checksum files *)

Definition space : wchar := 32.
Definition newline : wchar := 10.
Definition slash : wchar := 47.
Definition asterisk : wchar := 42.

(** A pointer into a line is modelled by the part of the line that starts
    at it; [*ptr] is its first code unit, the terminator when there is none. *)
Definition deref (ptr : wstring) : wchar := hd 0 ptr.

(** [wcschr]: the part of the string from the first [c] on; [None] is
    [NULL]. *)
Fixpoint wcschr (s : wstring) (c : wchar) : option wstring :=
  match s with
  | [] => None
  | x :: s' => if x =? c then Some s else wcschr s' c
  end.

(** [ptr != &szLine[l - 1]], for a pointer into a line of [l >= 1] code
    units: the pointer is not at the last one. *)
Definition not_at_last (ptr : wstring) : bool :=
  negb (length ptr =? 1)%nat.

(** [while (ptr != &szLine[l - 1] && *ptr == L' ') ptr++;] *)
Fixpoint skip_spaces (ptr : wstring) : wstring :=
  match ptr with
  | [] => []
  | c :: ptr' =>
      if not_at_last ptr && (c =? space) then skip_spaces ptr' else ptr
  end.

(** [std::replace(entryName.begin(), entryName.end(), L'/', L'\\')]. *)
Definition replace_slashes (s : wstring) : wstring :=
  map (fun c => if c =? slash then backslash else c) s.

(** The lines of a text file as [fgetws] returns them, one string for each
    call: the new-line character, when the line has one, comes last. *)
Abbreviation TextFile := (list (list Z)) (only parsing).

(** The two statements that follow [fgetws]: the new-line character is cut
    off. *)
Definition chomp (szLine : wstring) : wstring :=
  match last szLine with
  | Some c => if c =? newline then take (length szLine - 1) szLine else szLine
  | None => szLine
  end.

(** [digestList[entryName].m_digest = digest]: [operator[]] inserts a
    default entry when the key is new. *)
Definition set_digest (digestList : gmap (list Z) HashResultEntry)
  (entryName : wstring) (digest : ByteArray)
  : gmap (list Z) HashResultEntry :=
  let e := default HashResultEntry_new (digestList !! entryName) in
  <[entryName := mkHashResultEntry (m_hashName e) digest (m_processed e)]>
    digestList.

Section SumFile.
(** [g_inputDirPath]; [g_inputDirPathLength] is always its length. *)
Variable g_inputDirPath : wstring.
Variable normalizePath : bool.

(** What [ParseSumFile] does with a non-empty line once it has set
    [bFailed = true]: the entry it stores, or [None] when [bFailed] is
    still [true] at the end. *)
Definition ParseSumFile_line (digestLen : nat) (szLine : wstring)
  : option (list Z * list Z) :=
  match wcschr szLine space with
  | None => None
  | Some at_space =>
      let hex := take (length szLine - length at_space) szLine in
      let ptr := tl at_space in
      let ptr := skip_spaces ptr in
      let ptr :=
        if not_at_last ptr && (deref ptr =? asterisk) then tl ptr else ptr in
      if not_at_last ptr then
        match FromHex hex with
        | (true, digest) =>
            if (negb (digestLen =? 0)%nat && (digestLen =? length digest)%nat)
               || ((digestLen =? 0)%nat
                   && IsHashSize (Z.of_nat (length digest)))
            then
              let entryName := replace_slashes ptr in
              let g_inputDirPathLength := length g_inputDirPath in
              let entryName :=
                if normalizePath && negb (g_inputDirPathLength =? 0)%nat
                   && ((length entryName <? g_inputDirPathLength)%nat
                       || negb (_wcsicmp g_inputDirPath
                                  (substr entryName 0 g_inputDirPathLength)
                                =? 0))
                then g_inputDirPath ++ entryName
                else entryName in
              Some (entryName, digest)
            else None
        | (false, _) => None
        end
      else None
  end.

(** The [while (fgetws ...)] loop of [ParseSumFile]: the final values of
    [bFailed], [digestList] and [skippedLines]. *)
Fixpoint ParseSumFile_loop (lines : TextFile) (lineNumber : Z)
  (digestLen : nat) (digestList : gmap (list Z) HashResultEntry)
  (skippedLines : list Z)
  : bool * gmap (list Z) HashResultEntry * list Z :=
  match lines with
  | [] => (false, digestList, skippedLines)
  | line :: rest =>
      let szLine := chomp line in
      let lineNumber := lineNumber + 1 in
      if (length szLine =? 0)%nat then
        ParseSumFile_loop rest lineNumber digestLen digestList skippedLines
      else
        match ParseSumFile_line digestLen szLine with
        | Some (entryName, digest) =>
            ParseSumFile_loop rest lineNumber (length digest)
              (set_digest digestList entryName digest) skippedLines
        | None =>
            if lineNumber >? 1 then
              ParseSumFile_loop rest lineNumber digestLen digestList
                (skippedLines ++ [lineNumber])
            else (true, digestList, skippedLines)
        end
  end.

(** [ParseSumFile]: the value it returns and the final content of
    [digestList] and of [skippedLines].  [f] is [None] when the file cannot
    be opened; the two containers are then left as they were. *)
Definition ParseSumFile (f : option TextFile)
  (digestList : gmap (list Z) HashResultEntry) (skippedLines : list Z)
  : bool * gmap (list Z) HashResultEntry * list Z :=
  match f with
  | None => (false, digestList, skippedLines)
  | Some lines =>
      let '(bFailed, digestList, skippedLines) :=
        ParseSumFile_loop lines 0 0 ∅ [] in
      if bFailed then (false, ∅, skippedLines)
      else if bool_decide (digestList = ∅) then (false, digestList, skippedLines)
      else (true, digestList, skippedLines)
  end.
End SumFile.

(** [countPathDepth]. *)
Definition countPathDepth (path : wstring) : Z :=
  Z.of_nat (length (filter (fun c => c = backslash) path)).

(** The comparison that [SortSumFile] hands to [std::sort], on the paths of
    the two entries. *)
Definition SortSumFile_less (a b : wstring) : bool :=
  let depthA := countPathDepth a in
  let depthB := countPathDepth b in
  if negb (depthA =? depthB) then depthA >? depthB
  else _wcsicmp a b <? 0.

(** ** The main program, once the command line has been read *)

Definition is_separator (c : wchar) : bool :=
  (c =? backslash) || (c =? slash).

(** The [while (ptr != szPath)] loop of [GetFileName], on the index of
    [ptr]. *)
Fixpoint GetFileName_scan (szPath : wstring) (ptr : nat) : nat :=
  match ptr with
  | O => O
  | S ptr' =>
      if is_separator (nth ptr szPath 0) then ptr
      else GetFileName_scan szPath ptr'
  end.

(** [GetFileName]. *)
Definition GetFileName (szPath : wstring) : wstring :=
  let len := length szPath in
  if (len <=? 1)%nat then szPath
  else
    let ptr := (len - 1)%nat in
    let ptr := if is_separator (nth ptr szPath 0) then (ptr - 1)%nat else ptr in
    let ptr := GetFileName_scan szPath ptr in
    if is_separator (nth ptr szPath 0) then drop (ptr + 1) szPath
    else drop ptr szPath.

(** [std::wstring::find_last_of] for a one-character set; [None] is
    [npos]. *)
Fixpoint find_last_of (s : wstring) (c : wchar) : option nat :=
  match s with
  | [] => None
  | x :: s' =>
      match find_last_of s' c with
      | Some p => Some (S p)
      | None => if x =? c then Some O else None
      end
  end.

(** [operator<] of [std::wstring], the order of the keys of a
    [std::map<wstring, ...>]. *)
Fixpoint wstring_less (a b : wstring) : bool :=
  match a, b with
  | _, [] => false
  | [], _ :: _ => true
  | x :: a', y :: b' =>
      if x <? y then true else if y <? x then false else wstring_less a' b'
  end.

(** [digestsList.begin()]: the entry with the least key. *)
Definition map_begin (m : gmap (list Z) HashResultEntry)
  : option (list Z * HashResultEntry) :=
  head (list_sort (fun x y => wstring_less (fst x) (fst y)) (map_to_list m)).

(** The values of the local and global variables of [_tmain] when the loop
    over the arguments ends; [argv1] is [argv[1]]. *)
Record Options := mkOptions {
  argv1 : wstring;
  hashAlgoToUse : wstring;
  bVerifyMode : bool;
  bSumMode0 : bool;
  bForceSumMode : bool;
  bBenchmarkOp : bool;
  bBenchmarkAllAlgos : bool;
  g_bIncludeLastDir : bool;
  globals : Globals
}.

(** What the program finds outside: at the input path (nothing when
    [GetPathType] fails), in the file given to [-verify] when [ParseSumFile]
    opens it, and what [ParseResultFile] returns and leaves in its two
    containers when it is called on that file. *)
Record Outside := mkOutside {
  target : option Node;
  verificationFile : option (list (list Z));
  resultFile : bool * gmap (list Z) HashResultEntry * gmap Z (list Z)
}.

(** Where [_tmain] stands when it reaches the call of [HashDirectory] or
    [HashFile], if it does.  [Undefined] is the evaluation of [pHashes[0]] on
    an empty vector; the loop over the arguments rules it out, since
    [-verify] cannot follow [-benchmark]. *)
Inductive Started `{Primitives} :=
| Exit (code : Z)
| Benchmark
| Undefined
| Hashing (bSumMode : bool) (g_inputDirPath : wstring) (pHashes : list Hash)
    (digestsList : gmap (list Z) HashResultEntry) (skippedLines : list Z)
    (verifyDigest : ByteArray).

(** Where [_tmain] stands when it reaches the [if (bVerifyMode)] block, if
    it does. *)
Inductive Checked `{Primitives} :=
| Ended (s : Started)
| Reached (bIsFile : bool) (inputArg g_inputDirPath : wstring)
    (bSumMode : bool) (pHashes : list Hash).

Section Main.
Context `{Primitives}.
Variable USE_STREEBOG : bool.
Variable PathMatchSpec : wstring -> wstring -> bool.
(** [EnsureAbsolut], which depends on the current directory. *)
Variable EnsureAbsolut : wstring -> wstring.

(** [explicit CPath(LPCWSTR szPath)]. *)
Definition CPath_new (szPath : wstring) : CPath :=
  let m_path := replace_slashes szPath in
  {| m_path := m_path; m_absolutPath := EnsureAbsolut m_path |}.

(** [inputArg]: [argv[1]] with backslashes, without a trailing one. *)
Definition inputArg_of (argv1 : wstring) : wstring :=
  let inputArg := replace_slashes argv1 in
  match last inputArg with
  | Some c =>
      if c =? backslash then take (length inputArg - 1) inputArg else inputArg
  | None => inputArg
  end.

(** The value [g_inputDirPath] gets for a directory in sum or verify
    mode. *)
Definition inputDirPath_of (o : Options) (inputArg : wstring) : wstring :=
  if g_bIncludeLastDir o then
    match find_last_of inputArg backslash with
    | Some pos => take (pos + 1) inputArg
    | None => []
    end
  else inputArg ++ [backslash].

(** The [if (bVerifyMode)] block of [_tmain]. *)
Definition tmain_verify (o : Options) (out : Outside) (bIsFile : bool)
  (inputArg g_inputDirPath : wstring) (bSumMode : bool) (pHashes : list Hash)
  : Started :=
  match pHashes with
  | [] => Undefined
  | pHashes_0 :: _ =>
      let size := GetHashSize (hash_class pHashes_0) in
      match ParseSumFile g_inputDirPath true (verificationFile out) ∅ [] with
      | (true, digestsList, skippedLines) =>
          match map_begin digestsList with
          | None => Undefined
          | Some (_, first) =>
              let sumFileHashLen := Z.of_nat (length (m_digest first)) in
              if negb (sumFileHashLen =? size) then Exit (-4)
              else if bIsFile then
                let inputFileName := m_path (CPath_new inputArg) in
                match digestsList !! inputFileName with
                | Some entry =>
                    Hashing true g_inputDirPath pHashes
                      {[ inputFileName := entry ]} skippedLines []
                | None => Exit (-5)
                end
              else Hashing true g_inputDirPath pHashes digestsList
                     skippedLines []
          end
      | (false, _, skippedLines) =>
          match resultFile out with
          | (true, digestsList, rawDigestsList) =>
              let entryName := GetFileName (argv1 o) in
              let found :=
                match digestsList !! entryName with
                | Some e => Some (m_digest e)
                | None => rawDigestsList !! size
                end in
              match found with
              | None => Exit (-8)
              | Some verifyDigest =>
                  if negb (Z.of_nat (length verifyDigest) =? size)
                  then Exit (-4)
                  else Hashing bSumMode g_inputDirPath pHashes digestsList
                         skippedLines verifyDigest
              end
          | (false, _, _) => Exit (-3)
          end
      end
  end.

(** [_tmain] from the end of the loop over the arguments to the
    [if (bVerifyMode)] block: either it has returned, or it reaches the
    block with these values of [bIsFile], [inputArg], [g_inputDirPath],
    [bSumMode] and [pHashes].  Opening the output files, which comes in
    between, touches neither the input nor the variables read here. *)
Definition tmain_checks (o : Options) (out : Outside) : Checked :=
  let pHashes :=
    if negb (bBenchmarkAllAlgos o) then GetHashes USE_STREEBOG (hashAlgoToUse o)
    else [] in
  if negb (bBenchmarkAllAlgos o)
     && (bool_decide (pHashes = []) || negb (ValidateHashesVector pHashes))
  then Ended (Exit 1)
  else
    let bSumMode :=
      if negb (bVerifyMode o) && bForceSumMode o then true else bSumMode0 o in
    if bVerifyMode o && (1 <? length pHashes)%nat then Ended (Exit (-10))
    else if bBenchmarkOp o then Ended Benchmark
    else
      let inputArg := inputArg_of (argv1 o) in
      match target out with
      | None => Ended (Exit (-2))
      | Some node =>
          let bIsFile := negb (is_directory node) in
          if g_bNoFollow (globals o) && IsReparsePoint node
          then Ended (Exit (-9))
          else
            let g_inputDirPath :=
              if negb bIsFile && (bSumMode || bVerifyMode o)
              then inputDirPath_of o inputArg else [] in
            Reached bIsFile inputArg g_inputDirPath bSumMode pHashes
      end.

(** [_tmain] from the end of the loop over the arguments to the call of
    [HashDirectory] or [HashFile].  Starting the worker threads, which comes
    after the [if (bVerifyMode)] block, reads no file. *)
Definition tmain_start (o : Options) (out : Outside) : Started :=
  match tmain_checks o out with
  | Ended s => s
  | Reached bIsFile inputArg g_inputDirPath bSumMode pHashes =>
      if bVerifyMode o then
        tmain_verify o out bIsFile inputArg g_inputDirPath bSumMode pHashes
      else Hashing bSumMode g_inputDirPath pHashes ∅ [] []
  end.

Definition ERROR_INVALID_PARAMETER : Z := 87.

(** The call of [HashDirectory] or [HashFile] in [_tmain]: what the walker
    does.  Nothing is done when [_tmain] has returned before. *)
Definition tmain_walk (o : Options) (out : Outside) : list Trace :=
  match tmain_start o out, target out with
  | Hashing bSumMode _ _ digestsList _ _, Some node =>
      let inputArg := inputArg_of (argv1 o) in
      let st := mkWalkState false false digestsList in
      let path := CPath_new inputArg in
      match node with
      | DirNode _ _ findFirstError entries findNextError =>
          snd (fst (HashDirectory PathMatchSpec (globals o) bSumMode path
                      findFirstError entries findNextError st))
      | FileNode _ _ openable =>
          let same (other : CPath) : bool :=
            _wcsicmp (m_absolutPath other) (m_absolutPath path) =? 0 in
          let dwError :=
            if bSumMode then
              if negb (bool_decide (digestsList = ∅)) then
                if same (g_verificationFileName (globals o))
                then ERROR_INVALID_PARAMETER else 0
              else
                if negb (bool_decide
                           (m_absolutPath (g_outputFileName (globals o)) = []))
                   && same (g_outputFileName (globals o))
                then ERROR_INVALID_PARAMETER else 0
            else 0 in
          if dwError =? 0 then
            snd (fst (HashFile PathMatchSpec (globals o) bSumMode path
                        openable st))
          else []
      end
  | _, _ => []
  end.
End Main.

(** ** Notions of the specification *)

(** The segments of a comma-delimited string: what lies between two
    commas, before the first and after the last, nothing trimmed. *)
Fixpoint split_commas (s : wstring) : list wstring :=
  match s with
  | [] => [[]]
  | c :: s' =>
      if c =? comma then [] :: split_commas s'
      else
        match split_commas s' with
        | seg :: segs => (c :: seg) :: segs
        | [] => [[c]]
        end
  end.

(** A string without the terminator inside, as every C string is. *)
Definition no_nul (s : wstring) : bool := forallb (fun c => negb (c =? 0)) s.

(** A tree whose names are C strings. *)
Fixpoint well_named (n : Node) : bool :=
  no_nul (cFileName_of n)
  && match n with
     | FileNode _ _ _ => true
     | DirNode _ _ _ entries _ => forallb well_named entries
     end.

(** Ascending case-insensitive order of names. *)
Definition nocase_le (a b : wstring) : Prop := _wcsicmp a b <= 0.

(** The walker worked in canonical tree order: under every directory it
    listed, what it did concerns entries of that directory, taken in
    ascending case-insensitive order of their names. *)
Inductive walk_ordered : Trace -> Prop :=
| ordered_TFile (p : CPath) (opened : bool) : walk_ordered (TFile p opened)
| ordered_TDir (p : CPath) (children : list Trace) (names : list (list Z)) :
    map Trace_path children = map (AppendName p) names ->
    StronglySorted nocase_le names ->
    Forall walk_ordered children ->
    walk_ordered (TDir p children).

(** What a line of a checksum file is for the parser, which has already
    fixed the digest length [digestLen] ([0]: not yet). *)
Inductive LineStatus :=
| Blank
| Accepted (entryName : list Z) (digest : list Z)
| Rejected.

Global Instance LineStatus_eq_dec : EqDecision LineStatus.
Proof. solve_decision. Defined.

Section Classify.
Variable g_inputDirPath : wstring.
Variable normalizePath : bool.

Fixpoint classify (digestLen : nat) (lines : list (list Z))
  : list LineStatus :=
  match lines with
  | [] => []
  | line :: rest =>
      let szLine := chomp line in
      if (length szLine =? 0)%nat then Blank :: classify digestLen rest
      else
        match ParseSumFile_line g_inputDirPath normalizePath digestLen szLine
        with
        | Some (entryName, digest) =>
            Accepted entryName digest :: classify (length digest) rest
        | None => Rejected :: classify digestLen rest
        end
  end.
End Classify.

(** The accepted lines, in the order of the file. *)
Definition accepted_lines (sts : list LineStatus) : list (list Z * list Z) :=
  omap (fun s => match s with
                 | Accepted entryName digest => Some (entryName, digest)
                 | _ => None
                 end) sts.

(** The 1-based numbers of the rejected lines, in the order of the file;
    [n] is the number of the first line of [sts]. *)
Fixpoint rejected_from (n : Z) (sts : list LineStatus) : list Z :=
  match sts with
  | [] => []
  | Rejected :: rest => n :: rejected_from (n + 1) rest
  | _ :: rest => rejected_from (n + 1) rest
  end.

(** The digests of the accepted lines that name [p], in the order of the
    file. *)
Definition digests_of (p : list Z) (acc : list (list Z * list Z))
  : list (list Z) :=
  map snd (filter (fun e => fst e = p) acc).

(** The table that results from storing the accepted lines one after the
    other. *)
Definition fold_digests (acc : list (list Z * list Z))
  (digestList : gmap (list Z) HashResultEntry)
  : gmap (list Z) HashResultEntry :=
  foldl (fun m e => set_digest m (fst e) (snd e)) digestList acc.

(** A hash primitive for the examples: the context is the list of the bytes
    absorbed so far and the digest is that list. *)
Definition transcript : Primitives :=
  {| Ctx := list Z;
     prim_init := fun _ => Some [];
     prim_update := fun _ ctx data => ctx ++ data;
     prim_final := fun _ ctx => ctx |}.

(** A pattern matcher for the examples: the name ends with the pattern. *)
Definition ends_with (szName spec : wstring) : bool :=
  bool_decide (drop (length szName - length spec) szName = spec).

(** ** Objects of the examples and proof tools *)

(** The file of the examples: an MD5 line, a blank line, a line that is not
    a checksum line, a line with a SHA-1 digest, and an MD5 line for the
    path of line 1. *)
Definition md5_a : ByteArray :=
  [1; 2; 3; 4; 5; 6; 7; 8; 9; 10; 11; 12; 13; 14; 15; 16].
Definition md5_b : ByteArray :=
  [16; 15; 14; 13; 12; 11; 10; 9; 8; 7; 6; 5; 4; 3; 2; 1].
Definition sha1_c : ByteArray :=
  [1; 2; 3; 4; 5; 6; 7; 8; 9; 10; 11; 12; 13; 14; 15; 16; 17; 18; 19; 20].

Definition example_sum_file : list (list Z) :=
  [ ToHex false md5_a ++ W "  dir/ab.txt" ++ [newline];
    [newline];
    W "not a checksum line" ++ [newline];
    ToHex false sha1_c ++ W "  dir/cd.txt" ++ [newline];
    ToHex true md5_b ++ W " *dir\ab.txt" ].

(** The tree, the globals and the command lines of the examples. *)
Definition example_tree : Node :=
  DirNode (W "root") false None
    [ FileNode (W "b.txt") false true;
      DirNode (W "Dir") false None
        [FileNode (W "z.txt") false true; FileNode (W "Y.bin") false true]
        ERROR_NO_MORE_FILES;
      FileNode (W "A.TXT") false true;
      DirNode (W ".") false None [] ERROR_NO_MORE_FILES;
      FileNode (W "c.bin") false true ]
    ERROR_NO_MORE_FILES.

Definition example_root : CPath := mkCPath (W "root") (W "c:\root").

Definition example_globals : Globals :=
  mkGlobals [] [] false false (mkCPath [] []) (mkCPath [] []).

Definition example_only_txt : Globals :=
  mkGlobals [W ".txt"] [] false false (mkCPath [] []) (mkCPath [] []).

Definition example_verify (algo : wstring) : Options :=
  mkOptions (W "root") algo true false false false false false
    example_globals.

(** The options of a run in sum mode, without [-verify]. *)
Definition example_sum (algo : wstring) : Options :=
  mkOptions (W "root") algo false true false false false false
    example_globals.

Definition example_outside : Outside :=
  mkOutside (Some example_tree)
    (Some [ToHex false md5_a ++ W "  root\b.txt" ++ [newline]])
    (false, ∅, ∅).

(** The entry of [dirContent] for a node. *)
Definition dirContent_entry (dirPath : CPath)
  (walk_of : Node -> CPath -> WalkState -> Z * list Trace * WalkState)
  (e : Node)
  : CDirContent * (CPath -> WalkState -> Z * list Trace * WalkState) :=
  (CDirContent_new dirPath (cFileName_of e) (is_directory e), walk_of e).


(** ** Further functions of the source and of the run-time *)

(** [towupper] of the C run-time in the "C" locale. *)
Definition towupper (c : wchar) : wchar :=
  if (97 <=? c) && (c <=? 122) then c - 32 else c.

(** The case [ToHex] writes the digits in. *)
Definition to_case (g_bLowerCase : bool) (c : wchar) : wchar :=
  if g_bLowerCase then towlower c else towupper c.

(** The line [ProcessFile] writes for a file in sum mode, once for each
    algorithm: the digest in hexadecimal, two blanks, the path (without its
    first [g_inputDirPathLength] code units when [g_bSumRelativePath] is
    set) and a new-line character.  [SortSumFile] writes its entries in the
    same form, the path as it is. *)
Definition ProcessFile_sum_line (g_bLowerCase g_bSumRelativePath : bool)
  (g_inputDirPathLength : nat) (digest : ByteArray) (szFilePath : wstring)
  : wstring :=
  ToHex g_bLowerCase digest ++ W "  "
  ++ (if g_bSumRelativePath then drop g_inputDirPathLength szFilePath
      else szFilePath)
  ++ [newline].

(** The files the walker tried to open, in the order it tried them. *)
Fixpoint Trace_files (t : Trace) : list CPath :=
  match t with
  | TFile p _ => [p]
  | TDir _ children => flat_map Trace_files children
  end.

(** The entry of [p] is marked as processed. *)
Definition marked (digestList : gmap (list Z) HashResultEntry) (p : list Z)
  : Prop :=
  exists e, digestList !! p = Some e /\ m_processed e = true.

(** The second table has the paths, the hash names and the digests of the
    first one, and the marks of the first one at least. *)
Definition only_marks (digestList digestList' : gmap (list Z) HashResultEntry)
  : Prop :=
  forall p,
    match digestList !! p, digestList' !! p with
    | Some e, Some e' =>
        m_hashName e' = m_hashName e /\ m_digest e' = m_digest e
        /\ (m_processed e = true -> m_processed e' = true)
    | None, None => True
    | _, _ => False
    end.

(** The entries [.] and [..] of a directory. *)
Definition is_dots (n : Node) : bool :=
  is_directory n
  && (bool_decide (cFileName_of n = W ".")
      || bool_decide (cFileName_of n = W "..")).

(** The entries of a directory that are neither [.] nor [..] nor, with
    [-nofollow], reparse points. *)
Definition listed (g : Globals) (n : Node) : bool :=
  negb (is_dots n) && (negb (g_bNoFollow g) || negb (IsReparsePoint n)).

(** The files of a tree, with the paths the walker gives them when it
    starts from [path]. *)
Fixpoint tree_files (path : CPath) (n : Node) : list CPath :=
  match n with
  | FileNode _ _ _ => [path]
  | DirNode _ _ _ entries _ =>
      flat_map (fun e =>
                  if is_dots e then []
                  else tree_files (AppendName path (cFileName_of e)) e)
        entries
  end.

(** Every directory of the tree can be listed to its end and every file
    can be opened. *)
Fixpoint all_readable (n : Node) : bool :=
  match n with
  | FileNode _ _ openable => openable
  | DirNode _ _ findFirstError entries findNextError =>
      bool_decide (findFirstError = None)
      && (findNextError =? ERROR_NO_MORE_FILES)
      && forallb all_readable entries
  end.

(** Globals and a tree for a walk that meets errors and skips them. *)
Definition example_skip_errors : Globals :=
  mkGlobals [] [] false true (mkCPath [] []) (mkCPath [] []).

Definition example_broken_tree : Node :=
  DirNode (W "root") false None
    [ FileNode (W "b.txt") false false;
      DirNode (W "locked") false (Some 5) [] ERROR_NO_MORE_FILES;
      FileNode (W "a.txt") false true ]
    ERROR_NO_MORE_FILES.

(** The path [ParseSumFile] stores for the path it reads from a line:
    the input directory is put in front of a path that does not begin with
    it. *)
Definition stored_name (g_inputDirPath : wstring) (normalizePath : bool)
  (entryName : wstring) : wstring :=
  if normalizePath && negb (length g_inputDirPath =? 0)%nat
     && ((length entryName <? length g_inputDirPath)%nat
         || negb (_wcsicmp g_inputDirPath
                    (substr entryName 0 (length g_inputDirPath)) =? 0))
  then g_inputDirPath ++ entryName
  else entryName.

(** ** The command line *)

(** [ConfigParams]: the values read from [DirHash.ini]. *)
Module ConfigParams.
Record t := mk {
  hashAlgoToUse : wstring;
  bQuiet : bool;
  bDontWait : bool;
  bShowProgress : bool;
  bCopyToClipboard : bool;
  bIncludeNames : bool;
  bStripNames : bool;
  bLowerCase : bool;
  bSkipError : bool;
  bNoLogo : bool;
  bNoFollow : bool;
  bForceSumMode : bool;
  bUseThreads : bool;
  bSumRelativePath : bool;
  bIncludeLastDir : bool
}.
End ConfigParams.

(** The variables the loop over the arguments of [_tmain] writes: those
    the rest of [_tmain] reads from [Options], and the others. *)
Record Locals := mkLocals {
  options : Options;
  bDontWait : bool;
  bIncludeNames : bool;
  bStripNames : bool;
  bQuiet : bool;
  bOverwrite : bool;
  bCopyToClipboard : bool;
  bShowProgress : bool;
  bUseThreads : bool;
  onlySpecified : bool;
  excludeSpecified : bool;
  g_bLowerCase : bool;
  g_bNoLogo : bool;
  g_bSumRelativePath : bool
}.

Definition set_bDontWait (b : bool) (v : Locals) : Locals :=
  mkLocals (options v) b (bIncludeNames v) (bStripNames v) (bQuiet v)
    (bOverwrite v) (bCopyToClipboard v) (bShowProgress v) (bUseThreads v)
    (onlySpecified v) (excludeSpecified v) (g_bLowerCase v) (g_bNoLogo v)
    (g_bSumRelativePath v).

Definition set_bIncludeNames (b : bool) (v : Locals) : Locals :=
  mkLocals (options v) (bDontWait v) b (bStripNames v) (bQuiet v)
    (bOverwrite v) (bCopyToClipboard v) (bShowProgress v) (bUseThreads v)
    (onlySpecified v) (excludeSpecified v) (g_bLowerCase v) (g_bNoLogo v)
    (g_bSumRelativePath v).

Definition set_bStripNames (b : bool) (v : Locals) : Locals :=
  mkLocals (options v) (bDontWait v) (bIncludeNames v) b (bQuiet v)
    (bOverwrite v) (bCopyToClipboard v) (bShowProgress v) (bUseThreads v)
    (onlySpecified v) (excludeSpecified v) (g_bLowerCase v) (g_bNoLogo v)
    (g_bSumRelativePath v).

Definition set_bQuiet (b : bool) (v : Locals) : Locals :=
  mkLocals (options v) (bDontWait v) (bIncludeNames v) (bStripNames v) b
    (bOverwrite v) (bCopyToClipboard v) (bShowProgress v) (bUseThreads v)
    (onlySpecified v) (excludeSpecified v) (g_bLowerCase v) (g_bNoLogo v)
    (g_bSumRelativePath v).

Definition set_bOverwrite (b : bool) (v : Locals) : Locals :=
  mkLocals (options v) (bDontWait v) (bIncludeNames v) (bStripNames v)
    (bQuiet v) b (bCopyToClipboard v) (bShowProgress v) (bUseThreads v)
    (onlySpecified v) (excludeSpecified v) (g_bLowerCase v) (g_bNoLogo v)
    (g_bSumRelativePath v).

Definition set_bCopyToClipboard (b : bool) (v : Locals) : Locals :=
  mkLocals (options v) (bDontWait v) (bIncludeNames v) (bStripNames v)
    (bQuiet v) (bOverwrite v) b (bShowProgress v) (bUseThreads v)
    (onlySpecified v) (excludeSpecified v) (g_bLowerCase v) (g_bNoLogo v)
    (g_bSumRelativePath v).

Definition set_bShowProgress (b : bool) (v : Locals) : Locals :=
  mkLocals (options v) (bDontWait v) (bIncludeNames v) (bStripNames v)
    (bQuiet v) (bOverwrite v) (bCopyToClipboard v) b (bUseThreads v)
    (onlySpecified v) (excludeSpecified v) (g_bLowerCase v) (g_bNoLogo v)
    (g_bSumRelativePath v).

Definition set_bUseThreads (b : bool) (v : Locals) : Locals :=
  mkLocals (options v) (bDontWait v) (bIncludeNames v) (bStripNames v)
    (bQuiet v) (bOverwrite v) (bCopyToClipboard v) (bShowProgress v) b
    (onlySpecified v) (excludeSpecified v) (g_bLowerCase v) (g_bNoLogo v)
    (g_bSumRelativePath v).

Definition set_onlySpecified (b : bool) (v : Locals) : Locals :=
  mkLocals (options v) (bDontWait v) (bIncludeNames v) (bStripNames v)
    (bQuiet v) (bOverwrite v) (bCopyToClipboard v) (bShowProgress v)
    (bUseThreads v) b (excludeSpecified v) (g_bLowerCase v) (g_bNoLogo v)
    (g_bSumRelativePath v).

Definition set_excludeSpecified (b : bool) (v : Locals) : Locals :=
  mkLocals (options v) (bDontWait v) (bIncludeNames v) (bStripNames v)
    (bQuiet v) (bOverwrite v) (bCopyToClipboard v) (bShowProgress v)
    (bUseThreads v) (onlySpecified v) b (g_bLowerCase v) (g_bNoLogo v)
    (g_bSumRelativePath v).

Definition set_g_bLowerCase (b : bool) (v : Locals) : Locals :=
  mkLocals (options v) (bDontWait v) (bIncludeNames v) (bStripNames v)
    (bQuiet v) (bOverwrite v) (bCopyToClipboard v) (bShowProgress v)
    (bUseThreads v) (onlySpecified v) (excludeSpecified v) b (g_bNoLogo v)
    (g_bSumRelativePath v).

Definition set_g_bNoLogo (b : bool) (v : Locals) : Locals :=
  mkLocals (options v) (bDontWait v) (bIncludeNames v) (bStripNames v)
    (bQuiet v) (bOverwrite v) (bCopyToClipboard v) (bShowProgress v)
    (bUseThreads v) (onlySpecified v) (excludeSpecified v) (g_bLowerCase v) b
    (g_bSumRelativePath v).

Definition set_g_bSumRelativePath (b : bool) (v : Locals) : Locals :=
  mkLocals (options v) (bDontWait v) (bIncludeNames v) (bStripNames v)
    (bQuiet v) (bOverwrite v) (bCopyToClipboard v) (bShowProgress v)
    (bUseThreads v) (onlySpecified v) (excludeSpecified v) (g_bLowerCase v)
    (g_bNoLogo v) b.

Definition set_options (f : Options -> Options) (v : Locals) : Locals :=
  mkLocals (f (options v)) (bDontWait v) (bIncludeNames v) (bStripNames v)
    (bQuiet v) (bOverwrite v) (bCopyToClipboard v) (bShowProgress v)
    (bUseThreads v) (onlySpecified v) (excludeSpecified v) (g_bLowerCase v)
    (g_bNoLogo v) (g_bSumRelativePath v).

Definition set_hashAlgoToUse (x : wstring) (v : Locals) : Locals :=
  set_options (fun o => mkOptions (argv1 o) x (bVerifyMode o) (bSumMode0 o)
    (bForceSumMode o) (bBenchmarkOp o) (bBenchmarkAllAlgos o)
    (g_bIncludeLastDir o) (globals o)) v.

Definition set_bVerifyMode (x : bool) (v : Locals) : Locals :=
  set_options (fun o => mkOptions (argv1 o) (hashAlgoToUse o) x (bSumMode0
    o) (bForceSumMode o) (bBenchmarkOp o) (bBenchmarkAllAlgos o)
    (g_bIncludeLastDir o) (globals o)) v.

Definition set_bSumMode0 (x : bool) (v : Locals) : Locals :=
  set_options (fun o => mkOptions (argv1 o) (hashAlgoToUse o) (bVerifyMode
    o) x (bForceSumMode o) (bBenchmarkOp o) (bBenchmarkAllAlgos o)
    (g_bIncludeLastDir o) (globals o)) v.

Definition set_bBenchmarkAllAlgos (x : bool) (v : Locals) : Locals :=
  set_options (fun o => mkOptions (argv1 o) (hashAlgoToUse o) (bVerifyMode
    o) (bSumMode0 o) (bForceSumMode o) (bBenchmarkOp o) x (g_bIncludeLastDir
    o) (globals o)) v.

Definition set_g_bIncludeLastDir (x : bool) (v : Locals) : Locals :=
  set_options (fun o => mkOptions (argv1 o) (hashAlgoToUse o) (bVerifyMode
    o) (bSumMode0 o) (bForceSumMode o) (bBenchmarkOp o) (bBenchmarkAllAlgos o)
    x (globals o)) v.

Definition set_globals (f : Globals -> Globals) (v : Locals) : Locals :=
  set_options (fun o => mkOptions (argv1 o) (hashAlgoToUse o) (bVerifyMode
    o) (bSumMode0 o) (bForceSumMode o) (bBenchmarkOp o) (bBenchmarkAllAlgos o)
    (g_bIncludeLastDir o) (f (globals o))) v.

Definition set_onlySpecList (x : list wstring) (v : Locals) : Locals :=
  set_globals (fun g => mkGlobals x (excludeSpecList g) (g_bNoFollow g)
    (g_bSkipError g) (g_verificationFileName g) (g_outputFileName g)) v.

Definition set_excludeSpecList (x : list wstring) (v : Locals) : Locals :=
  set_globals (fun g => mkGlobals (onlySpecList g) x (g_bNoFollow g)
    (g_bSkipError g) (g_verificationFileName g) (g_outputFileName g)) v.

Definition set_g_bNoFollow (x : bool) (v : Locals) : Locals :=
  set_globals (fun g => mkGlobals (onlySpecList g) (excludeSpecList g) x
    (g_bSkipError g) (g_verificationFileName g) (g_outputFileName g)) v.

Definition set_g_bSkipError (x : bool) (v : Locals) : Locals :=
  set_globals (fun g => mkGlobals (onlySpecList g) (excludeSpecList g)
    (g_bNoFollow g) x (g_verificationFileName g) (g_outputFileName g)) v.

Definition set_g_verificationFileName (x : CPath) (v : Locals) : Locals :=
  set_globals (fun g => mkGlobals (onlySpecList g) (excludeSpecList g)
    (g_bNoFollow g) (g_bSkipError g) x (g_outputFileName g)) v.

Definition set_g_outputFileName (x : CPath) (v : Locals) : Locals :=
  set_globals (fun g => mkGlobals (onlySpecList g) (excludeSpecList g)
    (g_bNoFollow g) (g_bSkipError g) (g_verificationFileName g) x) v.

Section CommandLine.
Variable EnsureAbsolut : wstring -> wstring.

(** The [for] loop over [argv[2]], ..., of [_tmain]; [None] is one of its
    [return 1]. *)
Fixpoint tmain_arguments (args : list wstring) (v : Locals) : option Locals :=
  match args with
  | [] => Some v
  | arg :: rest =>
      let o := options v in
      if bool_decide (arg = W "-t") then
        match rest with
        | [] => None
        | next :: rest' =>
            tmain_arguments rest'
              (set_g_outputFileName (CPath_new EnsureAbsolut next) v)
        end
      else if bool_decide (arg = W "-overwrite") then
        tmain_arguments rest (set_bOverwrite true v)
      else if bool_decide (arg = W "-nowait") then
        tmain_arguments rest (set_bDontWait true v)
      else if bool_decide (arg = W "-quiet") then
        tmain_arguments rest (set_bQuiet true v)
      else if bool_decide (arg = W "-hashnames") then
        if bBenchmarkOp o then None
        else tmain_arguments rest (set_bIncludeNames true v)
      else if bool_decide (arg = W "-stripnames") then
        if bBenchmarkOp o then None
        else tmain_arguments rest (set_bStripNames true v)
      else if bool_decide (arg = W "-sum") then
        if bBenchmarkOp o then None
        else if bVerifyMode o then None
        else tmain_arguments rest (set_bSumMode0 true v)
      else if bool_decide (arg = W "-verify") then
        if bBenchmarkOp o then None
        else if bSumMode0 o then None
        else
          match rest with
          | [] => None
          | next :: rest' =>
              tmain_arguments rest'
                (set_g_verificationFileName (CPath_new EnsureAbsolut next)
                   (set_bVerifyMode true v))
          end
      else if bool_decide (arg = W "-exclude") then
        if bBenchmarkOp o then None
        else if onlySpecified v then None
        else
          match rest with
          | [] => None
          | next :: rest' =>
              tmain_arguments rest'
                (set_excludeSpecList (excludeSpecList (globals o) ++ [next])
                   (set_excludeSpecified true v))
          end
      else if bool_decide (arg = W "-only") then
        if bBenchmarkOp o then None
        else if excludeSpecified v then None
        else
          match rest with
          | [] => None
          | next :: rest' =>
              tmain_arguments rest'
                (set_onlySpecList (onlySpecList (globals o) ++ [next])
                   (set_onlySpecified true v))
          end
      else if bool_decide (arg = W "-clip") then
        tmain_arguments rest (set_bCopyToClipboard true v)
      else if bool_decide (arg = W "-progress") then
        if bBenchmarkOp o then None
        else tmain_arguments rest (set_bShowProgress true v)
      else if bool_decide (arg = W "-lowercase") then
        if bBenchmarkOp o then None
        else tmain_arguments rest (set_g_bLowerCase true v)
      else if bool_decide (arg = W "-skipError") then
        if bBenchmarkOp o then None
        else tmain_arguments rest (set_g_bSkipError true v)
      else if _wcsicmp arg (W "-nologo") =? 0 then
        tmain_arguments rest (set_g_bNoLogo true v)
      else if _wcsicmp arg (W "-nofollow") =? 0 then
        tmain_arguments rest (set_g_bNoFollow true v)
      else if IsHashIdCombination arg then
        tmain_arguments rest (set_hashAlgoToUse arg v)
      else if bBenchmarkOp o && (_wcsicmp arg (W "All") =? 0) then
        tmain_arguments rest (set_bBenchmarkAllAlgos true v)
      else if _wcsicmp arg (W "-threads") =? 0 then
        tmain_arguments rest (set_bUseThreads true v)
      else if _wcsicmp arg (W "-sumRelativePath") =? 0 then
        tmain_arguments rest (set_g_bSumRelativePath true v)
      else if _wcsicmp arg (W "-includeLastDir") =? 0 then
        tmain_arguments rest
          (set_g_bSumRelativePath true (set_g_bIncludeLastDir true v))
      else None
  end.

(** The values of the variables before the loop, [iniParams] being what
    [LoadDefaults] returned. *)
Definition tmain_defaults (iniParams : ConfigParams.t) (argv_1 : wstring)
  : Locals :=
  {| options :=
       {| argv1 := argv_1;
          hashAlgoToUse := ConfigParams.hashAlgoToUse iniParams;
          bVerifyMode := false;
          bSumMode0 := false;
          bForceSumMode := ConfigParams.bForceSumMode iniParams;
          bBenchmarkOp := bool_decide (argv_1 = W "-benchmark");
          bBenchmarkAllAlgos := false;
          g_bIncludeLastDir := ConfigParams.bIncludeLastDir iniParams;
          globals :=
            {| onlySpecList := [];
               excludeSpecList := [];
               g_bNoFollow := ConfigParams.bNoFollow iniParams;
               g_bSkipError := ConfigParams.bSkipError iniParams;
               g_verificationFileName := mkCPath [] [];
               g_outputFileName := mkCPath [] [] |} |};
     bDontWait := ConfigParams.bDontWait iniParams;
     bIncludeNames := ConfigParams.bIncludeNames iniParams;
     bStripNames := ConfigParams.bStripNames iniParams;
     bQuiet := ConfigParams.bQuiet iniParams;
     bOverwrite := false;
     bCopyToClipboard := ConfigParams.bCopyToClipboard iniParams;
     bShowProgress := ConfigParams.bShowProgress iniParams;
     bUseThreads := ConfigParams.bUseThreads iniParams;
     onlySpecified := false;
     excludeSpecified := false;
     g_bLowerCase := ConfigParams.bLowerCase iniParams;
     g_bNoLogo := ConfigParams.bNoLogo iniParams;
     g_bSumRelativePath := ConfigParams.bSumRelativePath iniParams |}.

(** [_tmain] up to the end of the loop over the arguments; [argv] is the
    whole vector, the name of the program first.  [None] is [return 1]. *)
Definition tmain_command_line (iniParams : ConfigParams.t)
  (argv : list wstring) : option Locals :=
  match argv with
  | _ :: argv_1 :: args =>
      tmain_arguments args (tmain_defaults iniParams argv_1)
  | _ => None
  end.
End CommandLine.

(** [_tmain] from its start to the call of [HashDirectory] or
    [HashFile]. *)
Definition tmain `{Primitives} (USE_STREEBOG : bool)
  (EnsureAbsolut : wstring -> wstring) (iniParams : ConfigParams.t)
  (argv : list wstring) (out : Outside) : Started :=
  match tmain_command_line EnsureAbsolut iniParams argv with
  | None => Exit 1
  | Some v => tmain_start USE_STREEBOG EnsureAbsolut (options v) out
  end.

(** The defaults of [LoadDefaults] when there is no [DirHash.ini]. *)
Definition example_ini : ConfigParams.t :=
  ConfigParams.mk (W "Blake3") false false false false false false false
    false false false false false false false.

(** What the loop over the arguments keeps true of the variables it
    writes. *)
Definition Locals_consistent (v : Locals) : Prop :=
  let o := options v in
  (bVerifyMode o = true -> bSumMode0 o = false)
  /\ (bBenchmarkOp o = true ->
      bVerifyMode o = false /\ bSumMode0 o = false
      /\ onlySpecList (globals o) = [] /\ excludeSpecList (globals o) = [])
  /\ (bBenchmarkAllAlgos o = true -> bBenchmarkOp o = true)
  /\ (onlySpecified v = false -> onlySpecList (globals o) = [])
  /\ (excludeSpecified v = false -> excludeSpecList (globals o) = [])
  /\ (onlySpecified v = true -> excludeSpecified v = false).

(** ** Result files *)

Definition quote : wchar := 34.
Definition open_paren : wchar := 40.

(** [wcsstr(ptr, pattern) == ptr]: the string begins with the pattern. *)
Definition starts_with (ptr pattern : wstring) : bool :=
  bool_decide (take (length pattern) ptr = pattern).

(** The conversion [%d] of [printf], for a value of type [int]. *)
Fixpoint print_unsigned (digits : nat) (n : Z) : wstring :=
  match digits with
  | O => []
  | S digits' =>
      (if n <? 10 then [] else print_unsigned digits' (n / 10))
      ++ [48 + n mod 10]
  end.

Definition print_d (n : Z) : wstring :=
  if n <? 0 then 45 :: print_unsigned 10 (- n) else print_unsigned 10 n.

(** The line [_tmain] writes to the result file for one engine, when
    [-quiet] is not given: the two [_ftprintf] of the loop over
    [pHashes]. *)
Definition result_line (g_bLowerCase : bool) (c : HashClass)
  (szFileName : wstring) (pbDigest : ByteArray) : wstring :=
  GetID c ++ W " hash of " ++ [quote] ++ szFileName ++ [quote]
  ++ W " (" ++ print_d (GetHashSize c) ++ W " bytes) = "
  ++ ToHex g_bLowerCase pbDigest.

Section ResultFile.
Context `{Primitives}.
Variable USE_STREEBOG : bool.
(** [swscanf(ptr, L"%2d", &hashLen)] of the C run-time: the value read
    when it returns 1. *)
Variable swscanf_2d : wstring -> option Z.

(** [ParseResultLine]: the value it returns and the final values of
    [targetName], [hashName] and [digestValue]. *)
Definition ParseResultLine (szLine targetName hashName : wstring)
  (digestValue : ByteArray) : bool * wstring * wstring * ByteArray :=
  let failed : bool * wstring * wstring * ByteArray := (false, [], [], []) in
  if (32 <=? length szLine)%nat then
    match FromHex szLine with
    | (true, digestValue) =>
        if IsHashSize (Z.of_nat (length digestValue))
        then (true, targetName, hashName, digestValue)
        else failed
    | (false, _) =>
        match wcschr szLine space with
        | None => failed
        | Some ptr =>
            let szHashId := take (length szLine - length ptr) szLine in
            match GetHash USE_STREEBOG szHashId with
            | None => failed
            | Some pHash =>
                let hashName := GetID (hash_class pHash) in
                let ptr := tl ptr in
                if (32 <? length ptr)%nat
                   && starts_with ptr (W "hash of " ++ [quote])
                then
                  let ptr := drop 9 ptr in
                  match wcschr ptr quote with
                  | None => failed
                  | Some delim =>
                      let targetName :=
                        take (length ptr - length delim) ptr in
                      if (nth 1 delim 0 =? space)
                         && (nth 2 delim 0 =? open_paren)
                      then
                        let ptr := drop 3 delim in
                        if (32 <? length ptr)%nat then
                          match wcschr ptr space with
                          | None => failed
                          | Some delim =>
                              let szLen :=
                                take (length ptr - length delim) ptr in
                              if (length szLen =? 2)%nat then
                                match swscanf_2d szLen with
                                | Some hashLen =>
                                    if hashLen
                                       =? GetHashSize (hash_class pHash)
                                    then
                                      let ptr := tl delim in
                                      if (32 <? length ptr)%nat
                                         && starts_with ptr (W "bytes) = ")
                                      then
                                        let ptr := drop 9 ptr in
                                        if Z.of_nat (length ptr)
                                           =? 2 * hashLen
                                        then
                                          match FromHex ptr with
                                          | (true, digestValue) =>
                                              (true, targetName, hashName,
                                               digestValue)
                                          | (false, _) => failed
                                          end
                                        else failed
                                      else failed
                                    else failed
                                | None => failed
                                end
                              else failed
                          end
                        else failed
                      else failed
                  end
                else failed
            end
        end
    end
  else failed.

(** [pathDigestList[targetName].m_hashName = hashName;
    pathDigestList[targetName].m_digest = digestValue;] *)
Definition set_result (pathDigestList : gmap (list Z) HashResultEntry)
  (targetName hashName : wstring) (digestValue : ByteArray)
  : gmap (list Z) HashResultEntry :=
  let e := default HashResultEntry_new (pathDigestList !! targetName) in
  <[targetName := mkHashResultEntry hashName digestValue (m_processed e)]>
    pathDigestList.

(** The [while (fgetws ...)] loop of [ParseResultFile]: the final values
    of [bFailed] and of the two containers.  [targetName], [hashName] and
    [digestValue] are declared before the loop and keep their values from
    one line to the next. *)
Fixpoint ParseResultFile_loop (lines : list (list Z))
  (targetName hashName : wstring) (digestValue : ByteArray)
  (pathDigestList : gmap (list Z) HashResultEntry)
  (rawDigestList : gmap Z (list Z))
  : bool * gmap (list Z) HashResultEntry * gmap Z (list Z) :=
  match lines with
  | [] => (false, pathDigestList, rawDigestList)
  | line :: rest =>
      let szLine := chomp line in
      if (length szLine =? 0)%nat then
        ParseResultFile_loop rest targetName hashName digestValue
          pathDigestList rawDigestList
      else
        match ParseResultLine szLine targetName hashName digestValue with
        | (true, targetName, hashName, digestValue) =>
            if negb (length targetName =? 0)%nat
               && negb (length hashName =? 0)%nat
            then
              ParseResultFile_loop rest targetName hashName digestValue
                (set_result pathDigestList targetName hashName digestValue)
                rawDigestList
            else
              ParseResultFile_loop rest targetName hashName digestValue
                pathDigestList
                (<[Z.of_nat (length digestValue) := digestValue]>
                   rawDigestList)
        | (false, _, _, _) => (true, pathDigestList, rawDigestList)
        end
  end.

(** [ParseResultFile]: the value it returns and the final content of the
    two containers.  [f] is [None] when the file cannot be opened. *)
Definition ParseResultFile (f : option (list (list Z)))
  (pathDigestList : gmap (list Z) HashResultEntry)
  (rawDigestList : gmap Z (list Z))
  : bool * gmap (list Z) HashResultEntry * gmap Z (list Z) :=
  match f with
  | None => (false, pathDigestList, rawDigestList)
  | Some lines =>
      let '(bFailed, pathDigestList, rawDigestList) :=
        ParseResultFile_loop lines [] [] [] ∅ ∅ in
      if bFailed then (false, ∅, ∅)
      else if bool_decide (pathDigestList = ∅)
              && bool_decide (rawDigestList = ∅)
      then (false, pathDigestList, rawDigestList)
      else (true, pathDigestList, rawDigestList)
  end.
End ResultFile.

(** The reading of [%2d] on a string of two decimal digits, for the
    examples. *)
Definition example_swscanf_2d (s : wstring) : option Z :=
  match s with
  | [a; b] =>
      if (48 <=? a) && (a <=? 57) && (48 <=? b) && (b <=? 57)
      then Some (10 * (a - 48) + (b - 48))
      else None
  | _ => None
  end.



(** The lines [SortSumFile] writes for the entries it has sorted. *)
Definition SortSumFile_lines (g_bLowerCase : bool)
  (sortedEntries : list (list Z * HashResultEntry)) : list (list Z) :=
  map (fun entry =>
         ToHex g_bLowerCase (m_digest (snd entry)) ++ W "  " ++ fst entry
         ++ [newline])
    sortedEntries.

(** ** The name shown with the progress bar *)

(** Arithmetic on [size_t]. *)
Definition to_size_t (z : Z) : Z := z mod 2 ^ 64.

(** [GetShortFileName]: the string left in [szShortName], which has 256
    code units.  [bufferSize] is the value the function computes from the
    width of the console and the size of the file.  [None]: the function
    reads before the path or copies outside [szShortName] or outside the
    path. *)
Definition GetShortFileName (bufferSize : Z) (szFilePath : wstring)
  : option wstring :=
  match szFilePath with
  | [] => None
  | _ :: _ =>
      let ptr :=
        (GetFileName_scan szFilePath (length szFilePath - 1) + 1)%nat in
      let ptr := drop ptr szFilePath in
      let l := Z.of_nat (length ptr) in
      if l <? bufferSize then Some ptr
      else
        let prefixLen := to_size_t (bufferSize / 2 - 2) in
        let suffixLen := to_size_t (bufferSize - prefixLen - 4) in
        if (prefixLen <=? l) && (suffixLen <=? l)
           && (prefixLen + 3 + suffixLen <=? 256)
           && (1 <=? bufferSize) && (bufferSize <=? 256)
        then
          Some (take (Z.to_nat (bufferSize - 1))
                  (take (Z.to_nat prefixLen) ptr ++ W "..."
                   ++ drop (Z.to_nat (l - suffixLen)) ptr))
        else None
  end.

(** The directories the walker listed, in the order it listed them. *)
Fixpoint Trace_dirs (t : Trace) : list CPath :=
  match t with
  | TFile _ _ => []
  | TDir p children => p :: flat_map Trace_dirs children
  end.

(** The directories of a tree, the root first, with the paths the walker
    gives them when it starts from [path]. *)
Fixpoint tree_dirs (path : CPath) (n : Node) : list CPath :=
  match n with
  | FileNode _ _ _ => []
  | DirNode _ _ _ entries _ =>
      path
      :: flat_map (fun e =>
                     if is_dots e then []
                     else tree_dirs (AppendName path (cFileName_of e)) e)
           entries
  end.

(** One of the patterns matches the display path. *)
Definition included (PathMatchSpec : wstring -> wstring -> bool)
  (patterns : list wstring) (p : CPath) : bool :=
  existsb (fun spec => PathMatchSpec (m_path p) spec) patterns.

(** ** The canonical walk *)

(** The walk as the specification words it, for a tree, the patterns, the
    mode and the paths [keys] of the checksum table the walk verifies
    against (none outside verification): what is tried, in which order, and
    the value returned. *)
Section CanonicalWalk.
Variable PathMatchSpec : wstring -> wstring -> bool.
Variable g : Globals.
Variable bSumMode : bool.
Variable keys : gset (list Z).

(** One of the patterns matches the path. *)
Definition matches (patterns : list wstring) (szName : wstring) : Prop :=
  exists spec, spec ∈ patterns /\ PathMatchSpec szName spec = true.

(** The include/exclude filter: a file is filtered out by the include
    patterns, when there are some, as one that none of them matches;
    anything else is filtered out by the exclude patterns, as one that one
    of them matches. *)
Definition filtered_out (szName : wstring) (bIsFile : bool) : Prop :=
  if decide (bIsFile = true /\ onlySpecList g <> [])
  then ~ matches (onlySpecList g) szName
  else matches (excludeSpecList g) szName.

(** The walk verifies against a checksum table. *)
Definition verifying : bool := bSumMode && negb (bool_decide (keys = ∅)).

(** The file that holds the checksums, which the walk passes over: in sum
    mode, a file whose absolute path is, up to case, that of the file given
    to [-verify] when the walk verifies, and else that of the output file,
    when there is one. *)
Definition self_file (p : CPath) : Prop :=
  bSumMode = true
  /\ if verifying
     then _wcsicmp (m_absolutPath (g_verificationFileName g))
            (m_absolutPath p) = 0
     else m_absolutPath (g_outputFileName g) <> []
          /\ _wcsicmp (m_absolutPath (g_outputFileName g))
               (m_absolutPath p) = 0.

(** The entries of a directory that survive the enumeration: all those that
    are neither [.] nor [..] nor dropped by the follow-link filter, in the
    order found, but for one file at most, which is then the first of them
    to be the file that holds the checksums. *)
Definition survivors (dirPath : CPath) (entries es : list Node) : Prop :=
  es = List.filter (listed g) entries
  \/ exists l1 e l2,
      List.filter (listed g) entries = l1 ++ e :: l2 /\ es = l1 ++ l2
      /\ is_directory e = false
      /\ self_file (AppendName dirPath (cFileName_of e))
      /\ Forall (fun e' => is_directory e' = false ->
                           ~ self_file (AppendName dirPath (cFileName_of e')))
           l1.

(** [canonical_walk n path dwError done]: on the node [n] found at [path]
    the walk returns [dwError] after doing [done].  A file that the filter
    lets through is tried, unless the walk verifies and the table does not
    list it; a directory that the filter lets through is listed, and its
    survivors are then walked one after the other in ascending
    case-insensitive order of their names, up to the first that does not
    return 0. *)
Inductive canonical_walk : Node -> CPath -> Z -> list Trace -> Prop :=
| canonical_file_filtered name r openable path :
    filtered_out (m_path path) true ->
    canonical_walk (FileNode name r openable) path 0 []
| canonical_file_unlisted name r openable path :
    ~ filtered_out (m_path path) true ->
    verifying = true -> m_path path ∉ keys ->
    canonical_walk (FileNode name r openable) path
      (if g_bSkipError g then 0 else to_dword (-5)) []
| canonical_file name r openable path :
    ~ filtered_out (m_path path) true ->
    (verifying = true -> m_path path ∈ keys) ->
    canonical_walk (FileNode name r openable) path
      (if openable || g_bSkipError g then 0 else to_dword (-1))
      [TFile path openable]
| canonical_dir_filtered name r findFirstError entries findNextError path :
    filtered_out (m_path path) false ->
    canonical_walk (DirNode name r findFirstError entries findNextError)
      path 0 []
| canonical_dir_not_found name r dwError entries findNextError path :
    ~ filtered_out (m_path path) false ->
    canonical_walk (DirNode name r (Some dwError) entries findNextError) path
      (if g_bSkipError g then 0 else dwError) [TDir path []]
| canonical_dir_not_listed name r entries findNextError path :
    ~ filtered_out (m_path path) false ->
    findNextError <> ERROR_NO_MORE_FILES ->
    canonical_walk (DirNode name r None entries findNextError) path
      (if g_bSkipError g then 0 else findNextError) [TDir path []]
| canonical_dir name r entries path es sorted dwError children :
    ~ filtered_out (m_path path) false ->
    survivors path entries es ->
    Permutation sorted es ->
    StronglySorted nocase_le (map cFileName_of sorted) ->
    canonical_entries path sorted dwError children ->
    canonical_walk (DirNode name r None entries ERROR_NO_MORE_FILES) path
      dwError [TDir path children]
with canonical_entries : CPath -> list Node -> Z -> list Trace -> Prop :=
| canonical_end dirPath : canonical_entries dirPath [] 0 []
| canonical_stop dirPath e es dwError done :
    canonical_walk e (AppendName dirPath (cFileName_of e)) dwError done ->
    dwError <> 0 ->
    canonical_entries dirPath (e :: es) dwError done
| canonical_next dirPath e es done dwError done' :
    canonical_walk e (AppendName dirPath (cFileName_of e)) 0 done ->
    canonical_entries dirPath es dwError done' ->
    canonical_entries dirPath (e :: es) dwError (done ++ done').
End CanonicalWalk.

(** * Properties *)

(** ** [_wcsicmp] *)

Lemma wcsicmp_refl (s : wstring) : _wcsicmp s s = 0.
Proof.
  induction s as [|c s IH]; simpl; [reflexivity|].
  rewrite Z.sub_diag. exact IH.
Qed.

Lemma wcsicmp_opp (a b : wstring) : _wcsicmp a b = - _wcsicmp b a.
Proof.
  revert b. induction a as [|x a IH]; intros [|y b]; simpl; try lia.
  destruct (Z.eqb_spec (towlower x - towlower y) 0) as [E|E];
    destruct (Z.eqb_spec (towlower y - towlower x) 0) as [E'|E']; try lia.
  apply IH.
Qed.

(** The strict order is transitive on all strings. *)
Lemma wcsicmp_lt_trans (a b c : wstring) :
  _wcsicmp a b < 0 -> _wcsicmp b c < 0 -> _wcsicmp a c < 0.
Proof.
  revert b c. induction a as [|x a IH]; intros [|y b] [|z c]; simpl; try lia.
  - destruct (Z.eqb_spec (towlower y - towlower z) 0); lia.
  - destruct (Z.eqb_spec (towlower x - towlower z) 0); lia.
  - destruct (Z.eqb_spec (towlower x - towlower y) 0); lia.
  - destruct (Z.eqb_spec (towlower x - towlower y) 0);
      destruct (Z.eqb_spec (towlower y - towlower z) 0);
      destruct (Z.eqb_spec (towlower x - towlower z) 0); try lia.
    apply IH.
Qed.

(** A common prefix plays no part in the comparison. *)
Lemma wcsicmp_app (p a b : wstring) :
  _wcsicmp (p ++ a) (p ++ b) = _wcsicmp a b.
Proof.
  induction p as [|c p IH]; simpl; [reflexivity|].
  rewrite Z.sub_diag. exact IH.
Qed.

Lemma towlower_nonzero (c : Z) : c <> 0 -> towlower c <> 0.
Proof.
  unfold towlower. intros Hc.
  destruct (Z.leb_spec 65 c); destruct (Z.leb_spec c 90); simpl; lia.
Qed.

Lemma no_nul_cons (c : Z) (s : wstring) :
  no_nul (c :: s) = true <-> c <> 0 /\ no_nul s = true.
Proof.
  unfold no_nul. simpl. rewrite andb_true_iff, negb_true_iff, Z.eqb_neq.
  reflexivity.
Qed.

(** The first code unit of a C string is not the terminator, nor is its
    lower-case form. *)
Ltac no_nul_heads :=
  repeat match goal with
         | H : no_nul (_ :: _) = true |- _ =>
             apply no_nul_cons in H;
             let Hc := fresh "Hc" in
             destruct H as [Hc H]; apply towlower_nonzero in Hc
         end.

(** On C strings the non-strict order is transitive as well. *)
Lemma nocase_le_trans (a b c : wstring) :
  no_nul a = true -> no_nul b = true -> no_nul c = true ->
  nocase_le a b -> nocase_le b c -> nocase_le a c.
Proof.
  unfold nocase_le. revert b c.
  induction a as [|x a IH]; intros [|y b] [|z c] Ha Hb Hc;
    no_nul_heads; simpl; try lia.
  - destruct (Z.eqb_spec (towlower y - towlower z) 0); lia.
  - destruct (Z.eqb_spec (towlower x - towlower z) 0); lia.
  - destruct (Z.eqb_spec (towlower x - towlower y) 0); lia.
  - destruct (Z.eqb_spec (towlower x - towlower y) 0);
      destruct (Z.eqb_spec (towlower y - towlower z) 0);
      destruct (Z.eqb_spec (towlower x - towlower z) 0); try lia.
    apply IH; assumption.
Qed.

(** ** The hexadecimal codec *)

Lemma FromHex_char_ToHex_char (lower : bool) (b : Z) :
  0 <= b <= 15 -> FromHex_char (ToHex_char lower b) = Some b.
Proof.
  intros Hb.
  assert (b = 0 \/ b = 1 \/ b = 2 \/ b = 3 \/ b = 4 \/ b = 5 \/ b = 6 \/ b = 7
          \/ b = 8 \/ b = 9 \/ b = 10 \/ b = 11 \/ b = 12 \/ b = 13 \/ b = 14
          \/ b = 15) as Hcases by lia.
  destruct lower;
    repeat (destruct Hcases as [-> | Hcases]; [reflexivity|]);
    subst b; reflexivity.
Qed.

Lemma high_nibble (b : Z) : is_byte b -> to_uchar (Z.shiftr b 4) = b / 16.
Proof.
  unfold is_byte, to_uchar. intros Hb.
  rewrite Z.shiftr_div_pow2 by lia. change (2 ^ 4) with 16.
  apply Z.mod_small. split.
  - apply Z.div_pos; lia.
  - apply Z.div_lt_upper_bound; lia.
Qed.

Lemma low_nibble (b : Z) : is_byte b -> to_uchar (Z.land b 15) = b mod 16.
Proof.
  unfold is_byte, to_uchar. intros Hb.
  change 15 with (Z.ones 4). rewrite Z.land_ones by lia. change (2 ^ 4) with 16.
  apply Z.mod_small. pose proof (Z.mod_pos_bound b 16). lia.
Qed.

Lemma nibbles_byte (b : Z) :
  is_byte b -> to_uchar (b / 16 * 16 + b mod 16) = b.
Proof.
  unfold is_byte, to_uchar. intros Hb.
  rewrite Z.mul_comm, <- Z.div_mod by lia. apply Z.mod_small. lia.
Qed.

Lemma ToHex_length (lower : bool) (data : ByteArray) :
  length (ToHex lower data) = (2 * length data)%nat.
Proof. induction data as [|b data IH]; simpl; [reflexivity|]. rewrite IH. lia. Qed.

Lemma FromHex_loop_ToHex (lower : bool) (data buffer : ByteArray) :
  Forall is_byte data ->
  FromHex_loop (length data) (ToHex lower data) buffer = Some (buffer ++ data).
Proof.
  intros Hdata. revert buffer.
  induction Hdata as [|b data Hb Hdata IH]; intros buffer; simpl.
  - rewrite app_nil_r. reflexivity.
  - rewrite (high_nibble b Hb), (low_nibble b Hb).
    assert (0 <= b / 16 <= 15) as Hhi.
    { unfold is_byte in Hb. split.
      - apply Z.div_pos; lia.
      - apply Z.lt_succ_r. apply Z.div_lt_upper_bound; lia. }
    assert (0 <= b mod 16 <= 15) as Hlo.
    { pose proof (Z.mod_pos_bound b 16). lia. }
    rewrite !FromHex_char_ToHex_char by assumption.
    rewrite (nibbles_byte b Hb), IH, <- app_assoc. reflexivity.
Qed.

Lemma FromHex_char_None (c : Z) :
  is_hex_digit c = false -> FromHex_char c = None.
Proof.
  unfold is_hex_digit, FromHex_char. intros Hc.
  apply orb_false_iff in Hc as [Hc H3]. apply orb_false_iff in Hc as [H1 H2].
  rewrite H1, H2, H3. reflexivity.
Qed.

Lemma FromHex_loop_bad (n : nat) (szHex : wstring) (buffer : ByteArray) :
  length szHex = (2 * n)%nat ->
  Exists (fun c => is_hex_digit c = false) szHex ->
  FromHex_loop n szHex buffer = None.
Proof.
  revert szHex buffer. induction n as [|n IH]; intros szHex buffer Hlen Hbad.
  - destruct szHex; [inversion Hbad | discriminate].
  - destruct szHex as [|c1 [|c2 rest]]; simpl in *; try reflexivity.
    destruct (FromHex_char c1) as [b1|] eqn:E1; [|reflexivity].
    destruct (FromHex_char c2) as [b2|] eqn:E2; [|reflexivity].
    apply IH; [lia|].
    inversion Hbad as [? ? H1|? ? Hbad']; subst.
    { rewrite (FromHex_char_None _ H1) in E1. discriminate. }
    inversion Hbad' as [? ? H2|? ? Hbad'']; subst.
    { rewrite (FromHex_char_None _ H2) in E2. discriminate. }
    assumption.
Qed.

(** C10.  Decoding what [ToHex] writes for a byte array gives the array
    back, whatever the case of the digits; and [FromHex] fails, leaving the
    buffer empty, on every string of odd length and on every string with a
    character outside [0-9a-fA-F]. *)
Theorem FromHex_ToHex_roundtrip :
  (forall (g_bLowerCase : bool) (data : ByteArray),
      Forall is_byte data ->
      FromHex (ToHex g_bLowerCase data) = (true, data))
  /\ (forall szHex : wstring,
        Nat.odd (length szHex) = true
        \/ Exists (fun c => is_hex_digit c = false) szHex ->
        FromHex szHex = (false, [])).
Proof.
  split.
  - intros lower data Hdata. unfold FromHex.
    rewrite ToHex_length.
    replace ((2 * length data) mod 2 =? 0)%nat with true.
    2:{ symmetry. apply Nat.eqb_eq. rewrite Nat.mul_comm. apply Nat.Div0.mod_mul. }
    replace (2 * length data / 2)%nat with (length data).
    2:{ rewrite Nat.mul_comm, Nat.div_mul; lia. }
    rewrite FromHex_loop_ToHex by assumption. reflexivity.
  - intros szHex Hbad. unfold FromHex.
    destruct (Nat.eqb_spec (length szHex mod 2) 0) as [Heven|Hodd];
      [|reflexivity].
    destruct Hbad as [Hodd|Hbad].
    + rewrite <- Nat.negb_even, negb_true_iff in Hodd.
      apply Nat.Div0.mod_divides in Heven as [k Hk].
      rewrite Hk, Nat.even_mul in Hodd. discriminate.
    + rewrite FromHex_loop_bad; [reflexivity| |assumption].
      pose proof (Nat.div_mod_eq (length szHex) 2). lia.
Qed.

Lemma FromHex_ToHex_roundtrip_witness :
  FromHex (ToHex true [0; 171; 255]) = (true, [0; 171; 255])
  /\ FromHex (W "0aF") = (false, [])
  /\ FromHex (W "0g") = (false, []).
Proof.
  split; [|split].
  - apply (proj1 FromHex_ToHex_roundtrip).
    repeat constructor; unfold is_byte; lia.
  - apply (proj2 FromHex_ToHex_roundtrip). left. reflexivity.
  - apply (proj2 FromHex_ToHex_roundtrip). right.
    apply Exists_cons_tl, Exists_cons_hd. reflexivity.
Defined.

(** ** The order of [SortSumFile] *)

Lemma SortSumFile_less_irrefl (p : wstring) : SortSumFile_less p p = false.
Proof.
  unfold SortSumFile_less. rewrite Z.eqb_refl. simpl.
  rewrite wcsicmp_refl. reflexivity.
Qed.

Lemma SortSumFile_less_asym (p1 p2 : wstring) :
  SortSumFile_less p1 p2 = true -> SortSumFile_less p2 p1 = false.
Proof.
  unfold SortSumFile_less.
  rewrite (wcsicmp_opp p2 p1).
  destruct (Z.eqb_spec (countPathDepth p1) (countPathDepth p2));
    destruct (Z.eqb_spec (countPathDepth p2) (countPathDepth p1));
    simpl; rewrite ?Z.gtb_lt, ?Z.ltb_lt, ?Z.ltb_ge, ?Z.gtb_ltb, ?Z.ltb_ge;
    lia.
Qed.

Lemma SortSumFile_less_trans (p1 p2 p3 : wstring) :
  SortSumFile_less p1 p2 = true -> SortSumFile_less p2 p3 = true ->
  SortSumFile_less p1 p3 = true.
Proof.
  unfold SortSumFile_less.
  destruct (Z.eqb_spec (countPathDepth p1) (countPathDepth p2));
    destruct (Z.eqb_spec (countPathDepth p2) (countPathDepth p3));
    destruct (Z.eqb_spec (countPathDepth p1) (countPathDepth p3));
    simpl; rewrite ?Z.gtb_lt, ?Z.ltb_lt; try lia.
  apply wcsicmp_lt_trans.
Qed.

Lemma SortSumFile_less_total (p1 p2 : wstring) :
  _wcsicmp p1 p2 <> 0 ->
  SortSumFile_less p1 p2 = true \/ SortSumFile_less p2 p1 = true.
Proof.
  unfold SortSumFile_less. rewrite (wcsicmp_opp p2 p1). intros Hne.
  destruct (Z.eqb_spec (countPathDepth p1) (countPathDepth p2));
    destruct (Z.eqb_spec (countPathDepth p2) (countPathDepth p1));
    simpl; rewrite ?Z.gtb_lt, ?Z.ltb_lt; lia.
Qed.

(** C3, as the code has it.  The order of [SortSumFile] (more separators
    first, then [_wcsicmp]) is a strict order, and of two paths that
    [_wcsicmp] tells apart exactly one precedes the other. *)
Theorem SortSumFile_less_strict_total_up_to_case :
  (forall p : wstring, SortSumFile_less p p = false)
  /\ (forall p1 p2 p3 : wstring,
        SortSumFile_less p1 p2 = true -> SortSumFile_less p2 p3 = true ->
        SortSumFile_less p1 p3 = true)
  /\ (forall p1 p2 : wstring,
        _wcsicmp p1 p2 <> 0 ->
        xorb (SortSumFile_less p1 p2) (SortSumFile_less p2 p1) = true).
Proof.
  split; [exact SortSumFile_less_irrefl|].
  split; [exact SortSumFile_less_trans|].
  intros p1 p2 Hne.
  destruct (SortSumFile_less_total p1 p2 Hne) as [H12|H21].
  - rewrite H12, (SortSumFile_less_asym _ _ H12). reflexivity.
  - rewrite H21, (SortSumFile_less_asym _ _ H21). reflexivity.
Qed.

Lemma SortSumFile_less_strict_total_up_to_case_witness :
  SortSumFile_less (W "dir1\c.txt") (W "a.txt") = true
  /\ SortSumFile_less (W "a.txt") (W "b.txt") = true
  /\ SortSumFile_less (W "dir1\c.txt") (W "b.txt") = true
  /\ _wcsicmp (W "a.txt") (W "B.TXT") <> 0
  /\ xorb (SortSumFile_less (W "a.txt") (W "B.TXT"))
       (SortSumFile_less (W "B.TXT") (W "a.txt")) = true.
Proof.
  pose proof SortSumFile_less_strict_total_up_to_case as [_ [Htrans Htotal]].
  assert (SortSumFile_less (W "dir1\c.txt") (W "a.txt") = true) as H1
    by reflexivity.
  assert (SortSumFile_less (W "a.txt") (W "b.txt") = true) as H2
    by reflexivity.
  assert (_wcsicmp (W "a.txt") (W "B.TXT") <> 0) as H3
    by (vm_compute; discriminate).
  split; [exact H1|]. split; [exact H2|].
  split; [exact (Htrans _ _ _ H1 H2)|].
  split; [exact H3|exact (Htotal _ _ H3)].
Defined.

(** C3, as the specification states it, fails: a manifest can hold two
    distinct paths that differ only in the case of a letter, and neither
    precedes the other. *)
Lemma SortSumFile_less_not_total :
  let digest := ToHex false [1; 2; 3; 4; 5; 6; 7; 8; 9; 10; 11; 12; 13; 14; 15; 16] in
  let manifest :=
    snd (fst (ParseSumFile [] false
                (Some [digest ++ W "  a.txt" ++ [newline];
                       digest ++ W "  A.txt" ++ [newline]]) ∅ [])) in
  is_Some (manifest !! W "a.txt") /\ is_Some (manifest !! W "A.txt")
  /\ W "a.txt" <> W "A.txt"
  /\ SortSumFile_less (W "a.txt") (W "A.txt") = false
  /\ SortSumFile_less (W "A.txt") (W "a.txt") = false.
Proof.
  repeat split; try (vm_compute; eauto; fail); try reflexivity.
  vm_compute. discriminate.
Qed.

(** ** The name filter *)

Section FilterProperties.
Variable PathMatchSpec : wstring -> wstring -> bool.

Lemma existsb_elem_of (f : wstring -> bool) (l : list wstring) :
  existsb f l = true <-> exists spec, spec ∈ l /\ f spec = true.
Proof.
  rewrite existsb_exists. split; intros [spec [Hin Hf]]; exists spec;
    (split; [apply list_elem_of_In; assumption | assumption]).
Qed.

(** The exclude patterns are the only ones a directory name is matched
    against. *)
Lemma IsExcludedName_directory (g : Globals) (szName : wstring) :
  IsExcludedName PathMatchSpec g szName false
  = existsb (fun spec => PathMatchSpec szName spec) (excludeSpecList g).
Proof. reflexivity. Qed.

(** With no include pattern, a file name is matched against the exclude
    patterns, like a directory name. *)
Lemma IsExcludedName_file_no_only (g : Globals) (szName : wstring) :
  onlySpecList g = [] ->
  IsExcludedName PathMatchSpec g szName true
  = existsb (fun spec => PathMatchSpec szName spec) (excludeSpecList g).
Proof. unfold IsExcludedName. intros ->. reflexivity. Qed.

(** A directory that the filter lets through is listed. *)
Lemma HashDirectory_body_listed (g : Globals) (bSumMode : bool)
  (dirPath : CPath) (findFirstError : option Z)
  (found : list (Node * (CPath -> WalkState -> Z * list Trace * WalkState)))
  (findNextError : Z) (st : WalkState) :
  IsExcludedName PathMatchSpec g (m_path dirPath) false = false ->
  exists dwError children st',
    HashDirectory_body PathMatchSpec g bSumMode dirPath findFirstError found
      findNextError st = (dwError, [TDir dirPath children], st').
Proof.
  intros Hkeep. unfold HashDirectory_body. rewrite Hkeep.
  destruct findFirstError as [dwError|].
  { destruct (g_bSkipError g); eauto. }
  destruct (enumerate _ _ _ _ _ _) as [dirContent skipped].
  destruct (negb (findNextError =? ERROR_NO_MORE_FILES)).
  { destruct (g_bSkipError g); eauto. }
  destruct (HashDirectory_for _ _) as [[dwError done] st']. eauto.
Qed.

End FilterProperties.

(** ** [Clone] *)

Section CloneProperties.
Context `{Primitives}.

Lemma GetHash_class_GetID (USE_STREEBOG : bool) (c : HashClass) :
  USE_STREEBOG = true \/ c <> Streebog ->
  GetHash_class USE_STREEBOG (GetID c) = Some c.
Proof.
  intros [-> | Hc]; destruct c; try reflexivity; try congruence.
  all: destruct USE_STREEBOG; reflexivity.
Qed.

(** [Clone] returns what the constructor of the class of the source
    returns. *)
Lemma Clone_new (USE_STREEBOG : bool) (h : Hash) :
  USE_STREEBOG = true \/ hash_class h <> Streebog ->
  Clone USE_STREEBOG h = Some (Hash_new (hash_class h)).
Proof.
  intros Hflag. unfold Clone, GetHash.
  rewrite (GetHash_class_GetID _ _ Hflag). reflexivity.
Qed.

(** C2, as the code has it.  [Clone] builds a new engine of the class of
    the source, just initialised: what the source has absorbed plays no
    part.  Finalising the clone after feeding it [B] gives what a new engine
    gives for [B]; this is what the source gives when the source is itself
    just initialised. *)
Theorem Clone_is_a_new_engine (USE_STREEBOG : bool) (h : Hash)
  (B : ByteArray) :
  USE_STREEBOG = true \/ hash_class h <> Streebog ->
  exists clone : Hash,
    Clone USE_STREEBOG h = Some clone
    /\ hash_class clone = hash_class h
    /\ m_ctx clone = prim_init (hash_class h)
    /\ Final (Update clone B)
       = (fun ctx => prim_final (hash_class h)
                       (prim_update (hash_class h) ctx B))
           <$> prim_init (hash_class h)
    /\ (m_ctx h = prim_init (hash_class h) ->
        Final (Update clone B) = Final (Update h B)).
Proof.
  intros Hflag. exists (Hash_new (hash_class h)).
  split; [exact (Clone_new _ _ Hflag)|].
  split; [reflexivity|]. split; [reflexivity|]. split.
  - unfold Final, Update, Hash_new. simpl.
    destruct (prim_init (hash_class h)); reflexivity.
  - intros Hfresh. unfold Final, Update, Hash_new. simpl. rewrite Hfresh.
    reflexivity.
Qed.

(** [CloneHashes] on an empty output vector. *)
Lemma CloneHashes_new (USE_STREEBOG : bool) (pHashes : list Hash) :
  USE_STREEBOG = true ->
  CloneHashes USE_STREEBOG pHashes []
  = map (fun h => Some (Hash_new (hash_class h))) pHashes.
Proof.
  intros ->. unfold CloneHashes. simpl. apply map_ext. intros h.
  apply Clone_new. left. reflexivity.
Qed.
End CloneProperties.

Lemma Clone_is_a_new_engine_witness :
  let source := @Update transcript (@Hash_new transcript Sha256Cng) [1; 2; 3] in
  exists clone : @Hash transcript,
    @Clone transcript true source = Some clone
    /\ @Final transcript (@Update transcript clone [4]) = Some [4].
Proof.
  intros source.
  destruct (@Clone_is_a_new_engine transcript true source [4])
    as [clone [Hclone [_ [_ [Hfinal _]]]]].
  - left. reflexivity.
  - exists clone. split; [exact Hclone|exact Hfinal].
Defined.

(** C2, as the specification states it, fails: an engine that has absorbed
    three bytes and its clone are not in the same state, and they give
    different digests once both are fed the same byte. *)
Lemma Clone_forgets_absorbed_bytes :
  let source := @Update transcript (@Hash_new transcript Sha256Cng) [1; 2; 3] in
  exists clone : @Hash transcript,
    @Clone transcript true source = Some clone
    /\ clone <> source
    /\ @Final transcript (@Update transcript clone [4]) = Some [4]
    /\ @Final transcript (@Update transcript source [4]) = Some [1; 2; 3; 4].
Proof.
  intros source. exists (@Hash_new transcript Sha256Cng).
  repeat split. discriminate.
Qed.

(** ** Comma-separated identifiers *)

Lemma span_until_le (c : Z) (t : wstring) : (span_until c t <= length t)%nat.
Proof.
  induction t as [|x t IH]; simpl; [lia|].
  destruct (x =? c); simpl; lia.
Qed.

(** The first segment and the rest, by the position of the first comma. *)
Lemma split_commas_span (t : wstring) :
  let k := span_until comma t in
  (k = length t -> split_commas t = [t])
  /\ ((k < length t)%nat ->
      split_commas t = take k t :: split_commas (drop (S k) t)).
Proof.
  induction t as [|x t IH]; simpl.
  - split; [reflexivity | lia].
  - destruct (x =? comma); simpl.
    + split; [discriminate | reflexivity].
    + destruct IH as [IHend IHmid]. split; intros Hk.
      * rewrite IHend by lia. reflexivity.
      * rewrite IHmid by lia. reflexivity.
Qed.

Lemma find_first_of_span (s : wstring) (pos : nat) :
  (pos <= length s)%nat ->
  match find_first_of s comma pos with
  | Some p => p
  | None => length s
  end = (pos + span_until comma (drop pos s))%nat.
Proof.
  intros Hpos. unfold find_first_of.
  pose proof (span_until_le comma (drop pos s)) as Hk.
  rewrite length_drop in Hk.
  destruct (Nat.ltb_spec (pos + span_until comma (drop pos s)) (length s));
    lia.
Qed.

Section HashIdCombinationProperties.
Context `{Primitives}.
Variable USE_STREEBOG : bool.

(** The loop of [GetHashes], from a position inside the string: every
    segment from there on must be an identifier, and the engines of those
    segments are appended in order. *)
Lemma GetHashes_loop_spec (s : wstring) (n pos : nat) (res : list Hash) :
  (length s - pos <= n)%nat -> (pos < length s)%nat ->
  GetHashes_loop USE_STREEBOG s pos res
  = if forallb IsHashId (split_commas (drop pos s))
    then res ++ omap (GetHash USE_STREEBOG) (split_commas (drop pos s))
    else [].
Proof.
  revert pos res. induction n as [|n IH]; intros pos res Hn Hpos; [lia|].
  rewrite GetHashes_loop_equation_1. cbv zeta.
  destruct (lt_eq_lt_dec pos (length s)) as [[Hlt|Heq]|Hgt]; try lia.
  rewrite find_first_of_span by lia.
  set (t := drop pos s). set (k := span_until comma t).
  assert (length t = (length s - pos)%nat) as Hlen
    by (unfold t; apply length_drop).
  pose proof (span_until_le comma t) as Hk. fold k in Hk.
  replace (pos + k - pos)%nat with k by lia.
  unfold substr. fold t.
  destruct (split_commas_span t) as [Hend Hmid]. fold k in Hend, Hmid.
  destruct (Nat.eq_dec (pos + k)%nat (length s)) as [Hlast|Hmore].
  - rewrite Hend by lia. rewrite take_ge by lia. simpl.
    rewrite andb_true_r.
    destruct (IsHashId t); [|reflexivity].
    destruct (GetHash USE_STREEBOG t); [reflexivity|].
    rewrite app_nil_r. reflexivity.
  - rewrite Hmid by lia. simpl.
    destruct (IsHashId (take k t)); [|reflexivity]. simpl.
    assert (drop (S k) t = drop (pos + k + 1)%nat s) as Hrest.
    { unfold t. rewrite drop_drop. f_equal. lia. }
    destruct (Nat.eq_dec (pos + k + 1)%nat (length s)) as [Htrail|Hnext].
    + rewrite Hrest, drop_ge by lia. reflexivity.
    + rewrite IH by lia. rewrite Hrest.
      destruct (forallb IsHashId (split_commas (drop (pos + k + 1)%nat s)));
        [|reflexivity].
      destruct (GetHash USE_STREEBOG (take k t)); simpl;
        [rewrite <- app_assoc|]; reflexivity.
Qed.

(** [GetHashes] in terms of the segments of the string. *)
Lemma GetHashes_spec (szHashId : wstring) :
  GetHashes USE_STREEBOG szHashId
  = if forallb IsHashId (split_commas szHashId)
    then omap (GetHash USE_STREEBOG) (split_commas szHashId)
    else [].
Proof.
  unfold GetHashes. destruct szHashId as [|c s].
  - rewrite GetHashes_loop_equation_1. reflexivity.
  - rewrite (GetHashes_loop_spec (c :: s) (length (c :: s)) 0 []);
      simpl; [reflexivity | lia | lia].
Qed.
End HashIdCombinationProperties.

(** The loop of [IsHashIdCombination] agrees with the test of the
    segments. *)
Lemma IsHashIdCombination_loop_spec (s : wstring) (n pos : nat) :
  (length s - pos <= n)%nat -> (pos < length s)%nat ->
  IsHashIdCombination_loop s pos
  = forallb IsHashId (split_commas (drop pos s)).
Proof.
  revert pos. induction n as [|n IH]; intros pos Hn Hpos; [lia|].
  rewrite IsHashIdCombination_loop_equation_1. cbv zeta.
  destruct (lt_eq_lt_dec pos (length s)) as [[Hlt|Heq]|Hgt]; try lia.
  rewrite find_first_of_span by lia.
  set (t := drop pos s). set (k := span_until comma t).
  assert (length t = (length s - pos)%nat) as Hlen
    by (unfold t; apply length_drop).
  pose proof (span_until_le comma t) as Hk. fold k in Hk.
  replace (pos + k - pos)%nat with k by lia.
  unfold substr. fold t.
  destruct (split_commas_span t) as [Hend Hmid]. fold k in Hend, Hmid.
  destruct (Nat.eq_dec (pos + k)%nat (length s)) as [Hlast|Hmore].
  - rewrite Hend by lia. rewrite take_ge by lia. simpl.
    rewrite andb_true_r. destruct (IsHashId t); reflexivity.
  - rewrite Hmid by lia. simpl.
    destruct (IsHashId (take k t)); [|reflexivity]. simpl.
    assert (drop (S k) t = drop (pos + k + 1)%nat s) as Hrest.
    { unfold t. rewrite drop_drop. f_equal. lia. }
    destruct (Nat.eq_dec (pos + k + 1)%nat (length s)) as [Htrail|Hnext].
    + rewrite Hrest, drop_ge by lia. reflexivity.
    + rewrite IH by lia. rewrite Hrest. reflexivity.
Qed.

(** [IsHashIdCombination] accepts the empty string and otherwise the
    strings whose segments are all identifiers. *)
Lemma IsHashIdCombination_spec (szHashId : wstring) :
  IsHashIdCombination szHashId
  = bool_decide (szHashId = [])
    || forallb IsHashId (split_commas szHashId).
Proof.
  unfold IsHashIdCombination. destruct szHashId as [|c s].
  - rewrite IsHashIdCombination_loop_equation_1. reflexivity.
  - rewrite (IsHashIdCombination_loop_spec (c :: s) (length (c :: s)) 0);
      simpl; [reflexivity | lia | lia].
Qed.

Lemma forallb_Forall_true {A : Type} (f : A -> bool) (l : list A) :
  forallb f l = true <-> Forall (fun x => f x = true) l.
Proof.
  induction l as [|x l IH]; simpl.
  - split; constructor.
  - rewrite andb_true_iff, IH. split.
    + intros [Hx Hl]. constructor; assumption.
    + intros Hall. inversion Hall; subst. split; assumption.
Qed.

Lemma split_commas_not_nil (s : wstring) : split_commas s <> [].
Proof.
  destruct s as [|c s]; simpl; [discriminate|].
  destruct (c =? comma); [discriminate|].
  destruct (split_commas s); discriminate.
Qed.

Lemma IsHashId_nil : IsHashId [] = false.
Proof. reflexivity. Qed.

(** When Streebog is compiled in, [GetHash] knows every identifier that
    [IsHashId] accepts. *)
Lemma IsHashId_GetHash_class (szHashId : wstring) :
  IsHashId szHashId = true -> is_Some (GetHash_class true szHashId).
Proof.
  unfold IsHashId, GetHash_class. intros Hid.
  repeat match goal with
         | |- context [_wcsicmp szHashId ?id =? 0] =>
             destruct (_wcsicmp szHashId id =? 0) eqn:?; simpl in *
         end; eauto; discriminate.
Qed.

(** In every build [GetHash] knows every identifier that [IsHashId]
    accepts, but for [Streebog] where it is not compiled in. *)
Lemma IsHashId_GetHash_class_but_Streebog (USE_STREEBOG : bool)
  (szHashId : wstring) :
  USE_STREEBOG = true \/ _wcsicmp szHashId (W "Streebog") <> 0 ->
  IsHashId szHashId = true -> is_Some (GetHash_class USE_STREEBOG szHashId).
Proof.
  unfold IsHashId, GetHash_class. intros Hbuild Hid.
  repeat match goal with
         | |- context [_wcsicmp szHashId ?id =? 0] =>
             destruct (Z.eqb_spec (_wcsicmp szHashId id) 0); simpl in *
         end; eauto; try discriminate.
  all: destruct Hbuild as [->|Hne]; simpl; eauto; contradiction.
Qed.

Section GetHashesProperties.
Context `{Primitives}.

Lemma GetHash_of_IsHashId (seg : wstring) :
  IsHashId seg = true -> exists hash, GetHash true seg = Some hash.
Proof.
  intros Hid. destruct (IsHashId_GetHash_class seg Hid) as [c Hc].
  exists (Hash_new c). unfold GetHash. rewrite Hc. reflexivity.
Qed.

Lemma omap_GetHash_Forall2 (segments : list (list Z)) :
  Forall (fun seg => IsHashId seg = true) segments ->
  Forall2 (fun hash seg => GetHash true seg = Some hash)
    (omap (GetHash true) segments) segments.
Proof.
  induction 1 as [|seg segments Hid _ IH]; simpl; [constructor|].
  destruct (GetHash_of_IsHashId seg Hid) as [hash Hhash]. rewrite Hhash.
  constructor; assumption.
Qed.

(** In a build without Streebog, [GetHash] still knows every identifier
    that [IsHashId] accepts but [Streebog]. *)
Lemma omap_GetHash_Forall2_but_Streebog (USE_STREEBOG : bool)
  (segments : list (list Z)) :
  USE_STREEBOG = true
  \/ Forall (fun seg => _wcsicmp seg (W "Streebog") <> 0) segments ->
  Forall (fun seg => IsHashId seg = true) segments ->
  Forall2 (fun hash seg => GetHash USE_STREEBOG seg = Some hash)
    (omap (GetHash USE_STREEBOG) segments) segments.
Proof.
  intros Hbuild. induction 1 as [|seg segments Hid _ IH]; simpl;
    [constructor|].
  assert (USE_STREEBOG = true \/ _wcsicmp seg (W "Streebog") <> 0) as Hseg.
  { destruct Hbuild as [Hb|Hb]; [left; exact Hb|right].
    inversion Hb; assumption. }
  destruct (IsHashId_GetHash_class_but_Streebog USE_STREEBOG seg Hseg Hid)
    as [c Hc].
  assert (GetHash USE_STREEBOG seg = Some (Hash_new c)) as Hhash
    by (unfold GetHash; rewrite Hc; reflexivity).
  rewrite Hhash. constructor; [exact Hhash|].
  apply IH. destruct Hbuild as [Hb|Hb]; [left; exact Hb|right].
    inversion Hb; assumption.
Qed.

(** C6, as the code has it.  In every build [GetHashes] returns engines (a
    non-empty vector) only if every segment between commas is a non-empty
    known identifier.
    In a build that has [USE_STREEBOG] defined, and in any build for a
    string of which no segment is [Streebog] up to case, it returns engines
    whenever every segment is a non-empty known identifier, and then one
    engine for each segment, in the order of the segments, each the one
    [GetHash] builds for the segment as it stands. *)
Theorem GetHashes_all_segments_known (USE_STREEBOG : bool)
  (szHashId : wstring) :
  let segments := split_commas szHashId in
  (GetHashes USE_STREEBOG szHashId <> [] ->
   Forall (fun seg => seg <> [] /\ IsHashId seg = true) segments)
  /\ (USE_STREEBOG = true
      \/ Forall (fun seg => _wcsicmp seg (W "Streebog") <> 0) segments ->
      (Forall (fun seg => seg <> [] /\ IsHashId seg = true) segments ->
       GetHashes USE_STREEBOG szHashId <> [])
      /\ (Forall (fun seg => IsHashId seg = true) segments ->
          Forall2 (fun hash seg => GetHash USE_STREEBOG seg = Some hash)
            (GetHashes USE_STREEBOG szHashId) segments)).
Proof.
  intros segments. rewrite GetHashes_spec. fold segments.
  destruct (forallb IsHashId segments) eqn:Hall.
  - apply forallb_Forall_true in Hall. split.
    + intros _. eapply Forall_impl; [exact Hall|]. simpl. intros seg Hid.
      split; [|exact Hid]. intros ->. discriminate.
    + intros Hbuild.
      pose proof (omap_GetHash_Forall2_but_Streebog USE_STREEBOG segments
                    Hbuild Hall) as Hengines.
      split; [|intros _; exact Hengines].
      intros _ Hnil. rewrite Hnil in Hengines.
      apply Forall2_length in Hengines. simpl in Hengines.
      apply (split_commas_not_nil szHashId). fold segments.
      destruct segments; [reflexivity|discriminate].
  - assert (~ Forall (fun seg => IsHashId seg = true) segments) as Hnot.
    { intros Hids. apply forallb_Forall_true in Hids. congruence. }
    split; [intros Hne; contradiction|].
    intros _. split; [|intros Hids; contradiction].
    intros Hids. exfalso. apply Hnot.
    eapply Forall_impl; [exact Hids|]. simpl. intros seg [_ Hid]. exact Hid.
Qed.
End GetHashesProperties.

Lemma GetHashes_all_segments_known_witness :
  (Forall (fun seg => IsHashId seg = true) (split_commas (W "SHA1,md5,Blake3"))
   /\ Forall2 (fun hash seg => @GetHash transcript false seg = Some hash)
        (@GetHashes transcript false (W "SHA1,md5,Blake3"))
        (split_commas (W "SHA1,md5,Blake3")))
  /\ Forall2 (fun hash seg => @GetHash transcript true seg = Some hash)
       (@GetHashes transcript true (W "Streebog,MD5"))
       (split_commas (W "Streebog,MD5")).
Proof.
  assert (Forall (fun seg => IsHashId seg = true)
            (split_commas (W "SHA1,md5,Blake3"))) as Hids
    by (repeat constructor).
  assert (Forall (fun seg => _wcsicmp seg (W "Streebog") <> 0)
            (split_commas (W "SHA1,md5,Blake3"))) as Hnone
    by (repeat constructor; discriminate).
  assert (Forall (fun seg => IsHashId seg = true)
            (split_commas (W "Streebog,MD5"))) as Hids'
    by (repeat constructor).
  split; [split; [exact Hids|]|].
  - exact (proj2 (proj2 (@GetHashes_all_segments_known transcript false
                           (W "SHA1,md5,Blake3")) (or_intror Hnone)) Hids).
  - exact (proj2 (proj2 (@GetHashes_all_segments_known transcript true
                           (W "Streebog,MD5")) (or_introl eq_refl)) Hids').
Defined.

(** C6, as the specification states it, fails: without [USE_STREEBOG] the
    identifier [Streebog] is still one that [IsHashId] knows, but no engine
    is built for it.  Alone it makes [GetHashes] return nothing, and next to
    [MD5] it is left out, one engine for two identifiers. *)
Lemma GetHashes_Streebog_left_out :
  Forall (fun seg => seg <> [] /\ IsHashId seg = true)
    (split_commas (W "Streebog"))
  /\ @GetHashes transcript false (W "Streebog") = []
  /\ Forall (fun seg => seg <> [] /\ IsHashId seg = true)
       (split_commas (W "Streebog,MD5"))
  /\ map hash_class (@GetHashes transcript false (W "Streebog,MD5"))
     = [Md5Cng].
Proof.
  split; [repeat constructor; discriminate|].
  split; [reflexivity|].
  split; [repeat constructor; discriminate|reflexivity].
Qed.

(** A trailing comma, an empty segment, an unknown identifier and a blank
    that is not trimmed each make [GetHashes] return nothing; the empty
    string does too. *)
Example GetHashes_rejects :
  @GetHashes transcript true (W "SHA1,") = []
  /\ @GetHashes transcript true (W "SHA1,,MD5") = []
  /\ @GetHashes transcript true (W ",MD5") = []
  /\ @GetHashes transcript true (W "SHA1,SHA3") = []
  /\ @GetHashes transcript true (W "SHA1, MD5") = []
  /\ @GetHashes transcript true (W "") = [].
Proof. repeat split. Qed.

(** Without [USE_STREEBOG] the identifier [Streebog] is still accepted by
    [IsHashId], and [GetHashes] leaves it out without failing. *)
Example GetHashes_without_Streebog :
  map hash_class (@GetHashes transcript false (W "Streebog,MD5")) = [Md5Cng].
Proof. reflexivity. Qed.

(** ** The checksum-file parser *)

Section SumFileProperties.
Variable g_inputDirPath : wstring.
Variable normalizePath : bool.

Lemma IsHashSize_nonzero (n : nat) :
  IsHashSize (Z.of_nat n) = true -> n <> O.
Proof. intros Hsize ->. discriminate. Qed.

(** An accepted line has the digest length that is required, and one of
    the five known lengths when none is required yet. *)
Lemma ParseSumFile_line_length (digestLen : nat) (szLine entryName : wstring)
  (digest : ByteArray) :
  ParseSumFile_line g_inputDirPath normalizePath digestLen szLine
  = Some (entryName, digest) ->
  (digestLen <> O -> length digest = digestLen)
  /\ IsHashSize (Z.of_nat (length digest)) = true \/ digestLen <> O
     /\ length digest = digestLen.
Proof.
  unfold ParseSumFile_line.
  destruct (wcschr szLine space) as [at_space|]; [|discriminate].
  cbv zeta.
  destruct (not_at_last _); [|discriminate].
  destruct (FromHex _) as [[|] d]; [|discriminate].
  destruct (Nat.eqb_spec digestLen 0) as [Hz|Hnz]; simpl.
  - destruct (IsHashSize (Z.of_nat (length d))) eqn:Hsize; [|discriminate].
    intros [= _ <-]. left. split; [lia|exact Hsize].
  - rewrite orb_false_r.
    destruct (Nat.eqb_spec digestLen (length d)) as [Heq|Hne]; [|discriminate].
    intros [= _ <-]. right. split; [exact Hnz|congruence].
Qed.

(** Once a digest length is required, every accepted line has it. *)
Lemma classify_fixed_length (digestLen : nat) (lines : list (list Z)) :
  digestLen <> O ->
  Forall (fun e => length (snd e) = digestLen)
    (accepted_lines (classify g_inputDirPath normalizePath digestLen lines)).
Proof.
  revert digestLen. induction lines as [|line rest IH]; intros digestLen Hnz;
    simpl; [constructor|].
  destruct (length (chomp line) =? 0)%nat; simpl; [apply IH; exact Hnz|].
  destruct (ParseSumFile_line _ _ _ _) as [[entryName digest]|] eqn:Hline;
    simpl; [|apply IH; exact Hnz].
  assert (length digest = digestLen) as Hlen.
  { apply ParseSumFile_line_length in Hline as [[Hlen _]|[_ Hlen]]; auto. }
  constructor; [exact Hlen|]. rewrite Hlen. apply IH. exact Hnz.
Qed.

(** The first accepted line fixes the digest length of the others. *)
Lemma classify_first_accepted (lines : list (list Z)) :
  match accepted_lines (classify g_inputDirPath normalizePath 0 lines) with
  | [] => True
  | first :: others =>
      IsHashSize (Z.of_nat (length (snd first))) = true
      /\ Forall (fun e => length (snd e) = length (snd first)) others
  end.
Proof.
  induction lines as [|line rest IH]; simpl; [exact I|].
  destruct (length (chomp line) =? 0)%nat; simpl; [exact IH|].
  destruct (ParseSumFile_line _ _ _ _) as [[entryName digest]|] eqn:Hline;
    simpl; [|exact IH].
  apply ParseSumFile_line_length in Hline as [[_ Hsize]|[Hnz _]];
    [|contradiction].
  split; [exact Hsize|].
  apply classify_fixed_length. apply IsHashSize_nonzero. exact Hsize.
Qed.

(** From the second line on the loop never stops early: it stores the
    accepted lines and records the numbers of the rejected ones. *)
Lemma ParseSumFile_loop_continues (lines : list (list Z)) (lineNumber : Z)
  (digestLen : nat) (digestList : gmap (list Z) HashResultEntry)
  (skippedLines : list Z) :
  1 <= lineNumber ->
  let sts := classify g_inputDirPath normalizePath digestLen lines in
  ParseSumFile_loop g_inputDirPath normalizePath lines lineNumber digestLen
    digestList skippedLines
  = (false, fold_digests (accepted_lines sts) digestList,
     skippedLines ++ rejected_from (lineNumber + 1) sts).
Proof.
  revert lineNumber digestLen digestList skippedLines.
  induction lines as [|line rest IH];
    intros lineNumber digestLen digestList skippedLines Hn; simpl.
  - rewrite app_nil_r. reflexivity.
  - destruct (length (chomp line) =? 0)%nat; simpl.
    { rewrite IH by lia. reflexivity. }
    destruct (ParseSumFile_line _ _ _ _) as [[entryName digest]|]; simpl.
    { rewrite IH by lia. reflexivity. }
    destruct (Z.gtb_spec (lineNumber + 1) 1) as [_|Hle]; [|lia].
    rewrite IH by lia. rewrite <- app_assoc. reflexivity.
Qed.

(** The loop on a whole file. *)
Lemma ParseSumFile_loop_spec (lines : list (list Z)) :
  let sts := classify g_inputDirPath normalizePath 0 lines in
  ParseSumFile_loop g_inputDirPath normalizePath lines 0 0 ∅ []
  = if bool_decide (head sts = Some Rejected) then (true, ∅, [])
    else (false, fold_digests (accepted_lines sts) ∅, rejected_from 1 sts).
Proof.
  destruct lines as [|line rest]; simpl; [reflexivity|].
  destruct (length (chomp line) =? 0)%nat; simpl.
  { rewrite ParseSumFile_loop_continues by lia. reflexivity. }
  destruct (ParseSumFile_line _ _ _ _) as [[entryName digest]|]; simpl.
  { rewrite ParseSumFile_loop_continues by lia. reflexivity. }
  reflexivity.
Qed.

(** Membership in the list of the rejected line numbers. *)
Lemma rejected_from_elem (sts : list LineStatus) (n m : Z) :
  m ∈ rejected_from n sts
  <-> exists i : nat, sts !! i = Some Rejected /\ m = n + Z.of_nat i.
Proof.
  revert n. induction sts as [|st sts IH]; intros n; simpl.
  - split; [intros Hin; inversion Hin | intros [i [Hi _]]; discriminate].
  - assert (m ∈ rejected_from (n + 1) sts
            <-> exists i : nat, sts !! i = Some Rejected
                                /\ m = n + Z.of_nat (S i)) as IH'.
    { rewrite IH. split; intros [i [Hi Hm]]; exists i; split; auto; lia. }
    destruct st.
    + rewrite IH'. split.
      * intros [i Hi]. exists (S i). exact Hi.
      * intros [[|i] [Hi Hm]]; [discriminate|]. exists i. auto.
    + rewrite IH'. split.
      * intros [i Hi]. exists (S i). exact Hi.
      * intros [[|i] [Hi Hm]]; [discriminate|]. exists i. auto.
    + rewrite elem_of_cons, IH'. split.
      * intros [->|[i Hi]]; [exists O; split; [reflexivity|lia]|].
        exists (S i). exact Hi.
      * intros [[|i] [Hi Hm]]; [left; lia|]. right. exists i. auto.
Qed.

Lemma set_digest_not_empty (m : gmap (list Z) HashResultEntry)
  (entryName : wstring) (digest : ByteArray) :
  set_digest m entryName digest <> ∅.
Proof. unfold set_digest. apply insert_non_empty. Qed.

Lemma fold_digests_not_empty (acc : list (list Z * list Z))
  (m : gmap (list Z) HashResultEntry) :
  m <> ∅ -> fold_digests acc m <> ∅.
Proof.
  revert m. induction acc as [|e acc IH]; intros m Hm; simpl; [exact Hm|].
  apply IH, set_digest_not_empty.
Qed.

Lemma fold_digests_empty_iff (acc : list (list Z * list Z)) :
  fold_digests acc ∅ = ∅ <-> acc = [].
Proof.
  destruct acc as [|e acc]; simpl; [split; reflexivity|].
  split; [|discriminate]. intros Hempty. exfalso.
  exact (fold_digests_not_empty acc _ (set_digest_not_empty _ _ _) Hempty).
Qed.

(** C4.  For the lines of a checksum file, taken with the digest length the
    lines before them have fixed: the first accepted line has one of the
    known digest lengths and every later accepted line has the same one, a
    line with another length being rejected like any line that does not
    parse; when line 1 is rejected [ParseSumFile] fails and leaves the table
    empty; otherwise every accepted line is stored, whatever was rejected
    before it, and [skippedLines] holds the 1-based numbers of the rejected
    lines, in the order of the file. *)
Theorem ParseSumFile_checksum_lines (lines : list (list Z))
  (digestList0 : gmap (list Z) HashResultEntry) (skippedLines0 : list Z) :
  let sts := classify g_inputDirPath normalizePath 0 lines in
  let result :=
    ParseSumFile g_inputDirPath normalizePath (Some lines) digestList0
      skippedLines0 in
  match accepted_lines sts with
  | [] => True
  | first :: others =>
      IsHashSize (Z.of_nat (length (snd first))) = true
      /\ Forall (fun e => length (snd e) = length (snd first)) others
  end
  /\ (head sts = Some Rejected -> result = (false, ∅, []))
  /\ (head sts <> Some Rejected ->
      result = (negb (bool_decide (accepted_lines sts = [])),
                fold_digests (accepted_lines sts) ∅,
                rejected_from 1 sts)
      /\ forall n : Z,
          n ∈ rejected_from 1 sts
          <-> 1 < n /\ sts !! Z.to_nat (n - 1) = Some Rejected).
Proof.
  intros sts result. split; [apply classify_first_accepted|].
  unfold result, ParseSumFile. rewrite ParseSumFile_loop_spec. fold sts.
  split.
  - intros Hhead. rewrite (bool_decide_eq_true_2 _ Hhead). reflexivity.
  - intros Hhead. rewrite (bool_decide_eq_false_2 _ Hhead). split.
    + destruct (decide (accepted_lines sts = [])) as [Hnone|Hsome].
      * rewrite (bool_decide_eq_true_2 _ Hnone), Hnone. simpl.
        rewrite bool_decide_eq_true_2 by reflexivity. reflexivity.
      * rewrite (bool_decide_eq_false_2 _ Hsome).
        rewrite bool_decide_eq_false_2; [reflexivity|].
        rewrite fold_digests_empty_iff. exact Hsome.
    + intros n. rewrite rejected_from_elem. split.
      * intros [i [Hi ->]]. destruct i as [|i].
        { destruct sts; [discriminate|]. simpl in *. congruence. }
        split; [lia|]. replace (Z.to_nat (1 + Z.of_nat (S i) - 1)) with (S i)
          by lia. exact Hi.
      * intros [Hn Hi]. exists (Z.to_nat (n - 1)). split; [exact Hi|lia].
Qed.
End SumFileProperties.

Lemma ParseSumFile_checksum_lines_witness :
  head (classify [] true 0 example_sum_file) <> Some Rejected
  /\ ParseSumFile [] true (Some example_sum_file) ∅ []
     = (true, {[ W "dir\ab.txt" := mkHashResultEntry [] md5_b false ]}, [3; 4])
  /\ head (classify [] true 0 [W "garbage"; ToHex false md5_a ++ W "  ab"])
     = Some Rejected
  /\ ParseSumFile [] true (Some [W "garbage"; ToHex false md5_a ++ W "  ab"])
       ∅ []
     = (false, ∅, []).
Proof.
  assert (head (classify [] true 0 example_sum_file) <> Some Rejected) as H1
    by (vm_compute; discriminate).
  assert (head (classify [] true 0
                  [W "garbage"; ToHex false md5_a ++ W "  ab"])
          = Some Rejected) as H2 by reflexivity.
  split; [exact H1|]. split.
  - destruct (ParseSumFile_checksum_lines [] true example_sum_file ∅ [])
      as [_ [_ Hok]].
    destruct (Hok H1) as [-> _]. vm_compute. reflexivity.
  - split; [exact H2|].
    destruct (ParseSumFile_checksum_lines [] true
                [W "garbage"; ToHex false md5_a ++ W "  ab"] ∅ [])
      as [_ [Hfatal _]].
    exact (Hfatal H2).
Defined.

(** Blank lines are counted, and are neither stored nor recorded; a blank
    first line does not make the parser fail. *)
Example ParseSumFile_blank_lines :
  ParseSumFile [] true
    (Some [[newline]; ToHex false md5_a ++ W "  ab" ++ [newline]; [newline];
           W "garbage"]) ∅ []
  = (true, {[ W "ab" := mkHashResultEntry [] md5_a false ]}, [4]).
Proof. vm_compute. reflexivity. Qed.

Section LastWins.
Variable g_inputDirPath : wstring.
Variable normalizePath : bool.

Lemma digests_of_cons (p : list Z) (e : list Z * list Z)
  (acc : list (list Z * list Z)) :
  digests_of p (e :: acc)
  = if decide (fst e = p) then snd e :: digests_of p acc
    else digests_of p acc.
Proof.
  unfold digests_of. rewrite filter_cons.
  destruct (decide (fst e = p)); reflexivity.
Qed.

(** Storing the accepted lines one after the other leaves, for every path,
    the digest of the last line that names it. *)
Lemma fold_digests_lookup (acc : list (list Z * list Z))
  (m : gmap (list Z) HashResultEntry) (p : list Z) :
  fold_digests acc m !! p
  = match last (digests_of p acc) with
    | Some digest =>
        let e := default HashResultEntry_new (m !! p) in
        Some (mkHashResultEntry (m_hashName e) digest (m_processed e))
    | None => m !! p
    end.
Proof.
  revert m. induction acc as [|[name d] acc IH]; intros m; [reflexivity|].
  change (fold_digests ((name, d) :: acc) m)
    with (fold_digests acc (set_digest m name d)).
  rewrite IH, digests_of_cons. simpl. unfold set_digest.
  destruct (decide (name = p)) as [->|Hne].
  - rewrite lookup_insert_eq. simpl.
    destruct (digests_of p acc) as [|d' ds] eqn:Hds; simpl; [reflexivity|].
    rewrite last_cons. destruct (last ds); reflexivity.
  - rewrite lookup_insert_ne by exact Hne. reflexivity.
Qed.

(** The table of a parsed checksum file, path by path. *)
Lemma ParseSumFile_table (lines : list (list Z))
  (digestList0 digestList : gmap (list Z) HashResultEntry)
  (skippedLines0 skippedLines : list Z) (p : list Z) :
  ParseSumFile g_inputDirPath normalizePath (Some lines) digestList0
    skippedLines0 = (true, digestList, skippedLines) ->
  digestList !! p
  = (fun digest => mkHashResultEntry [] digest false)
      <$> last (digests_of p
                  (accepted_lines
                     (classify g_inputDirPath normalizePath 0 lines))).
Proof.
  unfold ParseSumFile. rewrite ParseSumFile_loop_spec.
  destruct (bool_decide (head _ = Some Rejected)); [discriminate|].
  destruct (bool_decide (fold_digests _ ∅ = ∅)); [discriminate|].
  intros [= <- _]. rewrite fold_digests_lookup, lookup_empty. simpl.
  destruct (last _); reflexivity.
Qed.

(** C9.  When [ParseSumFile] succeeds, the table has, for every path, at
    most one entry, and it has one exactly when accepted lines name the
    path; the entry then holds the digest of the last of those lines. *)
Theorem ParseSumFile_last_wins (lines : list (list Z))
  (digestList0 digestList : gmap (list Z) HashResultEntry)
  (skippedLines0 skippedLines : list Z) (p : list Z) :
  ParseSumFile g_inputDirPath normalizePath (Some lines) digestList0
    skippedLines0 = (true, digestList, skippedLines) ->
  digestList !! p
  = (fun digest => mkHashResultEntry [] digest false)
      <$> last (digests_of p
                  (accepted_lines
                     (classify g_inputDirPath normalizePath 0 lines))).
Proof. apply ParseSumFile_table. Qed.
End LastWins.

Lemma ParseSumFile_last_wins_witness :
  ParseSumFile [] true (Some example_sum_file) ∅ []
  = (true, {[ W "dir\ab.txt" := mkHashResultEntry [] md5_b false ]}, [3; 4])
  /\ digests_of (W "dir\ab.txt")
       (accepted_lines (classify [] true 0 example_sum_file))
     = [md5_a; md5_b]
  /\ ({[ W "dir\ab.txt" := mkHashResultEntry [] md5_b false ]}
        : gmap (list Z) HashResultEntry) !! W "dir\ab.txt"
     = Some (mkHashResultEntry [] md5_b false).
Proof.
  assert (ParseSumFile [] true (Some example_sum_file) ∅ []
          = (true, {[ W "dir\ab.txt" := mkHashResultEntry [] md5_b false ]},
             [3; 4])) as Hparse by (vm_compute; reflexivity).
  split; [exact Hparse|]. split; [vm_compute; reflexivity|].
  rewrite (ParseSumFile_last_wins [] true example_sum_file ∅ _ [] _
             (W "dir\ab.txt") Hparse).
  vm_compute. reflexivity.
Defined.

(** ** Sorting *)

Section ListSortProperties.
Context {A : Type} (comp : A -> A -> bool).

Lemma sort_insert_Permutation (x : A) (l : list A) :
  Permutation (sort_insert comp x l) (x :: l).
Proof.
  induction l as [|y l IH]; simpl; [reflexivity|].
  destruct (comp y x); [|reflexivity].
  rewrite IH. apply perm_swap.
Qed.

Lemma list_sort_Permutation (l : list A) : Permutation (list_sort comp l) l.
Proof.
  induction l as [|x l IH]; simpl; [reflexivity|].
  rewrite sort_insert_Permutation, IH. reflexivity.
Qed.

(** The sort gives an ascending list for every order [le] that [comp]
    decides and that is transitive where it is used. *)
Lemma sort_insert_StronglySorted (le : A -> A -> Prop) (P : A -> Prop)
  (x : A) (l : list A) :
  (forall a b, comp a b = true -> le a b) ->
  (forall a b, comp a b = false -> le b a) ->
  (forall a b c, P a -> P b -> P c -> le a b -> le b c -> le a c) ->
  P x -> Forall P l -> StronglySorted le l ->
  StronglySorted le (sort_insert comp x l).
Proof.
  intros Hlt Hge Htrans Hx HP Hsorted.
  induction Hsorted as [|y l Hsorted IH Hy]; simpl.
  - constructor; constructor.
  - inversion HP as [|? ? HPy HPl]; subst.
    destruct (comp y x) eqn:Hyx.
    + constructor; [apply IH; exact HPl|].
      rewrite (sort_insert_Permutation x l). constructor; [|exact Hy].
      apply Hlt. exact Hyx.
    + constructor; [constructor; assumption|].
      assert (le x y) as Hxy by (apply Hge; exact Hyx).
      constructor; [exact Hxy|].
      rewrite Forall_forall in Hy, HPl. apply Forall_forall. intros z Hz.
      apply (Htrans x y z); auto.
Qed.

Lemma list_sort_StronglySorted (le : A -> A -> Prop) (P : A -> Prop)
  (l : list A) :
  (forall a b, comp a b = true -> le a b) ->
  (forall a b, comp a b = false -> le b a) ->
  (forall a b c, P a -> P b -> P c -> le a b -> le b c -> le a c) ->
  Forall P l -> StronglySorted le (list_sort comp l).
Proof.
  intros Hlt Hge Htrans HP.
  induction HP as [|x l Hx HP IH]; simpl; [constructor|].
  apply (sort_insert_StronglySorted le P); auto.
  rewrite list_sort_Permutation. exact HP.
Qed.
End ListSortProperties.

(** Sorting the images by [comp] is sorting by [comp] on the images. *)
Lemma list_sort_map {A B : Type} (f : B -> A) (comp : A -> A -> bool)
  (l : list B) :
  list_sort comp (map f l)
  = map f (list_sort (fun a b => comp (f a) (f b)) l).
Proof.
  induction l as [|x l IH]; simpl; [reflexivity|]. rewrite IH.
  generalize (list_sort (fun a b => comp (f a) (f b)) l). clear IH.
  intros k. induction k as [|y k IH]; simpl; [reflexivity|].
  destruct (comp (f y) (f x)); simpl; [rewrite IH|]; reflexivity.
Qed.

Lemma list_sort_ext {A : Type} (comp comp' : A -> A -> bool) (l : list A) :
  (forall a b, comp a b = comp' a b) -> list_sort comp l = list_sort comp' l.
Proof.
  intros Hext. induction l as [|x l IH]; simpl; [reflexivity|]. rewrite IH.
  generalize (list_sort comp' l). intros k.
  induction k as [|y k IHk]; simpl; [reflexivity|].
  rewrite Hext, IHk. reflexivity.
Qed.

Lemma StronglySorted_sublist {A : Type} (le : A -> A -> Prop) (k l : list A) :
  sublist k l -> StronglySorted le l -> StronglySorted le k.
Proof.
  induction 1 as [|x k l Hsub IH|x k l Hsub IH]; intros Hsorted.
  - constructor.
  - inversion Hsorted as [|? ? Hl Hx]; subst. constructor; [auto|].
    rewrite Forall_forall in Hx. apply Forall_forall. intros y Hy. apply Hx.
    apply (sublist_subseteq _ _ Hsub). exact Hy.
  - inversion Hsorted; subst. auto.
Qed.

Lemma StronglySorted_map {A B : Type} (f : B -> A) (le : A -> A -> Prop)
  (l : list B) :
  StronglySorted (fun a b => le (f a) (f b)) l -> StronglySorted le (map f l).
Proof.
  induction 1 as [|x l Hsorted IH Hx]; simpl; constructor; [exact IH|].
  rewrite Forall_forall in Hx. apply Forall_forall. intros y Hy.
  apply list_elem_of_In, in_map_iff in Hy as [z [<- Hz]]. apply Hx.
  apply list_elem_of_In. exact Hz.
Qed.

Lemma Forall_sublist {A : Type} (P : A -> Prop) (k l : list A) :
  sublist k l -> Forall P l -> Forall P k.
Proof.
  intros Hsub HP. rewrite Forall_forall in HP. apply Forall_forall.
  intros x Hx. apply HP. apply (sublist_subseteq _ _ Hsub). exact Hx.
Qed.

(** ** The walker *)

(** Induction on a tree, with the hypothesis for every entry of a
    directory. *)
Lemma Node_nested_ind (P : Node -> Prop) :
  (forall name reparse openable, P (FileNode name reparse openable)) ->
  (forall name reparse findFirstError entries findNextError,
      Forall P entries ->
      P (DirNode name reparse findFirstError entries findNextError)) ->
  forall n, P n.
Proof.
  intros Hfile Hdir. fix IH 1. intros [name r o|name r ff entries fn].
  - apply Hfile.
  - apply Hdir. induction entries as [|e entries IHentries]; constructor.
    + apply IH.
    + exact IHentries.
Qed.

Section WalkerProperties.
Variable PathMatchSpec : wstring -> wstring -> bool.
Variable g : Globals.
Variable bSumMode : bool.

Lemma HashNode_DirNode (name : wstring) (reparse : bool)
  (findFirstError : option Z) (entries : list Node) (findNextError : Z)
  (dirPath : CPath) (st : WalkState) :
  HashNode PathMatchSpec g bSumMode
    (DirNode name reparse findFirstError entries findNextError) dirPath st
  = HashDirectory_body PathMatchSpec g bSumMode dirPath findFirstError
      (map (fun e => (e, HashNode PathMatchSpec g bSumMode e)) entries)
      findNextError st.
Proof. reflexivity. Qed.

(** The enumeration keeps some of the entries, in the order in which they
    were found. *)
Lemma enumerate_spec (dirPath : CPath) (verifying : bool)
  (walk_of : Node -> CPath -> WalkState -> Z * list Trace * WalkState)
  (entries : list Node) (skipped : bool) :
  exists es : list Node,
    sublist es entries
    /\ fst (enumerate g bSumMode dirPath verifying
              (map (fun e => (e, walk_of e)) entries) skipped)
       = map (dirContent_entry dirPath walk_of) es.
Proof.
  revert skipped. induction entries as [|e entries IH]; intros skipped.
  - exists []. split; [constructor|reflexivity].
  - destruct (IH skipped) as [es1 [Hsub1 Hes1]].
    destruct (IH true) as [es2 [Hsub2 Hes2]].
    assert (forall s es,
               sublist es entries ->
               fst (enumerate g bSumMode dirPath verifying
                      (map (fun e => (e, walk_of e)) entries) s)
               = map (dirContent_entry dirPath walk_of) es ->
               exists es' : list Node,
                 sublist es' (e :: entries)
                 /\ fst (let '(dirContent, skipped') :=
                           enumerate g bSumMode dirPath verifying
                             (map (fun e => (e, walk_of e)) entries) s in
                         ((CDirContent_new dirPath (cFileName_of e)
                             (is_directory e), walk_of e) :: dirContent,
                          skipped'))
                    = map (dirContent_entry dirPath walk_of) es') as Hkeep.
    { intros s es Hsub Hes. exists (e :: es). split; [constructor; exact Hsub|].
      destruct (enumerate _ _ _ _ _ s) as [dirContent skipped'].
      simpl in *. rewrite Hes. reflexivity. }
    assert (forall s es,
               sublist es entries ->
               fst (enumerate g bSumMode dirPath verifying
                      (map (fun e => (e, walk_of e)) entries) s)
               = map (dirContent_entry dirPath walk_of) es ->
               exists es' : list Node,
                 sublist es' (e :: entries)
                 /\ fst (enumerate g bSumMode dirPath verifying
                           (map (fun e => (e, walk_of e)) entries) s)
                    = map (dirContent_entry dirPath walk_of) es') as Hdrop.
    { intros s es Hsub Hes. exists es. split; [constructor; exact Hsub|].
      exact Hes. }
    simpl. destruct (is_directory e) eqn:Hdir;
      repeat match goal with
             | |- context [if ?c then _ else _] => destruct c
             end;
      first [ exact (Hkeep _ _ Hsub1 Hes1) | exact (Hkeep _ _ Hsub2 Hes2)
            | exact (Hdrop _ _ Hsub1 Hes1) | exact (Hdrop _ _ Hsub2 Hes2) ].
Qed.

(** [HashFile] tries at most the file it is called on. *)
Lemma HashFile_shape (filePath : CPath) (openable : bool) (st : WalkState) :
  let done := snd (fst (HashFile PathMatchSpec g bSumMode filePath openable st)) in
  done = [] \/ exists opened, done = [TFile filePath opened].
Proof.
  unfold HashFile.
  destruct (IsExcludedName _ _ _ _); [left; reflexivity|].
  assert (forall st',
             let done :=
               snd (fst (if openable then (0, [TFile filePath true], st')
                         else if g_bSkipError g then
                           (0, [TFile filePath false],
                            if bSumMode
                            then mkWalkState (g_sumFileSkipped st') true
                                   (digestList st')
                            else st')
                         else (to_dword (-1), [TFile filePath false], st'))) in
             done = [] \/ exists opened, done = [TFile filePath opened])
    as Hopen.
  { intros st'. destruct openable; [|destruct (g_bSkipError g)]; simpl; eauto. }
  destruct (bSumMode && negb (bool_decide (digestList st = ∅)));
    [|apply Hopen].
  destruct (digestList st !! m_path filePath); [apply Hopen|].
  destruct (g_bSkipError g); left; reflexivity.
Qed.

(** [HashDirectory] lists at most the directory it is called on. *)
Lemma HashDirectory_body_shape (dirPath : CPath) (findFirstError : option Z)
  (found : list (Node * (CPath -> WalkState -> Z * list Trace * WalkState)))
  (findNextError : Z) (st : WalkState) :
  let done :=
    snd (fst (HashDirectory_body PathMatchSpec g bSumMode dirPath
                findFirstError found findNextError st)) in
  done = [] \/ exists children, done = [TDir dirPath children].
Proof.
  destruct (IsExcludedName PathMatchSpec g (m_path dirPath) false) eqn:Hex.
  - left. unfold HashDirectory_body. rewrite Hex. reflexivity.
  - right.
    destruct (HashDirectory_body_listed PathMatchSpec g bSumMode dirPath
                findFirstError found findNextError st Hex)
      as [dwError [children [st' ->]]].
    exists children. reflexivity.
Qed.

Lemma HashNode_shape (n : Node) (path : CPath) (st : WalkState) :
  let done := snd (fst (HashNode PathMatchSpec g bSumMode n path st)) in
  done = [] \/ exists t, done = [t] /\ Trace_path t = path.
Proof.
  destruct n as [name r openable|name r ff entries fn].
  - destruct (HashFile_shape path openable st) as [Hnone|[opened Hone]].
    + left. exact Hnone.
    + right. exists (TFile path opened). split; [exact Hone|reflexivity].
  - rewrite HashNode_DirNode.
    destruct (HashDirectory_body_shape path ff
                (map (fun e => (e, HashNode PathMatchSpec g bSumMode e)) entries)
                fn st) as [Hnone|[children Hone]].
    + left. exact Hnone.
    + right. exists (TDir path children). split; [exact Hone|reflexivity].
Qed.

(** The loop over [dirContent] works on entries of [dirContent], in the
    order of [dirContent]. *)
Lemma HashDirectory_for_spec (dirPath : CPath) (Q : Trace -> Prop)
  (es : list Node) (st : WalkState) :
  Forall (fun e => forall path st',
              Forall Q (snd (fst (HashNode PathMatchSpec g bSumMode e path st'))))
    es ->
  let done :=
    snd (fst (HashDirectory_for
                (map (dirContent_entry dirPath
                        (HashNode PathMatchSpec g bSumMode)) es) st)) in
  Forall Q done
  /\ exists kept : list Node,
      sublist kept es
      /\ map Trace_path done
         = map (fun e => AppendName dirPath (cFileName_of e)) kept.
Proof.
  intros HQ. revert st. induction HQ as [|e es He HQ IH]; intros st; simpl.
  - split; [constructor|]. exists []. split; [constructor|reflexivity].
  - pose proof (HashNode_shape e (AppendName dirPath (cFileName_of e)) st)
      as Hshape.
    specialize (He (AppendName dirPath (cFileName_of e)) st).
    destruct (HashNode PathMatchSpec g bSumMode e
                (AppendName dirPath (cFileName_of e)) st)
      as [[dwError done] st'].
    simpl in Hshape, He.
    destruct (dwError =? 0).
    + specialize (IH st').
      destruct (HashDirectory_for _ st') as [[dwError' done'] st''].
      simpl in *. destruct IH as [HQ' [kept [Hsub Hpaths]]].
      split; [apply Forall_app; split; assumption|].
      destruct Hshape as [->|[t [-> Hpath]]]; simpl.
      * exists kept. split; [constructor; exact Hsub|exact Hpaths].
      * exists (e :: kept). split; [constructor; exact Hsub|].
        simpl. rewrite Hpath, Hpaths. reflexivity.
    + simpl. split; [exact He|].
      destruct Hshape as [->|[t [-> Hpath]]]; simpl.
      * exists []. split; [apply sublist_nil_l|reflexivity].
      * exists [e]. split; [constructor; apply sublist_nil_l|].
        simpl. rewrite Hpath. reflexivity.
Qed.

(** The comparison handed to [sort] compares the names of the entries. *)
Lemma compare_dirContent_entry (dirPath : CPath)
  (walk_of : Node -> CPath -> WalkState -> Z * list Trace * WalkState)
  (a b : Node) :
  compare_nocase
    (CDirContent_LPCWSTR (fst (dirContent_entry dirPath walk_of a)))
    (CDirContent_LPCWSTR (fst (dirContent_entry dirPath walk_of b)))
  = compare_nocase (cFileName_of a) (cFileName_of b).
Proof.
  unfold compare_nocase, CDirContent_LPCWSTR, dirContent_entry,
    CDirContent_new, AppendName. cbn [fst m_szPath m_path].
  rewrite !app_assoc, wcsicmp_app. reflexivity.
Qed.

Lemma well_named_entries (name : wstring) (reparse : bool)
  (findFirstError : option Z) (entries : list Node) (findNextError : Z) :
  well_named (DirNode name reparse findFirstError entries findNextError) = true ->
  Forall (fun e => well_named e = true) entries.
Proof.
  simpl. intros Hn. apply andb_true_iff in Hn as [_ Hn].
  apply forallb_Forall_true. exact Hn.
Qed.

Lemma well_named_no_nul (n : Node) :
  well_named n = true -> no_nul (cFileName_of n) = true.
Proof.
  destruct n; simpl; intros Hn; apply andb_true_iff in Hn as [Hn _]; exact Hn.
Qed.

(** The sorted entries are in ascending order of their names. *)
Lemma sorted_entries_ascending (es : list Node) :
  Forall (fun e => well_named e = true) es ->
  StronglySorted (fun a b => nocase_le (cFileName_of a) (cFileName_of b))
    (list_sort (fun a b => compare_nocase (cFileName_of a) (cFileName_of b))
       es).
Proof.
  intros Hes.
  apply (list_sort_StronglySorted _ _
           (fun e => no_nul (cFileName_of e) = true)).
  - intros a b Hab. unfold compare_nocase in Hab. apply Z.ltb_lt in Hab.
    unfold nocase_le. lia.
  - intros a b Hab. unfold compare_nocase in Hab. apply Z.ltb_ge in Hab.
    unfold nocase_le. rewrite wcsicmp_opp. lia.
  - intros a b c Ha Hb Hc. apply nocase_le_trans; assumption.
  - eapply Forall_impl; [exact Hes|]. intros e. apply well_named_no_nul.
Qed.

(** Whatever the tree, the filters and the errors met: under every
    directory that the walker lists, the entries it goes on with are taken
    in ascending case-insensitive order of their names. *)
Lemma HashNode_walk_ordered (n : Node) (path : CPath)
  (st : WalkState) :
  well_named n = true ->
  Forall walk_ordered (snd (fst (HashNode PathMatchSpec g bSumMode n path st))).
Proof.
  revert path st. induction n as [name r openable|name r ff entries fn IH]
    using Node_nested_ind; intros path st Hnamed.
  - destruct (HashFile_shape path openable st) as [Hnone|[opened Hone]];
      simpl in *.
    + rewrite Hnone. constructor.
    + rewrite Hone. repeat constructor.
  - pose proof (well_named_entries _ _ _ _ _ Hnamed) as Hentries.
    rewrite HashNode_DirNode. unfold HashDirectory_body.
    destruct (IsExcludedName _ _ _ _); [constructor|].
    assert (walk_ordered (TDir path [])) as Hempty.
    { apply (ordered_TDir path [] []); constructor. }
    destruct ff as [dwError|].
    { destruct (g_bSkipError g); simpl; repeat constructor; exact Hempty. }
    destruct (enumerate_spec path
                (negb (bool_decide (digestList st = ∅)))
                (HashNode PathMatchSpec g bSumMode) entries
                (g_sumFileSkipped st)) as [es [Hsub Hes]].
    destruct (enumerate _ _ _ _ _ _) as [dirContent skipped].
    simpl in Hes. subst dirContent.
    destruct (negb (fn =? ERROR_NO_MORE_FILES)).
    { destruct (g_bSkipError g); simpl; repeat constructor; exact Hempty. }
    rewrite list_sort_map.
    rewrite (list_sort_ext _
               (fun a b => compare_nocase (cFileName_of a) (cFileName_of b)))
      by (intros a b; apply compare_dirContent_entry).
    set (sorted := list_sort _ es).
    assert (Forall (fun e => well_named e = true) es) as Hes_named
      by (eapply Forall_sublist; eassumption).
    assert (Permutation sorted es) as Hperm
      by apply list_sort_Permutation.
    assert (Forall (fun e => forall path st',
                        Forall walk_ordered
                          (snd (fst (HashNode PathMatchSpec g bSumMode e path
                                       st')))) sorted) as Hwalk.
    { rewrite Hperm. eapply Forall_sublist; [exact Hsub|].
      rewrite Forall_forall in IH, Hentries. apply Forall_forall.
      intros e He path' st'. apply IH; auto. }
    destruct (HashDirectory_for_spec path walk_ordered sorted
                (mkWalkState skipped (g_bMismatchFound st) (digestList st))
                Hwalk) as [Hordered [kept [Hkept Hpaths]]].
    destruct (HashDirectory_for _ _) as [[dwError done] st'].
    simpl in *. constructor; [|constructor].
    apply (ordered_TDir path done (map cFileName_of kept)).
    + rewrite Hpaths, map_map. reflexivity.
    + apply StronglySorted_map.
      apply (StronglySorted_sublist _ kept sorted Hkept).
      apply sorted_entries_ascending. exact Hes_named.
    + exact Hordered.
Qed.
End WalkerProperties.

(** ** The main program *)

Lemma map_begin_lookup (m : gmap (list Z) HashResultEntry) (k : list Z)
  (v : HashResultEntry) :
  map_begin m = Some (k, v) -> m !! k = Some v.
Proof.
  unfold map_begin. intros Hhead.
  apply elem_of_map_to_list.
  rewrite <- (list_sort_Permutation
                (fun x y => wstring_less (fst x) (fst y)) (map_to_list m)).
  destruct (list_sort _ _) as [|x l]; [discriminate|].
  simpl in Hhead. injection Hhead as ->. apply list_elem_of_here.
Qed.

Lemma accepted_same_length (g_inputDirPath : wstring) (normalizePath : bool)
  (lines : list (list Z)) (e1 e2 : list Z * list Z) :
  let acc :=
    accepted_lines (classify g_inputDirPath normalizePath 0 lines) in
  e1 ∈ acc -> e2 ∈ acc -> length (snd e1) = length (snd e2).
Proof.
  intros acc. pose proof (classify_first_accepted g_inputDirPath
                            normalizePath lines) as Hfirst.
  fold acc in Hfirst. destruct acc as [|first others].
  - intros Hin. inversion Hin.
  - destruct Hfirst as [_ Hothers]. rewrite Forall_forall in Hothers.
    assert (forall e, e ∈ first :: others ->
                      length (snd e) = length (snd first)) as Hall.
    { intros e He. apply elem_of_cons in He as [->|He]; auto. }
    intros H1 H2. rewrite (Hall _ H1), (Hall _ H2). reflexivity.
Qed.

Lemma last_digests_of_elem (p : list Z) (acc : list (list Z * list Z))
  (d : list Z) :
  last (digests_of p acc) = Some d -> (p, d) ∈ acc.
Proof.
  intros Hlast. apply last_Some_elem_of in Hlast. unfold digests_of in Hlast.
  apply list_elem_of_In, in_map_iff in Hlast as [[p' d'] [Hd Hin]].
  simpl in Hd. subst d'.
  apply list_elem_of_In, list_elem_of_filter in Hin as [Hp Hin].
  simpl in Hp. subst p'. exact Hin.
Qed.

(** All the entries of a parsed checksum file have the same digest
    length: the digest length of the file. *)
Lemma ParseSumFile_one_length (g_inputDirPath : wstring)
  (normalizePath : bool) (f : option (list (list Z)))
  (digestList0 digestList : gmap (list Z) HashResultEntry)
  (skippedLines0 skippedLines : list Z) (p1 p2 : list Z)
  (e1 e2 : HashResultEntry) :
  ParseSumFile g_inputDirPath normalizePath f digestList0 skippedLines0
  = (true, digestList, skippedLines) ->
  digestList !! p1 = Some e1 -> digestList !! p2 = Some e2 ->
  length (m_digest e1) = length (m_digest e2).
Proof.
  destruct f as [lines|]; [|discriminate]. intros Hparse.
  rewrite !(ParseSumFile_table _ _ _ _ _ _ _ _ Hparse).
  destruct (last (digests_of p1 _)) as [d1|] eqn:H1; [|discriminate].
  destruct (last (digests_of p2 _)) as [d2|] eqn:H2; [|discriminate].
  intros [= <-] [= <-]. simpl.
  apply last_digests_of_elem in H1, H2.
  exact (accepted_same_length _ _ _ _ _ H1 H2).
Qed.

Section MainProperties.
Context `{Primitives}.
Variable USE_STREEBOG : bool.
Variable PathMatchSpec : wstring -> wstring -> bool.
Variable EnsureAbsolut : wstring -> wstring.

(** Nothing is walked when [_tmain] returns before the walk. *)
Lemma tmain_walk_Exit (o : Options) (out : Outside) (code : Z) :
  tmain_start USE_STREEBOG EnsureAbsolut o out = Exit code ->
  tmain_walk USE_STREEBOG PathMatchSpec EnsureAbsolut o out = [].
Proof. unfold tmain_walk. intros ->. reflexivity. Qed.





(** C7.  With a specifier of two or more algorithms: in verify mode the
    program returns before it calls [HashDirectory] or [HashFile], with
    [-10] when the engines are valid and with [1] when one of them is not;
    in no other mode does it return [-10], and outside verify mode, with
    valid engines, it goes on as with one algorithm: to the benchmark, to
    the errors of the input path ([-2], [-9]) or to the walk, which starts
    with all the engines of the specifier, an empty checksum table and the
    mode asked for, and for a directory is the call of [HashDirectory] on
    it. *)
Theorem verify_rejects_several_algorithms (o : Options) (out : Outside) :
  let pHashes := GetHashes USE_STREEBOG (hashAlgoToUse o) in
  let bSumMode := if bForceSumMode o then true else bSumMode0 o in
  let inputArg := inputArg_of (argv1 o) in
  (bVerifyMode o = true -> bBenchmarkAllAlgos o = false ->
   (1 < length pHashes)%nat ->
   tmain_start USE_STREEBOG EnsureAbsolut o out
   = (if ValidateHashesVector pHashes then Exit (-10) else Exit 1)
   /\ tmain_walk USE_STREEBOG PathMatchSpec EnsureAbsolut o out = [])
  /\ (bVerifyMode o = false ->
      tmain_start USE_STREEBOG EnsureAbsolut o out <> Exit (-10))
  /\ (bVerifyMode o = false -> bBenchmarkAllAlgos o = false ->
      (1 < length pHashes)%nat -> ValidateHashesVector pHashes = true ->
      tmain_start USE_STREEBOG EnsureAbsolut o out
      = (if bBenchmarkOp o then Benchmark
         else
           match target out with
           | None => Exit (-2)
           | Some node =>
               if g_bNoFollow (globals o) && IsReparsePoint node
               then Exit (-9)
               else Hashing bSumMode
                      (if is_directory node && bSumMode
                       then inputDirPath_of o inputArg else [])
                      pHashes ∅ [] []
           end)
      /\ (bBenchmarkOp o = false ->
          forall name r findFirstError entries findNextError,
            target out
            = Some (DirNode name r findFirstError entries findNextError) ->
            g_bNoFollow (globals o) && r = false ->
            tmain_walk USE_STREEBOG PathMatchSpec EnsureAbsolut o out
            = snd (fst (HashDirectory PathMatchSpec (globals o) bSumMode
                          (CPath_new EnsureAbsolut inputArg) findFirstError
                          entries findNextError
                          (mkWalkState false false ∅))))).
Proof.
  intros pHashes bSumMode inputArg.
  assert (bVerifyMode o = false -> bBenchmarkAllAlgos o = false ->
          (1 < length pHashes)%nat -> ValidateHashesVector pHashes = true ->
          tmain_start USE_STREEBOG EnsureAbsolut o out
          = (if bBenchmarkOp o then Benchmark
             else
               match target out with
               | None => Exit (-2)
               | Some node =>
                   if g_bNoFollow (globals o) && IsReparsePoint node
                   then Exit (-9)
                   else Hashing bSumMode
                          (if is_directory node && bSumMode
                           then inputDirPath_of o inputArg else [])
                          pHashes ∅ [] []
               end)) as Hstart.
  { intros Hverify Hbench Hlen Hvalid.
    unfold tmain_start, tmain_checks. rewrite Hverify, Hbench.
    cbn [negb andb]. fold pHashes. rewrite Hvalid.
    assert (pHashes <> []) as Hne
      by (intros Hnil; rewrite Hnil in Hlen; simpl in Hlen; lia).
    rewrite (bool_decide_eq_false_2 _ Hne). cbn [negb orb].
    fold bSumMode. fold inputArg.
    destruct (bBenchmarkOp o); [reflexivity|].
    destruct (target out) as [node|]; [|reflexivity].
    destruct (g_bNoFollow (globals o) && IsReparsePoint node); [reflexivity|].
    rewrite negb_involutive, orb_false_r. reflexivity. }
  split; [|split; [|intros Hverify Hbench Hlen Hvalid; split]].
  - intros Hverify Hbench Hlen.
    assert (tmain_start USE_STREEBOG EnsureAbsolut o out
            = (if ValidateHashesVector pHashes then Exit (-10) else Exit 1))
      as Hexit.
    { unfold tmain_start, tmain_checks. rewrite Hverify, Hbench.
      cbn [negb andb]. fold pHashes.
      assert (pHashes <> []) as Hne
        by (intros Hnil; rewrite Hnil in Hlen; simpl in Hlen; lia).
      rewrite (bool_decide_eq_false_2 _ Hne).
      apply Nat.ltb_lt in Hlen. rewrite Hlen.
      destruct (ValidateHashesVector _); reflexivity. }
    split; [exact Hexit|].
    destruct (ValidateHashesVector _);
      exact (tmain_walk_Exit o out _ Hexit).
  - intros Hverify. unfold tmain_start, tmain_checks. rewrite Hverify. simpl.
    repeat match goal with
           | |- context [if ?c then _ else _] => destruct c
           | |- context [match target out with _ => _ end] =>
               destruct (target out)
           end; discriminate.
  - exact (Hstart Hverify Hbench Hlen Hvalid).
  - intros Hop name r ff entries fn Htarget Hfollow.
    unfold tmain_walk.
    rewrite (Hstart Hverify Hbench Hlen Hvalid), Hop, Htarget.
    simpl IsReparsePoint. rewrite Hfollow. reflexivity.
Qed.
End MainProperties.

(** ** The examples, run *)

(** The walk of the example tree: [A.TXT], [b.txt], [c.bin], then [Dir]
    with [Y.bin] before [z.txt]. *)
Example walk_example_tree :
  snd (fst (HashNode ends_with example_globals false example_tree
              example_root (mkWalkState false false ∅)))
  = [TDir example_root
       [TFile (AppendName example_root (W "A.TXT")) true;
        TFile (AppendName example_root (W "b.txt")) true;
        TFile (AppendName example_root (W "c.bin")) true;
        TDir (AppendName example_root (W "Dir"))
          [TFile (AppendName (AppendName example_root (W "Dir")) (W "Y.bin"))
             true;
           TFile (AppendName (AppendName example_root (W "Dir")) (W "z.txt"))
             true]]].
Proof. vm_compute. reflexivity. Qed.

(** The same walk with [-only] and the pattern [.txt] (the matcher of the
    examples tells [.TXT] from [.txt]): [Dir] is still listed, the files
    that do not match are left out. *)
Example walk_example_tree_only_txt :
  snd (fst (HashNode ends_with example_only_txt false example_tree
              example_root (mkWalkState false false ∅)))
  = [TDir example_root
       [TFile (AppendName example_root (W "b.txt")) true;
        TDir (AppendName example_root (W "Dir"))
          [TFile (AppendName (AppendName example_root (W "Dir")) (W "z.txt"))
             true]]].
Proof. vm_compute. reflexivity. Qed.


Lemma verify_rejects_several_algorithms_witness :
  (@tmain_start transcript true (fun p => W "c:\" ++ p)
     (example_verify (W "SHA1,MD5")) example_outside = Exit (-10)
   /\ @tmain_walk transcript true ends_with (fun p => W "c:\" ++ p)
        (example_verify (W "SHA1,MD5")) example_outside = [])
  /\ @tmain_start transcript true (fun p => W "c:\" ++ p)
       (example_sum (W "SHA1,MD5")) example_outside
     = Hashing true (W "root\")
         [@Hash_new transcript Sha1Cng; @Hash_new transcript Md5Cng] ∅ [] [].
Proof.
  assert (bVerifyMode (example_verify (W "SHA1,MD5")) = true) as Hverify
    by reflexivity.
  assert (bBenchmarkAllAlgos (example_verify (W "SHA1,MD5")) = false)
    as Hbench by reflexivity.
  assert ((1 < length (@GetHashes transcript true
                         (hashAlgoToUse (example_verify (W "SHA1,MD5")))))%nat)
    as Hlen by (vm_compute; lia).
  split.
  - exact (proj1 (@verify_rejects_several_algorithms transcript true
                    ends_with (fun p => W "c:\" ++ p)
                    (example_verify (W "SHA1,MD5")) example_outside)
             Hverify Hbench Hlen).
  - exact (proj1 (proj2 (proj2 (@verify_rejects_several_algorithms transcript
                                  true ends_with (fun p => W "c:\" ++ p)
                                  (example_sum (W "SHA1,MD5"))
                                  example_outside))
                    eq_refl eq_refl Hlen eq_refl)).
Defined.

(** With an MD5 manifest and the algorithm MD5, and with two algorithms
    outside verify mode, the program goes on to the walk. *)
Example tmain_walks :
  (exists dl sk,
      @tmain_start transcript true (fun p => W "c:\" ++ p)
        (example_verify (W "MD5")) example_outside
      = Hashing true (W "root\") [@Hash_new transcript Md5Cng] dl sk [])
  /\ @tmain_start transcript true (fun p => W "c:\" ++ p)
       (mkOptions (W "root") (W "SHA1,MD5") false true false false false false
          example_globals) example_outside
     = Hashing true (W "root\")
         [@Hash_new transcript Sha1Cng; @Hash_new transcript Md5Cng] ∅ [] [].
Proof.
  split; [|vm_compute; reflexivity].
  eexists _, _. vm_compute. reflexivity.
Qed.

(** * Further properties *)

(** ** The hexadecimal codec, decoding *)

Lemma FromHex_char_towlower (c : Z) :
  FromHex_char (towlower c) = FromHex_char c.
Proof.
  unfold towlower.
  destruct (Z.leb_spec 65 c); destruct (Z.leb_spec c 90); simpl;
    try reflexivity.
  unfold FromHex_char.
  repeat match goal with
         | |- context [Z.leb ?a ?b] => destruct (Z.leb_spec a b)
         end; simpl; try lia; try reflexivity.
  all: f_equal; f_equal; lia.
Qed.

Lemma FromHex_loop_towlower (n : nat) (szHex : wstring) (buffer : ByteArray) :
  FromHex_loop n (map towlower szHex) buffer = FromHex_loop n szHex buffer.
Proof.
  revert szHex buffer. induction n as [|n IH]; intros szHex buffer;
    [reflexivity|].
  destruct szHex as [|c1 [|c2 rest]]; simpl; try reflexivity.
  rewrite !FromHex_char_towlower.
  destruct (FromHex_char c1); [|reflexivity].
  destruct (FromHex_char c2); [|reflexivity].
  apply IH.
Qed.

(** X1.  [FromHex] does not look at the case of the letters: a string and
    its lower-case form decode alike. *)
Theorem FromHex_ignores_case (szHex : wstring) :
  FromHex (map towlower szHex) = FromHex szHex.
Proof.
  unfold FromHex. rewrite length_map, FromHex_loop_towlower. reflexivity.
Qed.

Lemma FromHex_char_Some (lower : bool) (c b : Z) :
  FromHex_char c = Some b ->
  0 <= b <= 15 /\ ToHex_char lower b = to_case lower c.
Proof.
  unfold FromHex_char.
  destruct (Z.leb_spec 48 c); destruct (Z.leb_spec c 57); simpl.
  1:{ assert (c = 48 \/ c = 49 \/ c = 50 \/ c = 51 \/ c = 52 \/ c = 53
              \/ c = 54 \/ c = 55 \/ c = 56 \/ c = 57) as Hc by lia.
      intros [= <-]. destruct lower;
        repeat (destruct Hc as [-> | Hc]; [split; [vm_compute; split; discriminate|reflexivity]|]);
        subst c; split; try reflexivity; vm_compute; split; discriminate. }
  all: destruct (Z.leb_spec 97 c); destruct (Z.leb_spec c 102); simpl.
  all: try (assert (c = 97 \/ c = 98 \/ c = 99 \/ c = 100 \/ c = 101
                    \/ c = 102) as Hc by lia;
            intros [= <-]; destruct lower;
            repeat (destruct Hc as [-> | Hc];
                    [split; [vm_compute; split; discriminate|reflexivity]|]);
            subst c; split; try reflexivity; vm_compute; split; discriminate).
  all: destruct (Z.leb_spec 65 c); destruct (Z.leb_spec c 70); simpl.
  all: try discriminate.
  all: try (assert (c = 65 \/ c = 66 \/ c = 67 \/ c = 68 \/ c = 69
                    \/ c = 70) as Hc by lia;
            intros [= <-]; destruct lower;
            repeat (destruct Hc as [-> | Hc];
                    [split; [vm_compute; split; discriminate|reflexivity]|]);
            subst c; split; try reflexivity; vm_compute; split; discriminate).
Qed.

Lemma byte_of_nibbles (b1 b2 : Z) :
  0 <= b1 <= 15 -> 0 <= b2 <= 15 ->
  let v := to_uchar (b1 * 16 + b2) in
  is_byte v /\ to_uchar (Z.shiftr v 4) = b1 /\ to_uchar (Z.land v 15) = b2.
Proof.
  intros H1 H2 v.
  assert (v = b1 * 16 + b2) as Hv
    by (unfold v, to_uchar; apply Z.mod_small; lia).
  assert (is_byte v) as Hbyte by (unfold is_byte; lia).
  split; [exact Hbyte|].
  rewrite (high_nibble v Hbyte), (low_nibble v Hbyte), Hv. split.
  - rewrite Z.div_add_l by lia. rewrite Z.div_small by lia. lia.
  - rewrite Z.add_comm, Z.mod_add by lia. apply Z.mod_small. lia.
Qed.

Lemma FromHex_loop_Some (lower : bool) (n : nat) (szHex : wstring)
  (buffer result : ByteArray) :
  length szHex = (2 * n)%nat ->
  FromHex_loop n szHex buffer = Some result ->
  exists data,
    result = buffer ++ data /\ length data = n /\ Forall is_byte data
    /\ ToHex lower data = map (to_case lower) szHex.
Proof.
  revert szHex buffer. induction n as [|n IH]; intros szHex buffer Hlen.
  - destruct szHex; [|discriminate]. intros [= <-]. exists [].
    rewrite app_nil_r. repeat split. constructor.
  - destruct szHex as [|c1 [|c2 rest]]; simpl in *; try discriminate.
    destruct (FromHex_char c1) as [b1|] eqn:E1; [|discriminate].
    destruct (FromHex_char c2) as [b2|] eqn:E2; [|discriminate].
    intros Hloop. apply IH in Hloop as [data [-> [Hn [Hbytes Hhex]]]]; [|lia].
    destruct (FromHex_char_Some lower _ _ E1) as [H1 Hc1].
    destruct (FromHex_char_Some lower _ _ E2) as [H2 Hc2].
    destruct (byte_of_nibbles b1 b2 H1 H2) as [Hbyte [Hhi Hlo]].
    exists (to_uchar (b1 * 16 + b2) :: data).
    rewrite <- app_assoc. split; [reflexivity|].
    split; [simpl; lia|]. split; [constructor; assumption|].
    simpl. rewrite Hhi, Hlo, Hc1, Hc2, Hhex. reflexivity.
Qed.

(** X2.  What [FromHex] decodes is a byte array of half the length of the
    string, and writing it back with [ToHex] gives the string again, in the
    case [ToHex] writes. *)
Theorem ToHex_FromHex (g_bLowerCase : bool) (szHex : wstring)
  (data : ByteArray) :
  FromHex szHex = (true, data) ->
  (2 * length data)%nat = length szHex
  /\ Forall is_byte data
  /\ ToHex g_bLowerCase data = map (to_case g_bLowerCase) szHex.
Proof.
  unfold FromHex.
  destruct (Nat.eqb_spec (length szHex mod 2) 0) as [Heven|]; [|discriminate].
  destruct (FromHex_loop _ szHex []) as [result|] eqn:Hloop; [|discriminate].
  intros [= <-].
  assert (length szHex = (2 * (length szHex / 2))%nat) as Hlen.
  { pose proof (Nat.div_mod_eq (length szHex) 2). lia. }
  destruct (FromHex_loop_Some g_bLowerCase _ _ _ _ Hlen Hloop)
    as [data [-> [Hn [Hbytes Hhex]]]].
  simpl. split; [lia|]. split; assumption.
Qed.

Lemma ToHex_FromHex_witness :
  FromHex (W "0aFf") = (true, [10; 255])
  /\ ToHex true [10; 255] = map (to_case true) (W "0aFf")
  /\ ToHex false [10; 255] = map (to_case false) (W "0aFf").
Proof.
  assert (FromHex (W "0aFf") = (true, [10; 255])) as Hdec by reflexivity.
  split; [exact Hdec|]. split.
  - exact (proj2 (proj2 (ToHex_FromHex true _ _ Hdec))).
  - exact (proj2 (proj2 (ToHex_FromHex false _ _ Hdec))).
Defined.

(** ** The [Hash] facade, identifiers and sizes *)

Lemma GetHash_class_nocase (USE_STREEBOG : bool) (szHashId : wstring)
  (c : HashClass) :
  GetHash_class USE_STREEBOG szHashId = Some c ->
  _wcsicmp szHashId (GetID c) = 0.
Proof.
  unfold GetHash_class.
  repeat match goal with
         | |- context [_wcsicmp szHashId ?id =? 0] =>
             destruct (Z.eqb_spec (_wcsicmp szHashId id) 0)
         end; simpl; try (intros [= <-]; assumption).
  all: destruct USE_STREEBOG; simpl; try discriminate;
    intros [= <-]; assumption.
Qed.

Lemma GetHash_class_IsHashId (USE_STREEBOG : bool) (szHashId : wstring)
  (c : HashClass) :
  GetHash_class USE_STREEBOG szHashId = Some c -> IsHashId szHashId = true.
Proof.
  unfold GetHash_class, IsHashId.
  repeat match goal with
         | |- context [_wcsicmp szHashId ?id =? 0] =>
             destruct (_wcsicmp szHashId id =? 0)
         end; simpl; try reflexivity; try discriminate.
  all: destruct USE_STREEBOG; discriminate.
Qed.

Section IdentifierProperties.
Context `{Primitives}.

(** X3.  When Streebog is compiled in, [GetHash] builds an engine exactly
    for the strings [IsHashId] accepts; in every build the identifier of
    the engine is the string up to the case of its letters, and the
    identifier of an engine gives an engine of the same class back. *)
Theorem GetHash_identifiers (szHashId : wstring) :
  (IsHashId szHashId = true <-> is_Some (GetHash true szHashId))
  /\ (forall USE_STREEBOG hash,
        GetHash USE_STREEBOG szHashId = Some hash ->
        _wcsicmp szHashId (GetID (hash_class hash)) = 0)
  /\ (forall c : HashClass,
        hash_class <$> GetHash true (GetID c) = Some c).
Proof.
  split; [|split].
  - split.
    + intros Hid. destruct (GetHash_of_IsHashId szHashId Hid) as [hash Hh].
      rewrite Hh. eauto.
    + intros [hash Hh]. unfold GetHash in Hh.
      destruct (GetHash_class true szHashId) as [c|] eqn:Hc; [|discriminate].
      exact (GetHash_class_IsHashId _ _ _ Hc).
  - intros U hash Hh. unfold GetHash in Hh.
    destruct (GetHash_class U szHashId) as [c|] eqn:Hc; [|discriminate].
    injection Hh as <-. exact (GetHash_class_nocase _ _ _ Hc).
  - intros c. unfold GetHash.
    rewrite GetHash_class_GetID by (left; reflexivity). reflexivity.
Qed.

(** X5.  [IsHashIdCombination], the test of the command line, accepts the
    empty string and otherwise exactly the strings for which [GetHashes]
    returns engines. *)
Theorem IsHashIdCombination_GetHashes (szHashId : wstring) :
  IsHashIdCombination szHashId = true
  <-> szHashId = [] \/ GetHashes true szHashId <> [].
Proof.
  rewrite IsHashIdCombination_spec, GetHashes_spec, orb_true_iff,
    bool_decide_eq_true.
  destruct (forallb IsHashId (split_commas szHashId)) eqn:Hall.
  - split; [|auto]. intros _. right. intros Hnil.
    apply forallb_Forall_true in Hall.
    pose proof (omap_GetHash_Forall2 _ Hall) as Hengines.
    rewrite Hnil in Hengines. apply Forall2_length in Hengines.
    apply (split_commas_not_nil szHashId).
    destruct (split_commas szHashId); [reflexivity|discriminate].
  - split; intros [Hempty|Hmore]; auto; try discriminate.
Qed.
End IdentifierProperties.

(** X4.  The digest lengths [IsHashSize] accepts are the digest sizes of
    the engines, no more and no less. *)
Theorem IsHashSize_GetHashSize (size : Z) :
  IsHashSize size = true <-> exists c : HashClass, GetHashSize c = size.
Proof.
  split.
  - unfold IsHashSize. rewrite !orb_true_iff, !Z.eqb_eq.
    intros [[[[->| ->]| ->]| ->]| ->].
    + exists Md5Cng. reflexivity.
    + exists Sha1Cng. reflexivity.
    + exists Sha256Cng. reflexivity.
    + exists Sha384Cng. reflexivity.
    + exists Sha512Cng. reflexivity.
  - intros [c <-]. destruct c; reflexivity.
Qed.

(** ** Checksum lines, written and read *)

Lemma FromHex_of_ToHex (lower : bool) (data : ByteArray) :
  Forall is_byte data -> FromHex (ToHex lower data) = (true, data).
Proof.
  intros Hdata. unfold FromHex. rewrite ToHex_length.
  replace ((2 * length data) mod 2 =? 0)%nat with true.
  2:{ symmetry. apply Nat.eqb_eq. rewrite Nat.mul_comm. apply Nat.Div0.mod_mul. }
  replace (2 * length data / 2)%nat with (length data).
  2:{ rewrite Nat.mul_comm, Nat.div_mul; lia. }
  rewrite FromHex_loop_ToHex by assumption. reflexivity.
Qed.

Lemma ToHex_char_not_space (lower : bool) (b : Z) :
  0 <= b <= 15 -> ToHex_char lower b <> space.
Proof.
  intros Hb.
  assert (b = 0 \/ b = 1 \/ b = 2 \/ b = 3 \/ b = 4 \/ b = 5 \/ b = 6 \/ b = 7
          \/ b = 8 \/ b = 9 \/ b = 10 \/ b = 11 \/ b = 12 \/ b = 13 \/ b = 14
          \/ b = 15) as Hcases by lia.
  destruct lower;
    repeat (destruct Hcases as [-> | Hcases]; [discriminate|]);
    subst b; discriminate.
Qed.

Lemma ToHex_no_space (lower : bool) (data : ByteArray) :
  Forall is_byte data -> Forall (fun c => c <> space) (ToHex lower data).
Proof.
  induction 1 as [|b data Hb Hdata IH]; simpl; [constructor|].
  rewrite (high_nibble b Hb), (low_nibble b Hb).
  unfold is_byte in Hb.
  constructor; [|constructor; [|exact IH]]; apply ToHex_char_not_space.
  - split; [apply Z.div_pos; lia|].
    apply Z.lt_succ_r, Z.div_lt_upper_bound; lia.
  - pose proof (Z.mod_pos_bound b 16). lia.
Qed.

Lemma wcschr_app (pre rest : wstring) (c : Z) :
  Forall (fun x => x <> c) pre ->
  wcschr (pre ++ c :: rest) c = Some (c :: rest).
Proof.
  induction 1 as [|x pre Hx Hpre IH]; simpl.
  - rewrite Z.eqb_refl. reflexivity.
  - destruct (Z.eqb_spec x c); [contradiction|exact IH].
Qed.

Lemma chomp_snoc (s : wstring) : chomp (s ++ [newline]) = s.
Proof.
  unfold chomp. rewrite last_snoc. simpl.
  rewrite length_app. simpl.
  replace (length s + 1 - 1)%nat with (length s) by lia.
  apply take_app_length.
Qed.

Lemma skip_spaces_blanks (k : nat) (c : Z) :
  skip_spaces (repeat space k ++ [c]) = [c].
Proof.
  induction k as [|k IH]; simpl.
  - destruct (c =? space); reflexivity.
  - replace (not_at_last (space :: repeat space k ++ [c])) with true.
    + simpl. exact IH.
    + unfold not_at_last. simpl length. rewrite length_app. simpl.
      symmetry. apply negb_true_iff, Nat.eqb_neq. lia.
Qed.

Lemma skip_spaces_stays (ptr : wstring) :
  deref ptr <> space -> skip_spaces ptr = ptr.
Proof.
  destruct ptr as [|c ptr]; simpl; [reflexivity|]. intros Hc.
  destruct (Z.eqb_spec c space); [contradiction|].
  rewrite andb_false_r. reflexivity.
Qed.

(** A line made of a digest in hexadecimal, blanks, and a path of two code
    units or more that begins neither with a blank nor with an asterisk. *)
Lemma ParseSumFile_line_written (g_inputDirPath : wstring)
  (normalizePath lower : bool) (digestLen : nat) (digest : ByteArray) (path : wstring) :
  Forall is_byte digest ->
  (digestLen = O /\ IsHashSize (Z.of_nat (length digest)) = true
   \/ digestLen <> O /\ digestLen = length digest) ->
  (2 <= length path)%nat ->
  deref path <> space -> deref path <> asterisk ->
  ParseSumFile_line g_inputDirPath normalizePath digestLen
    (ToHex lower digest ++ W "  " ++ path)
  = Some (stored_name g_inputDirPath normalizePath (replace_slashes path),
          digest).
Proof.
  intros Hbytes Hsize Hlen Hblank Hstar. unfold ParseSumFile_line.
  change (W "  " ++ path) with (space :: space :: path).
  rewrite (wcschr_app _ _ _ (ToHex_no_space lower digest Hbytes)).
  cbv zeta.
  replace (take _ (ToHex lower digest ++ space :: space :: path))
    with (ToHex lower digest).
  2:{ rewrite length_app. simpl.
      replace (length (ToHex lower digest) + S (S (length path))
               - S (S (length path)))%nat
        with (length (ToHex lower digest)) by lia.
      rewrite take_app_length. reflexivity. }
  simpl tl.
  assert (skip_spaces (space :: path) = path) as ->.
  { simpl. unfold not_at_last. simpl.
    destruct path as [|c path]; [simpl in Hlen; lia|]. simpl length.
    simpl. change (skip_spaces (c :: path) = c :: path).
    apply skip_spaces_stays. exact Hblank. }
  assert (not_at_last path = true) as Hlast.
  { unfold not_at_last. apply negb_true_iff, Nat.eqb_neq. lia. }
  rewrite Hlast. simpl andb.
  destruct (Z.eqb_spec (deref path) asterisk); [contradiction|].
  rewrite Hlast, (FromHex_of_ToHex lower digest Hbytes).
  replace (negb (digestLen =? 0)%nat && (digestLen =? length digest)%nat
           || (digestLen =? 0)%nat && IsHashSize (Z.of_nat (length digest)))
    with true.
  2:{ symmetry. destruct Hsize as [[-> Hs]|[Hnz Heq]].
      - rewrite Hs. reflexivity.
      - apply orb_true_iff. left. apply andb_true_iff. split.
        + apply negb_true_iff, Nat.eqb_neq. exact Hnz.
        + apply Nat.eqb_eq. exact Heq. }
  reflexivity.
Qed.

(** X6.  A line that [ProcessFile] or [SortSumFile] writes for a digest of
    a known size and a path is read back by the parser as that digest and
    that path (its slashes turned), when the path has two code units or
    more and begins neither with a blank nor with an asterisk. *)
Theorem ParseSumFile_line_of_sum_line (g_inputDirPath : wstring)
  (g_bLowerCase : bool) (digest : ByteArray) (szFilePath : wstring) :
  Forall is_byte digest ->
  IsHashSize (Z.of_nat (length digest)) = true ->
  (2 <= length szFilePath)%nat ->
  deref szFilePath <> space -> deref szFilePath <> asterisk ->
  ParseSumFile_line g_inputDirPath false 0
    (chomp (ProcessFile_sum_line g_bLowerCase false 0 digest szFilePath))
  = Some (replace_slashes szFilePath, digest).
Proof.
  intros Hbytes Hsize Hlen Hblank Hstar. unfold ProcessFile_sum_line.
  rewrite !app_assoc, chomp_snoc, <- app_assoc.
  rewrite (ParseSumFile_line_written g_inputDirPath false g_bLowerCase 0
             digest szFilePath Hbytes); auto.
Qed.

Lemma ParseSumFile_line_of_sum_line_witness :
  ParseSumFile_line [] false 0
    (chomp (ProcessFile_sum_line false false 0 md5_a (W "root\dir\a.txt")))
  = Some (replace_slashes (W "root\dir\a.txt"), md5_a).
Proof.
  apply ParseSumFile_line_of_sum_line.
  - repeat constructor; unfold is_byte; lia.
  - reflexivity.
  - simpl. lia.
  - discriminate.
  - discriminate.
Defined.

(** X7.  A line whose path is a single code unit is rejected, whatever
    comes before the blanks: the path of a checksum line has two code units
    at least. *)
Theorem ParseSumFile_line_short_path (g_inputDirPath : wstring)
  (normalizePath : bool) (digestLen : nat) (hex : wstring) (blanks : nat)
  (c : Z) :
  Forall (fun x => x <> space) hex ->
  ParseSumFile_line g_inputDirPath normalizePath digestLen
    (hex ++ repeat space (S blanks) ++ [c]) = None.
Proof.
  intros Hhex. unfold ParseSumFile_line. simpl repeat.
  change ((space :: repeat space blanks) ++ [c])
    with (space :: (repeat space blanks ++ [c])).
  rewrite (wcschr_app _ _ _ Hhex). cbv zeta. simpl tl.
  rewrite skip_spaces_blanks. reflexivity.
Qed.

Lemma ParseSumFile_line_short_path_witness :
  ParseSumFile_line [] false 0 (ToHex false md5_a ++ W "  a") = None.
Proof.
  apply (ParseSumFile_line_short_path [] false 0 (ToHex false md5_a) 1 97).
  repeat constructor; discriminate.
Defined.



(** ** The table that [ParseSumFile] builds *)

Section SumTableProperties.
Variable g_inputDirPath : wstring.
Variable normalizePath : bool.

(** What holds of the table and of the digest length at every turn of the
    loop is kept by the loop. *)
Lemma ParseSumFile_loop_invariant
  (I : nat -> gmap (list Z) HashResultEntry -> Prop) :
  (forall digestLen digestList szLine entryName digest,
      I digestLen digestList ->
      ParseSumFile_line g_inputDirPath normalizePath digestLen szLine
      = Some (entryName, digest) ->
      I (length digest) (set_digest digestList entryName digest)) ->
  forall lines lineNumber digestLen digestList skippedLines,
    I digestLen digestList ->
    exists digestLen',
      I digestLen'
        (snd (fst (ParseSumFile_loop g_inputDirPath normalizePath lines
                     lineNumber digestLen digestList skippedLines))).
Proof.
  intros Hstep. induction lines as [|line rest IH];
    intros lineNumber digestLen digestList skippedLines HI; simpl.
  - exists digestLen. exact HI.
  - destruct (length (chomp line) =? 0)%nat; [apply IH; exact HI|].
    destruct (ParseSumFile_line _ _ _ _) as [[entryName digest]|] eqn:Hline.
    + apply IH. exact (Hstep _ _ _ _ _ HI Hline).
    + destruct (lineNumber + 1 >? 1); [apply IH; exact HI|].
      exists digestLen. exact HI.
Qed.

Lemma ParseSumFile_invariant
  (I : nat -> gmap (list Z) HashResultEntry -> Prop)
  (f : option (list (list Z)))
  (digestList0 digestList : gmap (list Z) HashResultEntry)
  (skippedLines0 skippedLines : list Z) :
  I O ∅ ->
  (forall digestLen digestList szLine entryName digest,
      I digestLen digestList ->
      ParseSumFile_line g_inputDirPath normalizePath digestLen szLine
      = Some (entryName, digest) ->
      I (length digest) (set_digest digestList entryName digest)) ->
  ParseSumFile g_inputDirPath normalizePath f digestList0 skippedLines0
  = (true, digestList, skippedLines) ->
  digestList <> ∅ /\ exists digestLen, I digestLen digestList.
Proof.
  intros Hstart Hstep. unfold ParseSumFile.
  destruct f as [lines|]; [|discriminate].
  destruct (ParseSumFile_loop_invariant I Hstep lines 0 O ∅ [] Hstart)
    as [digestLen HI].
  destruct (ParseSumFile_loop _ _ _ _ _ _ _) as [[bFailed dl] sk].
  simpl in HI. destruct bFailed; [discriminate|].
  destruct (decide (dl = ∅)) as [Hempty|Hsome].
  - rewrite (bool_decide_eq_true_2 _ Hempty). discriminate.
  - rewrite (bool_decide_eq_false_2 _ Hsome). intros [= <- _].
    split; [exact Hsome|]. exists digestLen. exact HI.
Qed.

Lemma set_digest_lookup (digestList : gmap (list Z) HashResultEntry)
  (entryName p : wstring) (digest : ByteArray) (e : HashResultEntry) :
  set_digest digestList entryName digest !! p = Some e ->
  p = entryName
  /\ e = mkHashResultEntry
           (m_hashName (default HashResultEntry_new
                          (digestList !! entryName)))
           digest
           (m_processed (default HashResultEntry_new
                           (digestList !! entryName)))
  \/ p <> entryName /\ digestList !! p = Some e.
Proof.
  unfold set_digest. destruct (decide (p = entryName)) as [->|Hne].
  - rewrite lookup_insert_eq. intros [= <-]. left. split; reflexivity.
  - rewrite lookup_insert_ne by congruence. intros Hp. right.
    split; assumption.
Qed.

(** The path of an accepted line: what follows the blanks, with its
    slashes turned and the input directory put in front where the parser
    does so. *)
Lemma ParseSumFile_line_name (digestLen : nat) (szLine entryName : wstring)
  (digest : ByteArray) :
  ParseSumFile_line g_inputDirPath normalizePath digestLen szLine
  = Some (entryName, digest) ->
  exists ptr,
    length ptr <> 1%nat
    /\ entryName
       = stored_name g_inputDirPath normalizePath (replace_slashes ptr).
Proof.
  unfold ParseSumFile_line.
  destruct (wcschr szLine space) as [at_space|]; [|discriminate].
  cbv zeta.
  match goal with
  | |- context [not_at_last ?p] =>
      match p with
      | (if _ then _ else _) => set (ptr := p)
      end
  end.
  destruct (not_at_last ptr) eqn:Hlast; [|discriminate].
  destruct (FromHex _) as [[|] d]; [|discriminate].
  destruct (_ || _); [|discriminate].
  intros [= <- _]. exists ptr. split; [|reflexivity].
  unfold not_at_last in Hlast.
  apply negb_true_iff, Nat.eqb_neq in Hlast. exact Hlast.
Qed.

Lemma ParseSumFile_table_entries (f : option (list (list Z)))
  (digestList0 digestList : gmap (list Z) HashResultEntry)
  (skippedLines0 skippedLines : list Z) :
  ParseSumFile g_inputDirPath normalizePath f digestList0 skippedLines0
  = (true, digestList, skippedLines) ->
  digestList <> ∅
  /\ exists size : nat,
      IsHashSize (Z.of_nat size) = true
      /\ forall p e,
          digestList !! p = Some e ->
          length (m_digest e) = size
          /\ m_processed e = false /\ m_hashName e = [].
Proof.
  intros Hparse.
  pose (I := fun (digestLen : nat) (dl : gmap (list Z) HashResultEntry) =>
               (digestLen = O /\ dl = ∅)
               \/ (IsHashSize (Z.of_nat digestLen) = true
                   /\ forall p e,
                       dl !! p = Some e ->
                       length (m_digest e) = digestLen
                       /\ m_processed e = false /\ m_hashName e = [])).
  destruct (ParseSumFile_invariant I f digestList0 digestList skippedLines0
              skippedLines) as [Hsome [size HI]]; [| |exact Hparse|].
  - left. split; reflexivity.
  - intros digestLen dl szLine entryName digest Hdl Hline. right.
    apply ParseSumFile_line_length in Hline.
    destruct Hdl as [[-> ->]|[Hsize Hentries]].
    + destruct Hline as [[_ Hsize]|[Hnz _]]; [|contradiction].
      split; [exact Hsize|]. intros p e Hp.
      apply set_digest_lookup in Hp as [[_ ->]|[_ Hp]].
      * rewrite lookup_empty. simpl. auto.
      * rewrite lookup_empty in Hp. discriminate.
    + pose proof (IsHashSize_nonzero _ Hsize) as Hnz.
      assert (length digest = digestLen) as Hlen
          by (destruct Hline as [[Hlen _]|[_ Hlen]]; auto).
      rewrite Hlen. split; [exact Hsize|]. intros p e Hp.
      apply set_digest_lookup in Hp as [[_ ->]|[_ Hp]].
      * simpl. split; [exact Hlen|].
        destruct (dl !! entryName) as [e0|] eqn:He0; simpl.
        -- destruct (Hentries _ _ He0) as (_ & Hproc & Hname). auto.
        -- auto.
      * exact (Hentries _ _ Hp).
  - split; [exact Hsome|]. destruct HI as [[_ Hempty]|[Hsize Hentries]].
    + contradiction.
    + exists size. split; assumption.
Qed.

(** X9.  When [ParseSumFile] succeeds the table is not empty, all its
    digests have one and the same size, which is the digest size of one of
    the supported algorithms, and no entry is marked as processed or
    carries a hash name. *)
Theorem ParseSumFile_entries (f : option (list (list Z)))
  (digestList0 digestList : gmap (list Z) HashResultEntry)
  (skippedLines0 skippedLines : list Z) :
  ParseSumFile g_inputDirPath normalizePath f digestList0 skippedLines0
  = (true, digestList, skippedLines) ->
  digestList <> ∅
  /\ exists size : nat,
      IsHashSize (Z.of_nat size) = true
      /\ forall p e,
          digestList !! p = Some e ->
          length (m_digest e) = size
          /\ m_processed e = false /\ m_hashName e = [].
Proof. apply ParseSumFile_table_entries. Qed.

(** X10.  When [ParseSumFile] succeeds no path of the table holds a
    forward slash, the input directory holding none, and with
    [normalizePath] every path of the table begins with the input
    directory, up to case. *)
Theorem ParseSumFile_paths (f : option (list (list Z)))
  (digestList0 digestList : gmap (list Z) HashResultEntry)
  (skippedLines0 skippedLines : list Z) :
  ParseSumFile g_inputDirPath normalizePath f digestList0 skippedLines0
  = (true, digestList, skippedLines) ->
  forall p e,
    digestList !! p = Some e ->
    (slash ∉ g_inputDirPath -> slash ∉ p)
    /\ (normalizePath = true ->
        (length g_inputDirPath <= length p)%nat
        /\ _wcsicmp g_inputDirPath (take (length g_inputDirPath) p) = 0).
Proof.
  intros Hparse.
  pose (Q := fun p : list Z =>
               (slash ∉ g_inputDirPath -> slash ∉ p)
               /\ (normalizePath = true ->
                   (length g_inputDirPath <= length p)%nat
                   /\ _wcsicmp g_inputDirPath
                        (take (length g_inputDirPath) p) = 0)).
  pose (I := fun (_ : nat) (dl : gmap (list Z) HashResultEntry) =>
               forall p e, dl !! p = Some e -> Q p).
  destruct (ParseSumFile_invariant I f digestList0 digestList skippedLines0
              skippedLines) as [_ [size HI]]; [| |exact Hparse|exact HI].
  - intros p e Hp. rewrite lookup_empty in Hp. discriminate.
  - intros digestLen dl szLine entryName digest Hdl Hline p e Hp.
    apply set_digest_lookup in Hp as [[-> _]|[_ Hp]]; [|exact (Hdl _ _ Hp)].
    apply ParseSumFile_line_name in Hline as (ptr & _ & ->).
    assert (slash ∉ replace_slashes ptr) as Hturned.
    { unfold replace_slashes. intros Hin.
      apply list_elem_of_fmap in Hin as (c & Hc & _).
      destruct (Z.eqb_spec c slash); [discriminate|congruence]. }
    unfold Q, stored_name, substr. rewrite drop_0.
    destruct normalizePath; simpl.
    + destruct (Nat.eqb_spec (length g_inputDirPath) 0) as [Hz|Hnz]; simpl.
      * split; [auto|]. intros _.
        destruct g_inputDirPath; [|discriminate]. simpl. split; [lia|].
        reflexivity.
      * destruct (Nat.ltb_spec (length (replace_slashes ptr))
                    (length g_inputDirPath)) as [Hshort|Hlong]; simpl.
        -- split.
           ++ intros Hdir Hin. apply elem_of_app in Hin as [Hin|Hin]; auto.
           ++ intros _. rewrite length_app. split; [lia|].
              rewrite take_app_length. apply wcsicmp_refl.
        -- destruct (Z.eqb_spec (_wcsicmp g_inputDirPath
                                   (take (length g_inputDirPath)
                                      (replace_slashes ptr))) 0)
             as [Hsame|Hother]; simpl.
           ++ split; [auto|]. intros _. split; [exact Hlong|exact Hsame].
           ++ split.
              ** intros Hdir Hin.
                 apply elem_of_app in Hin as [Hin|Hin]; auto.
              ** intros _. rewrite length_app. split; [lia|].
                 rewrite take_app_length. apply wcsicmp_refl.
    + split; [auto|discriminate].
Qed.
End SumTableProperties.

Lemma ParseSumFile_entries_witness :
  let digestList : gmap (list Z) HashResultEntry :=
    {[ W "dir\ab.txt" := mkHashResultEntry [] md5_b false ]} in
  ParseSumFile [] true (Some example_sum_file) ∅ []
  = (true, digestList, [3; 4])
  /\ digestList <> ∅
  /\ exists size : nat,
      IsHashSize (Z.of_nat size) = true
      /\ forall p e,
          digestList !! p = Some e ->
          length (m_digest e) = size
          /\ m_processed e = false /\ m_hashName e = [].
Proof.
  intros digestList.
  assert (ParseSumFile [] true (Some example_sum_file) ∅ []
          = (true, digestList, [3; 4])) as Hparse by (vm_compute; reflexivity).
  split; [exact Hparse|].
  exact (ParseSumFile_entries [] true (Some example_sum_file) ∅ digestList []
           [3; 4] Hparse).
Defined.

Lemma ParseSumFile_paths_witness :
  let digestList : gmap (list Z) HashResultEntry :=
    {[ W "root\dir\ab.txt" := mkHashResultEntry [] md5_b false ]} in
  ParseSumFile (W "root\") true (Some example_sum_file) ∅ []
  = (true, digestList, [3; 4])
  /\ forall p e,
      digestList !! p = Some e ->
      (slash ∉ W "root\" -> slash ∉ p)
      /\ (true = true ->
          (length (W "root\") <= length p)%nat
          /\ _wcsicmp (W "root\") (take (length (W "root\")) p) = 0).
Proof.
  intros digestList.
  assert (ParseSumFile (W "root\") true (Some example_sum_file) ∅ []
          = (true, digestList, [3; 4])) as Hparse by (vm_compute; reflexivity).
  split; [exact Hparse|].
  exact (ParseSumFile_paths (W "root\") true (Some example_sum_file) ∅
           digestList [] [3; 4] Hparse).
Defined.

Lemma GetHash_identifiers_witness :
  @GetHash transcript false (W "sha256") = Some (@Hash_new transcript Sha256Cng)
  /\ _wcsicmp (W "sha256") (GetID Sha256Cng) = 0.
Proof.
  assert (@GetHash transcript false (W "sha256")
          = Some (@Hash_new transcript Sha256Cng)) as Hget
      by (vm_compute; reflexivity).
  split; [exact Hget|].
  destruct (@GetHash_identifiers transcript (W "sha256")) as (_ & Hid & _).
  exact (Hid false _ Hget).
Defined.

(** ** The walk as a whole *)

Section WalkInduction.
Variable PathMatchSpec : wstring -> wstring -> bool.
Variable g : Globals.
Variable bSumMode : bool.

(** Once set, [g_sumFileSkipped] stays set through the enumeration. *)
Lemma enumerate_skipped (dirPath : CPath) (verifying : bool)
  (found : list (Node * (CPath -> WalkState -> Z * list Trace * WalkState)))
  (skipped : bool) :
  skipped = true ->
  snd (enumerate g bSumMode dirPath verifying found skipped) = true.
Proof.
  intros ->. induction found as [|[ffd walk] rest IH]; [reflexivity|].
  simpl. rewrite andb_false_r.
  destruct (enumerate g bSumMode dirPath verifying rest true)
    as [dirContent skipped'].
  simpl in IH. subst skipped'.
  repeat match goal with
         | |- context [if ?c then _ else _] => destruct c
         end; reflexivity.
Qed.

(** The walkers of [dirContent] are walkers of the entries found. *)
Lemma enumerate_walkers (dirPath : CPath) (verifying : bool)
  (Q : (CPath -> WalkState -> Z * list Trace * WalkState) -> Prop)
  (found : list (Node * (CPath -> WalkState -> Z * list Trace * WalkState)))
  (skipped : bool) :
  Forall (fun x => Q (snd x)) found ->
  Forall (fun x => Q (snd x))
    (fst (enumerate g bSumMode dirPath verifying found skipped)).
Proof.
  intros HQ. revert skipped.
  induction HQ as [|[ffd walk] rest Hwalk HQ IH]; intros skipped;
    [constructor|].
  simpl.
  pose proof (IH skipped) as IH1. pose proof (IH true) as IH2.
  destruct (enumerate g bSumMode dirPath verifying rest skipped)
    as [dirContent1 skipped1].
  destruct (enumerate g bSumMode dirPath verifying rest true)
    as [dirContent2 skipped2].
  simpl in *.
  repeat match goal with
         | |- context [if ?c then _ else _] => destruct c
         end; simpl; try constructor; assumption.
Qed.

(** Induction on a walk: [P] is shown of [HashFile] and [HashDirectory],
    [F] of the loop over the entries of a directory. *)
Variable P F : WalkState -> Z * list Trace * WalkState -> Prop.
Hypothesis P_file : forall filePath openable st,
  P st (HashFile PathMatchSpec g bSumMode filePath openable st).
Hypothesis P_excluded : forall st, P st (0, [], st).
Hypothesis P_error : forall st skipped dirPath dwError,
  (g_sumFileSkipped st = true -> skipped = true) ->
  P st (if g_bSkipError g then 0 else dwError, [TDir dirPath []],
        mkWalkState skipped (g_bMismatchFound st) (digestList st)).
Hypothesis P_listed : forall st skipped dirPath dwError done st',
  (g_sumFileSkipped st = true -> skipped = true) ->
  F (mkWalkState skipped (g_bMismatchFound st) (digestList st))
    (dwError, done, st') ->
  P st (dwError, [TDir dirPath done], st').
Hypothesis F_nil : forall st, F st (0, [], st).
Hypothesis F_next : forall st done st' dwError' done' st'',
  P st (0, done, st') -> F st' (dwError', done', st'') ->
  F st (dwError', done ++ done', st'').
Hypothesis F_stop : forall st dwError done st',
  dwError <> 0 -> P st (dwError, done, st') -> F st (dwError, done, st').

Lemma HashDirectory_for_walk_ind
  (dirContent :
     list (CDirContent * (CPath -> WalkState -> Z * list Trace * WalkState)))
  (st : WalkState) :
  Forall (fun x => forall path st', P st' (snd x path st')) dirContent ->
  F st (HashDirectory_for dirContent st).
Proof.
  intros Hall. revert st.
  induction Hall as [|[it walk] rest Hwalk Hall IH]; intros st; simpl.
  - apply F_nil.
  - specialize (Hwalk (m_szPath it) st). simpl in Hwalk.
    destruct (walk (m_szPath it) st) as [[dwError done] st'].
    destruct (Z.eqb_spec dwError 0) as [->|Hne].
    + specialize (IH st').
      destruct (HashDirectory_for rest st') as [[dwError' done'] st''].
      exact (F_next _ _ _ _ _ _ Hwalk IH).
    + exact (F_stop _ _ _ _ Hne Hwalk).
Qed.

Lemma HashNode_walk_ind (n : Node) (path : CPath) (st : WalkState) :
  P st (HashNode PathMatchSpec g bSumMode n path st).
Proof.
  revert path st. induction n as [name r openable|name r ff entries fn IH]
    using Node_nested_ind; intros path st.
  - apply P_file.
  - rewrite HashNode_DirNode. unfold HashDirectory_body.
    destruct (IsExcludedName _ _ _ _); [apply P_excluded|].
    destruct ff as [dwError|].
    { pose proof (P_error st (g_sumFileSkipped st) path dwError
                    (fun Hs => Hs)) as Herr.
      destruct st as [s m dl]. simpl in Herr.
      destruct (g_bSkipError g); exact Herr. }
    pose proof (enumerate_skipped path
                  (negb (bool_decide (digestList st = ∅)))
                  (map (fun e => (e, HashNode PathMatchSpec g bSumMode e))
                     entries)
                  (g_sumFileSkipped st)) as Hskipped.
    pose proof (enumerate_walkers path
                  (negb (bool_decide (digestList st = ∅)))
                  (fun walk => forall path st', P st' (walk path st'))
                  (map (fun e => (e, HashNode PathMatchSpec g bSumMode e))
                     entries)
                  (g_sumFileSkipped st)) as Hwalkers.
    destruct (enumerate _ _ _ _ _ _) as [dirContent skipped].
    simpl in Hskipped, Hwalkers.
    destruct (negb (fn =? ERROR_NO_MORE_FILES)).
    { pose proof (P_error st skipped path fn Hskipped) as Herr.
      destruct (g_bSkipError g); exact Herr. }
    match goal with
    | |- context [HashDirectory_for ?l ?s] =>
        pose proof (HashDirectory_for_walk_ind l s) as Hfor
    end.
    destruct (HashDirectory_for _ _) as [[dwError done] st'].
    apply (P_listed st skipped path dwError done st' Hskipped).
    apply Hfor.
    rewrite list_sort_Permutation. apply Hwalkers.
    apply Forall_fmap. eapply Forall_impl; [exact IH|].
    intros e He. exact He.
Qed.
End WalkInduction.

Lemma only_marks_refl (digestList : gmap (list Z) HashResultEntry) :
  only_marks digestList digestList.
Proof. intros p. destruct (digestList !! p); auto. Qed.

Lemma only_marks_trans (dl1 dl2 dl3 : gmap (list Z) HashResultEntry) :
  only_marks dl1 dl2 -> only_marks dl2 dl3 -> only_marks dl1 dl3.
Proof.
  intros H12 H23 p. specialize (H12 p). specialize (H23 p).
  destruct (dl1 !! p) as [e1|], (dl2 !! p) as [e2|], (dl3 !! p) as [e3|];
    try contradiction; auto.
  destruct H12 as (Hn12 & Hd12 & Hp12), H23 as (Hn23 & Hd23 & Hp23).
  repeat split; [congruence|congruence|auto].
Qed.

Lemma only_marks_insert (digestList : gmap (list Z) HashResultEntry)
  (p : list Z) (e : HashResultEntry) :
  digestList !! p = Some e ->
  only_marks digestList
    (<[p := mkHashResultEntry (m_hashName e) (m_digest e) true]> digestList).
Proof.
  intros Hp q. destruct (decide (q = p)) as [->|Hne].
  - rewrite lookup_insert_eq, Hp. simpl. auto.
  - rewrite lookup_insert_ne by congruence. destruct (digestList !! q); auto.
Qed.

Section WalkProperties.
Variable PathMatchSpec : wstring -> wstring -> bool.
Variable g : Globals.
Variable bSumMode : bool.

Lemma HashNode_only_marks (n : Node) (path : CPath) (st : WalkState) :
  let st' := snd (HashNode PathMatchSpec g bSumMode n path st) in
  only_marks (digestList st) (digestList st')
  /\ (g_sumFileSkipped st = true -> g_sumFileSkipped st' = true).
Proof.
  pose (R := fun (st : WalkState) (r : Z * list Trace * WalkState) =>
               only_marks (digestList st) (digestList (snd r))
               /\ (g_sumFileSkipped st = true ->
                   g_sumFileSkipped (snd r) = true)).
  apply (HashNode_walk_ind PathMatchSpec g bSumMode R R); unfold R; clear R.
  - intros filePath openable st0. unfold HashFile.
    destruct (IsExcludedName _ _ _ _);
      [split; [apply only_marks_refl|auto]|].
    assert (forall st1 : WalkState,
               digestList
                 (snd (if openable then (0, [TFile filePath true], st1)
                       else if g_bSkipError g then
                         (0, [TFile filePath false],
                          if bSumMode
                          then mkWalkState (g_sumFileSkipped st1) true
                                 (digestList st1)
                          else st1)
                       else (to_dword (-1), [TFile filePath false], st1)))
               = digestList st1
               /\ g_sumFileSkipped
                    (snd (if openable then (0, [TFile filePath true], st1)
                          else if g_bSkipError g then
                            (0, [TFile filePath false],
                             if bSumMode
                             then mkWalkState (g_sumFileSkipped st1) true
                                    (digestList st1)
                             else st1)
                          else (to_dword (-1), [TFile filePath false], st1)))
                  = g_sumFileSkipped st1) as Hopen.
    { intros st1. destruct openable; [|destruct (g_bSkipError g)];
        [| destruct bSumMode |]; split; reflexivity. }
    destruct (bSumMode && negb (bool_decide (digestList st0 = ∅))).
    + destruct (digestList st0 !! m_path filePath) as [e|] eqn:He.
      * cbv zeta.
        destruct (Hopen (mkWalkState (g_sumFileSkipped st0)
                           (g_bMismatchFound st0)
                           (<[m_path filePath :=
                               mkHashResultEntry (m_hashName e) (m_digest e)
                                 true]> (digestList st0)))) as [-> ->].
        simpl. split; [apply only_marks_insert; exact He|auto].
      * destruct (g_bSkipError g); simpl;
          (split; [apply only_marks_refl|auto]).
    + cbv zeta. destruct (Hopen st0) as [-> ->].
      split; [apply only_marks_refl|auto].
  - intros st0. split; [apply only_marks_refl|auto].
  - intros st0 skipped dirPath dwError Hs. simpl.
    split; [apply only_marks_refl|exact Hs].
  - intros st0 skipped dirPath dwError done st' Hs [Hmarks Hflag].
    simpl in *. split; [exact Hmarks|auto].
  - intros st0. split; [apply only_marks_refl|auto].
  - intros st0 done st' dwError' done' st'' [Hm1 Hf1] [Hm2 Hf2]. simpl in *.
    split; [eapply only_marks_trans; eassumption|auto].
  - intros st0 dwError done st' _ HR. exact HR.
Qed.

(** X11.  Whatever the tree, the filters and the errors met, the walk
    leaves the checksum table with the same paths, hash names and digests:
    all it does to the table is to mark entries as processed, and the flag
    [g_sumFileSkipped] is never reset. *)
Theorem walker_only_marks (n : Node) (path : CPath) (st : WalkState) :
  let st' := snd (HashNode PathMatchSpec g bSumMode n path st) in
  only_marks (digestList st) (digestList st')
  /\ (g_sumFileSkipped st = true -> g_sumFileSkipped st' = true).
Proof. apply HashNode_only_marks. Qed.

(** X12.  With [-skipError] the walk returns 0, whatever the tree, the
    filters and the errors met. *)
Theorem walker_skipError (n : Node) (path : CPath) (st : WalkState) :
  g_bSkipError g = true ->
  fst (fst (HashNode PathMatchSpec g bSumMode n path st)) = 0.
Proof.
  intros Hskip.
  pose (R := fun (st : WalkState) (r : Z * list Trace * WalkState) =>
               fst (fst r) = 0).
  apply (HashNode_walk_ind PathMatchSpec g bSumMode R R); unfold R; clear R.
  - intros filePath openable st0. unfold HashFile. rewrite Hskip.
    destruct (IsExcludedName _ _ _ _); [reflexivity|].
    destruct (bSumMode && negb (bool_decide (digestList st0 = ∅)));
      [destruct (digestList st0 !! m_path filePath)|];
      try reflexivity; destruct openable; reflexivity.
  - reflexivity.
  - intros st0 skipped dirPath dwError _. rewrite Hskip. reflexivity.
  - intros st0 skipped dirPath dwError done st' _ HF. exact HF.
  - reflexivity.
  - intros st0 done st' dwError' done' st'' _ HF. exact HF.
  - intros st0 dwError done st' Hne HP. simpl in HP. contradiction.
Qed.

Lemma HashNode_marks (n : Node) (path : CPath) (st : WalkState) :
  bSumMode = true -> digestList st <> ∅ ->
  let r := HashNode PathMatchSpec g bSumMode n path st in
  forall p,
    marked (digestList (snd r)) p
    <-> marked (digestList st) p
        \/ p ∈ map m_path (flat_map Trace_files (snd (fst r))).
Proof.
  intros Hsum Hverifying r.
  pose (R := fun (st : WalkState) (r : Z * list Trace * WalkState) =>
               digestList st <> ∅ ->
               digestList (snd r) <> ∅
               /\ forall p,
                   marked (digestList (snd r)) p
                   <-> marked (digestList st) p
                       \/ p ∈ map m_path
                                (flat_map Trace_files (snd (fst r)))).
  assert (forall dl p, marked dl p <-> marked dl p \/ p ∈ @nil (list Z))
    as Hnone.
  { intros dl p. split; [auto|]. intros [Hm|Hin]; [exact Hm|inversion Hin]. }
  refine (proj2 (HashNode_walk_ind PathMatchSpec g bSumMode R R
                   _ _ _ _ _ _ _ n path st Hverifying));
    unfold R; clear R r.
  - intros filePath openable st0 Hne. unfold HashFile.
    destruct (IsExcludedName _ _ _ _); [split; [exact Hne|apply Hnone]|].
    rewrite Hsum, (bool_decide_eq_false_2 _ Hne). simpl andb. cbv iota.
    destruct (digestList st0 !! m_path filePath) as [e|] eqn:He.
    + assert (forall p,
                 marked (<[m_path filePath :=
                            mkHashResultEntry (m_hashName e) (m_digest e)
                              true]> (digestList st0)) p
                 <-> marked (digestList st0) p \/ p ∈ [m_path filePath])
        as Hmark.
      { intros p. unfold marked. destruct (decide (p = m_path filePath))
          as [->|Hp].
        - rewrite lookup_insert_eq. split.
          + intros _. right. apply list_elem_of_here.
          + intros _. eexists. split; reflexivity.
        - rewrite lookup_insert_ne by congruence. split; [auto|].
          intros [Hm|Hin]; [exact Hm|].
          apply list_elem_of_singleton in Hin. contradiction. }
      destruct openable; [|destruct (g_bSkipError g)]; simpl;
        (split; [apply insert_non_empty|exact Hmark]).
    + destruct (g_bSkipError g); simpl; (split; [exact Hne|apply Hnone]).
  - intros st0 Hne. split; [exact Hne|apply Hnone].
  - intros st0 skipped dirPath dwError _ Hne. simpl.
    split; [exact Hne|apply Hnone].
  - intros st0 skipped dirPath dwError done st' _ HF Hne. simpl in *.
    rewrite app_nil_r. exact (HF Hne).
  - intros st0 Hne. split; [exact Hne|apply Hnone].
  - intros st0 done st' dwError' done' st'' HP HF Hne. simpl in *.
    destruct (HP Hne) as [Hne' Hm1]. destruct (HF Hne') as [Hne'' Hm2].
    split; [exact Hne''|]. intros p.
    rewrite flat_map_app, map_app, elem_of_app, Hm2, Hm1. tauto.
  - intros st0 dwError done st' _ HP. exact HP.
Qed.

(** X13.  In a walk that verifies against a checksum table, the entries
    that are marked as processed at the end are those that were marked at
    the start and those of the files the walk tried to open: every file it
    tried to open is in the table and marked, and nothing else is. *)
Theorem walker_marks_tried_files (n : Node) (path : CPath)
  (st : WalkState) :
  bSumMode = true -> digestList st <> ∅ ->
  let r := HashNode PathMatchSpec g bSumMode n path st in
  forall p,
    marked (digestList (snd r)) p
    <-> marked (digestList st) p
        \/ p ∈ map m_path (flat_map Trace_files (snd (fst r))).
Proof. apply HashNode_marks. Qed.


End WalkProperties.

Lemma walker_skipError_witness :
  fst (fst (HashNode ends_with example_skip_errors false example_broken_tree
              example_root (mkWalkState false false ∅))) = 0.
Proof.
  apply (walker_skipError ends_with example_skip_errors false
           example_broken_tree example_root (mkWalkState false false ∅)).
  reflexivity.
Defined.

Lemma walker_marks_tried_files_witness :
  marked
    (digestList
       (snd (HashNode ends_with example_skip_errors true example_broken_tree
               example_root
               (mkWalkState false false
                  (<[W "root\a.txt" := mkHashResultEntry [] md5_a false]> ∅)))))
    (W "root\a.txt").
Proof.
  apply (walker_marks_tried_files ends_with example_skip_errors true
           example_broken_tree example_root
           (mkWalkState false false
              (<[W "root\a.txt" := mkHashResultEntry [] md5_a false]> ∅))).
  - reflexivity.
  - apply insert_non_empty.
  - right. vm_compute. apply list_elem_of_here.
Defined.

(** ** What the enumeration keeps *)

Section EnumerationProperties.
Variable g : Globals.
Variable dirPath : CPath.
Variable walk_of : Node -> CPath -> WalkState -> Z * list Trace * WalkState.

Lemma enumerate_plain (bSumMode verifying : bool) (entries : list Node)
  (skipped : bool) :
  bSumMode = false \/ skipped = true ->
  enumerate g bSumMode dirPath verifying
    (map (fun e => (e, walk_of e)) entries) skipped
  = (map (dirContent_entry dirPath walk_of) (List.filter (listed g) entries),
     skipped).
Proof.
  intros Hplain.
  assert (bSumMode && negb skipped = false) as Hoff.
  { destruct Hplain as [-> | ->]; [reflexivity|apply andb_false_r]. }
  induction entries as [|e entries IH]; [reflexivity|].
  simpl. rewrite IH, Hoff. unfold listed, is_dots.
  destruct e as [name r o|name r ff sub fn]; simpl.
  - destruct (negb (g_bNoFollow g) || negb r); reflexivity.
  - destruct (bool_decide (name = W ".")), (bool_decide (name = W ".."));
      simpl; try reflexivity;
      destruct (negb (g_bNoFollow g) || negb r); reflexivity.
Qed.

Ltac enumerate_case Hsub Hdrop :=
  repeat split; simpl; auto; try lia;
  try (intros [Hf|Hf]; discriminate);
  try (constructor; first [exact Hsub | reflexivity]);
  try (intros Hlt; apply Hdrop; simpl in *; lia);
  try (apply Hdrop; simpl in *; lia);
  try match goal with
      | Hor : _ \/ _ |- _ => destruct Hor; discriminate
      end.

(** X14.  The enumeration of a directory keeps the entries in the order
    found and drops only [.] and [..], reparse points with [-nofollow]
    and, in sum mode while [g_sumFileSkipped] is not set, at most one file;
    dropping that file sets [g_sumFileSkipped].  Outside sum mode, or once
    the flag is set, nothing else is dropped and the flag is left as it
    is. *)
Theorem enumerate_drops (bSumMode verifying : bool) (entries : list Node)
  (skipped : bool) :
  let r :=
    enumerate g bSumMode dirPath verifying
      (map (fun e => (e, walk_of e)) entries) skipped in
  exists es : list Node,
    fst r = map (dirContent_entry dirPath walk_of) es
    /\ sublist es (List.filter (listed g) entries)
    /\ (length (List.filter (listed g) entries) <= length es + 1)%nat
    /\ ((length es < length (List.filter (listed g) entries))%nat ->
        skipped = false /\ bSumMode = true /\ snd r = true)
    /\ (bSumMode = false \/ skipped = true ->
        es = List.filter (listed g) entries /\ snd r = skipped).
Proof.
  cbv zeta. revert skipped.
  induction entries as [|e entries IH]; intros skipped.
  { exists []. simpl. repeat split; auto; try lia. }
  destruct (bSumMode && negb skipped) eqn:Hon.
  2:{ assert (bSumMode = false \/ skipped = true) as Hplain.
      { destruct bSumMode; [right|left; reflexivity].
        destruct skipped; [reflexivity|discriminate]. }
      rewrite (enumerate_plain bSumMode verifying (e :: entries) skipped Hplain).
      exists (List.filter (listed g) (e :: entries)).
      repeat split; auto; lia. }
  apply andb_true_iff in Hon as [-> Hs]. apply negb_true_iff in Hs. subst.
  pose proof (enumerate_plain true verifying entries true (or_intror eq_refl))
    as Hrest.
  destruct (IH false) as (es & Hes & Hsub & Hlen & Hdrop & _).
  simpl. rewrite Hrest.
  destruct (enumerate g true dirPath verifying
              (map (fun e => (e, walk_of e)) entries) false)
    as [dirContent skipped'].
  simpl in Hes, Hdrop. subst dirContent.
  set (rest := List.filter (listed g) entries) in *.
  unfold listed, is_dots.
  destruct e as [name r o|name r ff sub fn]; simpl.
  - destruct (negb (g_bNoFollow g) || negb r); simpl.
    + destruct verifying.
      * destruct (_ =? 0); simpl.
        -- exists rest. enumerate_case Hsub Hdrop.
        -- exists (FileNode name r o :: es). enumerate_case Hsub Hdrop.
      * destruct (bool_decide _); simpl.
        -- exists (FileNode name r o :: rest). enumerate_case Hsub Hdrop.
        -- destruct (_ =? 0); simpl.
           ++ exists rest. enumerate_case Hsub Hdrop.
           ++ exists (FileNode name r o :: es). enumerate_case Hsub Hdrop.
    + exists es. enumerate_case Hsub Hdrop.
  - destruct (bool_decide (name = W ".")); simpl.
    { exists es. enumerate_case Hsub Hdrop. }
    destruct (bool_decide (name = W "..")); simpl.
    { exists es. enumerate_case Hsub Hdrop. }
    destruct (negb (g_bNoFollow g) || negb r); simpl.
    + exists (DirNode name r ff sub fn :: es). enumerate_case Hsub Hdrop.
    + exists es. enumerate_case Hsub Hdrop.
Qed.
End EnumerationProperties.

(** ** A walk without filters and without errors *)

Section WalkComplete.
Variable PathMatchSpec : wstring -> wstring -> bool.
Variable g : Globals.
Hypothesis no_only : onlySpecList g = [].
Hypothesis no_exclude : excludeSpecList g = [].
Hypothesis follow : g_bNoFollow g = false.

Lemma IsExcludedName_no_filter (szName : wstring) (bIsFile : bool) :
  IsExcludedName PathMatchSpec g szName bIsFile = false.
Proof.
  unfold IsExcludedName. rewrite no_only, no_exclude.
  rewrite bool_decide_eq_true_2 by reflexivity.
  rewrite andb_false_r. reflexivity.
Qed.

Lemma tree_files_listed (path : CPath) (entries : list Node) :
  flat_map (fun e => tree_files (AppendName path (cFileName_of e)) e)
    (List.filter (listed g) entries)
  = flat_map (fun e =>
                if is_dots e then []
                else tree_files (AppendName path (cFileName_of e)) e)
      entries.
Proof.
  induction entries as [|e entries IH]; [reflexivity|]. simpl.
  unfold listed at 1. rewrite follow. simpl. rewrite andb_true_r.
  destruct (is_dots e); simpl; rewrite IH; reflexivity.
Qed.

Lemma HashDirectory_for_complete (dirPath : CPath) (es : list Node)
  (st : WalkState) :
  Forall (fun e => forall path st',
              exists done,
                HashNode PathMatchSpec g false e path st' = (0, done, st')
                /\ Permutation (flat_map Trace_files done)
                     (tree_files path e)) es ->
  exists done,
    HashDirectory_for
      (map (dirContent_entry dirPath (HashNode PathMatchSpec g false)) es) st
    = (0, done, st)
    /\ Permutation (flat_map Trace_files done)
         (flat_map (fun e => tree_files (AppendName dirPath (cFileName_of e)) e)
            es).
Proof.
  induction 1 as [|e es He Hes IH]; simpl.
  - exists []. split; [reflexivity|constructor].
  - destruct (He (AppendName dirPath (cFileName_of e)) st)
      as (done & -> & Hdone).
    destruct IH as (done' & -> & Hdone'). simpl.
    exists (done ++ done'). split; [reflexivity|].
    rewrite flat_map_app. apply Permutation_app; assumption.
Qed.

(** X15.  Without [-only], [-exclude] and [-nofollow], outside sum mode
    and on a tree where every directory can be listed and every file can be
    opened, the walk returns 0, leaves the state as it was, and tries every
    file of the tree once and no other file: the files tried are the files
    of the tree, up to the order. *)
Theorem walker_complete (n : Node) (path : CPath) (st : WalkState) :
  all_readable n = true ->
  exists done,
    HashNode PathMatchSpec g false n path st = (0, done, st)
    /\ Permutation (flat_map Trace_files done) (tree_files path n).
Proof.
  revert path st. induction n as [name r openable|name r ff entries fn IH]
    using Node_nested_ind; intros path st Hread.
  - simpl in Hread. subst openable. simpl. unfold HashFile.
    rewrite IsExcludedName_no_filter. simpl.
    exists [TFile path true]. split; [reflexivity|]. simpl. reflexivity.
  - simpl in Hread. apply andb_true_iff in Hread as [Hread Hentries].
    apply andb_true_iff in Hread as [Hff Hfn].
    apply bool_decide_eq_true in Hff. subst ff.
    rewrite HashNode_DirNode. unfold HashDirectory_body.
    rewrite IsExcludedName_no_filter.
    rewrite (enumerate_plain g path (HashNode PathMatchSpec g false) false
               (negb (bool_decide (digestList st = ∅))) entries
               (g_sumFileSkipped st) (or_introl eq_refl)).
    rewrite Hfn. simpl negb. cbv iota.
    rewrite list_sort_map.
    set (sorted := list_sort _ (List.filter (listed g) entries)).
    assert (Permutation sorted (List.filter (listed g) entries)) as Hperm
      by apply list_sort_Permutation.
    assert (Forall (fun e => forall path st',
                        exists done,
                          HashNode PathMatchSpec g false e path st'
                          = (0, done, st')
                          /\ Permutation (flat_map Trace_files done)
                               (tree_files path e)) sorted) as Hsorted.
    { rewrite Hperm. apply Forall_forall. intros e He path' st'.
      apply list_elem_of_In, filter_In in He as [He _].
      apply list_elem_of_In in He.
      rewrite Forall_forall in IH. apply (IH e He).
      apply forallb_Forall_true in Hentries.
      rewrite Forall_forall in Hentries. exact (Hentries e He). }
    destruct (HashDirectory_for_complete path sorted
                (mkWalkState (g_sumFileSkipped st) (g_bMismatchFound st)
                   (digestList st)) Hsorted) as (done & -> & Hdone).
    exists [TDir path done]. destruct st as [s m dl]. simpl.
    split; [reflexivity|]. rewrite app_nil_r, Hdone.
    rewrite <- tree_files_listed. apply Permutation_flat_map. exact Hperm.
Qed.
End WalkComplete.

Lemma walker_complete_witness :
  exists done,
    HashNode ends_with example_globals false example_tree example_root
      (mkWalkState false false ∅)
    = (0, done, mkWalkState false false ∅)
    /\ Permutation (flat_map Trace_files done)
         (tree_files example_root example_tree).
Proof.
  apply (walker_complete ends_with example_globals); reflexivity.
Defined.

(** ** File names and the order of a sorted checksum file *)

Lemma GetFileName_scan_stops (s : wstring) (i k : nat) :
  is_separator (nth i s 0) = true ->
  (forall j, (i < j <= i + k)%nat -> is_separator (nth j s 0) = false) ->
  GetFileName_scan s (i + k) = i.
Proof.
  intros Hsep. induction k as [|k IH]; intros Hfree.
  - rewrite Nat.add_0_r. destruct i as [|i]; [reflexivity|].
    simpl. rewrite Hsep. reflexivity.
  - rewrite Nat.add_succ_r. simpl.
    rewrite (Hfree (S (i + k))) by lia.
    apply IH. intros j Hj. apply Hfree. lia.
Qed.

Lemma GetFileName_scan_start (s : wstring) (k : nat) :
  (forall j, (0 < j <= k)%nat -> is_separator (nth j s 0) = false) ->
  GetFileName_scan s k = O.
Proof.
  induction k as [|k IH]; intros Hfree; [reflexivity|].
  simpl. rewrite (Hfree (S k)) by lia. apply IH.
  intros j Hj. apply Hfree. lia.
Qed.

Lemma nth_separator_free (name : wstring) (i : nat) :
  Forall (fun c => is_separator c = false) name ->
  (i < length name)%nat -> is_separator (nth i name 0) = false.
Proof.
  intros Hname Hi. rewrite Forall_forall in Hname. apply Hname.
  apply list_elem_of_In, nth_In. exact Hi.
Qed.

(** X16.  [GetFileName] returns a path without separators as it is, and
    returns what follows the last separator of a path that does not end
    with one; for a path that ends with a separator it returns what follows
    the separator before, the final separator included. *)
Theorem GetFileName_last_component (dir name : wstring) (sep : Z)
  (trail : wstring) :
  Forall (fun c => is_separator c = false) name ->
  (GetFileName name = name)
  /\ (name <> [] -> is_separator sep = true ->
      trail = [] \/ trail = [backslash] \/ trail = [slash] ->
      GetFileName (dir ++ [sep] ++ name ++ trail) = name ++ trail).
Proof.
  intros Hname. split.
  - unfold GetFileName.
    destruct (Nat.leb_spec (length name) 1) as [|Hlen]; [reflexivity|].
    cbv zeta.
    rewrite (nth_separator_free name (length name - 1) Hname) by lia.
    rewrite GetFileName_scan_start.
    + rewrite (nth_separator_free name 0 Hname) by lia. reflexivity.
    + intros j Hj. apply nth_separator_free; [exact Hname|lia].
  - intros Hne Hsep Htrail. unfold GetFileName.
    set (s := dir ++ [sep] ++ name ++ trail).
    assert (length s = (length dir + 1 + length name + length trail)%nat)
      as Hlen.
    { unfold s. rewrite !length_app. simpl. lia. }
    assert (0 < length name)%nat as Hpos
        by (destruct name; [contradiction|simpl; lia]).
    assert (nth (length dir) s 0 = sep) as Hat.
    { unfold s. rewrite app_nth2 by lia. rewrite Nat.sub_diag. reflexivity. }
    assert (forall j, (length dir < j <= length dir + length name)%nat ->
                      is_separator (nth j s 0) = false) as Hfree.
    { intros j Hj. unfold s. rewrite app_nth2 by lia.
      replace (j - length dir)%nat with (S (j - length dir - 1)) by lia.
      simpl. rewrite app_nth1 by lia.
      apply nth_separator_free; [exact Hname|lia]. }
    destruct (Nat.leb_spec (length s) 1) as [Hshort|_]; [lia|].
    cbv zeta.
    assert ((if is_separator (nth (length s - 1) s 0)
             then (length s - 1 - 1)%nat else (length s - 1)%nat)
            = (length dir + length name)%nat) as ->.
    { destruct Htrail as [->|[->| ->]]; simpl in Hlen.
      - rewrite Hfree by lia. lia.
      - replace (nth (length s - 1) s 0) with backslash; [simpl; lia|].
        unfold s. rewrite app_assoc, (app_assoc _ name).
        rewrite app_nth2; rewrite !length_app; simpl; [|lia].
        replace (_ - _)%nat with O by lia. reflexivity.
      - replace (nth (length s - 1) s 0) with slash; [simpl; lia|].
        unfold s. rewrite app_assoc, (app_assoc _ name).
        rewrite app_nth2; rewrite !length_app; simpl; [|lia].
        replace (_ - _)%nat with O by lia. reflexivity. }
    rewrite (GetFileName_scan_stops s (length dir) (length name));
      [|rewrite Hat; exact Hsep|exact Hfree].
    rewrite Hat, Hsep. unfold s. rewrite (app_assoc dir [sep]).
    rewrite drop_app_length'; [reflexivity|].
    rewrite length_app. simpl. lia.
Qed.

Lemma GetFileName_last_component_witness :
  GetFileName (W "b.txt") = W "b.txt"
  /\ GetFileName (W "c:\root/dir" ++ [backslash] ++ W "b.txt" ++ [])
     = W "b.txt" ++ [].
Proof.
  assert (Forall (fun c => is_separator c = false) (W "b.txt")) as Hname
      by (repeat constructor).
  destruct (GetFileName_last_component (W "c:\root/dir") (W "b.txt")
              backslash [] Hname) as [Hplain Hlast].
  split; [exact Hplain|].
  apply Hlast; [discriminate|reflexivity|left; reflexivity].
Defined.

Lemma countPathDepth_app (a b : wstring) :
  countPathDepth (a ++ b) = countPathDepth a + countPathDepth b.
Proof.
  unfold countPathDepth. rewrite filter_app, length_app. lia.
Qed.

(** X17.  The order of a sorted checksum file, for two paths under the
    same directory: the path with more backslashes comes first, so that the
    files of the subdirectories come before the files of the directory
    itself, and two paths with as many backslashes are ordered as
    [compare_nocase] orders what follows the directory. *)
Theorem SortSumFile_less_under_directory (dir a b : wstring) :
  (countPathDepth b < countPathDepth a ->
   SortSumFile_less (dir ++ a) (dir ++ b) = true
   /\ SortSumFile_less (dir ++ b) (dir ++ a) = false)
  /\ (countPathDepth a = countPathDepth b ->
      SortSumFile_less (dir ++ a) (dir ++ b) = compare_nocase a b).
Proof.
  unfold SortSumFile_less, compare_nocase.
  rewrite !countPathDepth_app, !wcsicmp_app. split.
  - intros Hdeeper.
    destruct (Z.eqb_spec (countPathDepth dir + countPathDepth a)
                (countPathDepth dir + countPathDepth b)); [lia|].
    destruct (Z.eqb_spec (countPathDepth dir + countPathDepth b)
                (countPathDepth dir + countPathDepth a)); [lia|].
    simpl. split; [apply Z.gtb_lt|rewrite Z.gtb_ltb; apply Z.ltb_ge]; lia.
  - intros ->. rewrite Z.eqb_refl. reflexivity.
Qed.

Lemma SortSumFile_less_under_directory_witness :
  SortSumFile_less (W "root\" ++ W "sub\z.txt") (W "root\" ++ W "a.txt") = true
  /\ SortSumFile_less (W "root\" ++ W "a.txt") (W "root\" ++ W "sub\z.txt")
     = false.
Proof.
  apply (SortSumFile_less_under_directory (W "root\") (W "sub\z.txt")
           (W "a.txt")).
  vm_compute. reflexivity.
Defined.

(** X18.  On names without the terminator inside, [compare_nocase] is a
    strict weak order, as [list::sort] requires: no name comes before
    itself, the order is transitive, and so is having neither name before
    the other, which holds exactly of names that are equal up to case. *)
Theorem compare_nocase_strict_weak_order (a b c : wstring) :
  no_nul a = true -> no_nul b = true -> no_nul c = true ->
  compare_nocase a a = false
  /\ (compare_nocase a b = true -> compare_nocase b c = true ->
      compare_nocase a c = true)
  /\ (compare_nocase a b = false /\ compare_nocase b a = false
      <-> _wcsicmp a b = 0)
  /\ (_wcsicmp a b = 0 -> _wcsicmp b c = 0 -> _wcsicmp a c = 0).
Proof.
  intros Ha Hb Hc. unfold compare_nocase. rewrite wcsicmp_refl.
  split; [reflexivity|]. split; [|split].
  - rewrite !Z.ltb_lt. apply wcsicmp_lt_trans.
  - rewrite !Z.ltb_ge, (wcsicmp_opp b a). lia.
  - intros Hab Hbc.
    pose proof (nocase_le_trans a b c Ha Hb Hc) as Hle.
    pose proof (nocase_le_trans c b a Hc Hb Ha) as Hge.
    unfold nocase_le in Hle, Hge.
    rewrite (wcsicmp_opp c b), (wcsicmp_opp b a), (wcsicmp_opp c a) in Hge.
    lia.
Qed.

Lemma compare_nocase_strict_weak_order_witness :
  compare_nocase (W "a.txt") (W "B.TXT") = true
  /\ compare_nocase (W "B.TXT") (W "c.bin") = true
  /\ compare_nocase (W "a.txt") (W "c.bin") = true.
Proof.
  assert (compare_nocase (W "a.txt") (W "B.TXT") = true) as Hab
      by (vm_compute; reflexivity).
  assert (compare_nocase (W "B.TXT") (W "c.bin") = true) as Hbc
      by (vm_compute; reflexivity).
  split; [exact Hab|]. split; [exact Hbc|].
  destruct (compare_nocase_strict_weak_order (W "a.txt") (W "B.TXT")
              (W "c.bin") eq_refl eq_refl eq_refl) as (_ & Htrans & _).
  exact (Htrans Hab Hbc).
Defined.

(** ** The start of a verification *)

Section VerifyStart.
Context `{Primitives}.
Variable USE_STREEBOG : bool.
Variable EnsureAbsolut : wstring -> wstring.

Lemma tmain_checks_Reached (o : Options) (out : Outside) (bIsFile : bool)
  (inputArg g_inputDirPath : wstring) (bSumMode : bool)
  (pHashes : list Hash) :
  tmain_checks USE_STREEBOG o out
  = Reached bIsFile inputArg g_inputDirPath bSumMode pHashes ->
  bVerifyMode o = true -> (length pHashes <= 1)%nat.
Proof.
  unfold tmain_checks. intros Hchecks Hverify. rewrite Hverify in Hchecks.
  destruct (negb (bBenchmarkAllAlgos o) && _); [discriminate|].
  simpl in Hchecks.
  match type of Hchecks with
  | context [(1 <? length ?l)%nat] =>
      destruct (Nat.ltb_spec 1 (length l)) as [|Hle]; [discriminate|]
  end.
  destruct (bBenchmarkOp o); [discriminate|].
  destruct (target out) as [node|]; [|discriminate].
  destruct (g_bNoFollow (globals o) && IsReparsePoint node); [discriminate|].
  injection Hchecks as _ _ _ _ <-. exact Hle.
Qed.

Lemma tmain_checks_Ended (o : Options) (out : Outside) (s : Started) :
  tmain_checks USE_STREEBOG o out = Ended s ->
  s = Benchmark \/ exists code, s = Exit code.
Proof.
  unfold tmain_checks.
  repeat match goal with
         | |- context [if ?c then _ else _] => destruct c
         | |- context [match target out with _ => _ end] =>
             destruct (target out)
         end; intros [= <-]; eauto.
Qed.

(** X19.  When a verification reaches the walk, one engine is in use and
    the digests to compare with have its digest size: either the table
    comes from a checksum file, the walk is in sum mode, the table is not
    empty and every digest in it has the digest size of the engine, or the
    digest comes from a result file and has the digest size of the
    engine. *)
Theorem verify_starts_with_matching_digests (o : Options) (out : Outside)
  (bSumMode : bool) (g_inputDirPath : wstring) (pHashes : list Hash)
  (digestsList : gmap (list Z) HashResultEntry) (skippedLines : list Z)
  (verifyDigest : ByteArray) :
  bVerifyMode o = true ->
  tmain_start USE_STREEBOG EnsureAbsolut o out
  = Hashing bSumMode g_inputDirPath pHashes digestsList skippedLines
      verifyDigest ->
  exists pHashes_0,
    pHashes = [pHashes_0]
    /\ ((verifyDigest = [] /\ bSumMode = true /\ digestsList <> ∅
         /\ forall p e,
             digestsList !! p = Some e ->
             Z.of_nat (length (m_digest e))
             = GetHashSize (hash_class pHashes_0))
        \/ Z.of_nat (length verifyDigest)
           = GetHashSize (hash_class pHashes_0)).
Proof.
  intros Hverify. unfold tmain_start.
  destruct (tmain_checks USE_STREEBOG o out)
    as [s|bIsFile inputArg dir bSum hashes] eqn:Hchecks.
  { intros ->. apply tmain_checks_Ended in Hchecks as [Hs|[code Hs]];
      discriminate. }
  pose proof (tmain_checks_Reached _ _ _ _ _ _ _ Hchecks Hverify) as Hone.
  rewrite Hverify. unfold tmain_verify.
  destruct hashes as [|pHashes_0 rest]; [discriminate|].
  destruct rest as [|]; [|simpl in Hone; lia].
  destruct (ParseSumFile dir true (verificationFile out) ∅ [])
    as [[[|] parsed] skipped] eqn:Hparse.
  - destruct (map_begin parsed) as [[k first]|] eqn:Hbegin; [|discriminate].
    apply map_begin_lookup in Hbegin.
    destruct (Z.eqb_spec (Z.of_nat (length (m_digest first)))
                (GetHashSize (hash_class pHashes_0))) as [Hsize|];
      [|discriminate].
    simpl negb. cbv iota.
    assert (forall p e, parsed !! p = Some e ->
                        Z.of_nat (length (m_digest e))
                        = GetHashSize (hash_class pHashes_0)) as Hall.
    { intros p e Hp. rewrite <- Hsize. f_equal.
      exact (ParseSumFile_one_length _ _ _ _ _ _ _ _ _ _ _ Hparse Hp Hbegin). }
    destruct bIsFile.
    + destruct (parsed !! m_path (CPath_new EnsureAbsolut inputArg))
        as [entry|] eqn:Hentry; [|discriminate].
      intros [= <- <- <- <- <- <-]. exists pHashes_0.
      split; [reflexivity|]. left. repeat split.
      * apply map_non_empty_singleton.
      * intros p e Hp. apply lookup_singleton_Some in Hp as [<- <-].
        exact (Hall _ _ Hentry).
    + intros [= <- <- <- <- <- <-]. exists pHashes_0.
      split; [reflexivity|]. left. repeat split; [|exact Hall].
      intros ->. rewrite lookup_empty in Hbegin. discriminate.
  - destruct (resultFile out) as [[[|] results] raw]; [|discriminate].
    match goal with
    | |- context [match ?found with Some _ => _ | None => Exit (-8) end] =>
        destruct found as [digest|]; [|discriminate]
    end.
    destruct (Z.eqb_spec (Z.of_nat (length digest))
                (GetHashSize (hash_class pHashes_0))) as [Hsize|];
      [|discriminate].
    intros [= <- <- <- <- <- <-]. exists pHashes_0.
    split; [reflexivity|]. right. exact Hsize.
Qed.
End VerifyStart.

Lemma verify_starts_with_matching_digests_witness :
  let digestsList : gmap (list Z) HashResultEntry :=
    {[ W "root\b.txt" := mkHashResultEntry [] md5_a false ]} in
  @tmain_start transcript true (fun p => W "c:\" ++ p)
    (example_verify (W "MD5")) example_outside
  = Hashing true (W "root\") [@Hash_new transcript Md5Cng] digestsList [] []
  /\ exists pHashes_0,
      [@Hash_new transcript Md5Cng] = [pHashes_0]
      /\ ((@nil Z = [] /\ true = true /\ digestsList <> ∅
           /\ forall p e,
               digestsList !! p = Some e ->
               Z.of_nat (length (m_digest e))
               = GetHashSize (hash_class pHashes_0))
          \/ Z.of_nat (length (@nil Z)) = GetHashSize (hash_class pHashes_0)).
Proof.
  intros digestsList.
  assert (@tmain_start transcript true (fun p => W "c:\" ++ p)
            (example_verify (W "MD5")) example_outside
          = Hashing true (W "root\") [@Hash_new transcript Md5Cng] digestsList
              [] []) as Hstart by (vm_compute; reflexivity).
  split; [exact Hstart|].
  exact (@verify_starts_with_matching_digests transcript true
           (fun p => W "c:\" ++ p) (example_verify (W "MD5")) example_outside
           true (W "root\") [@Hash_new transcript Md5Cng] digestsList [] []
           eq_refl Hstart).
Defined.

Lemma enumerate_drops_witness :
  let g :=
    mkGlobals [] [] false false
      (mkCPath (W "root\sums.md5") (W "c:\root\SUMS.md5")) (mkCPath [] []) in
  let entries :=
    [DirNode (W ".") false None [] ERROR_NO_MORE_FILES;
     FileNode (W "a.txt") false true;
     FileNode (W "sums.md5") false true;
     FileNode (W "z.txt") false true] in
  let r :=
    enumerate g true (mkCPath (W "root") (W "c:\root")) true
      (map (fun e => (e, HashNode ends_with g true e)) entries) false in
  length (fst r) = 2%nat /\ length (List.filter (listed g) entries) = 3%nat
  /\ snd r = true.
Proof.
  intros g entries r.
  assert (length (fst r) = 2%nat) as Hkept by reflexivity.
  assert (length (List.filter (listed g) entries) = 3%nat) as Hlisted
      by reflexivity.
  split; [exact Hkept|]. split; [exact Hlisted|].
  destruct (enumerate_drops g (mkCPath (W "root") (W "c:\root"))
              (HashNode ends_with g true) true true entries false)
    as (es & Hes & _ & _ & Hdrop & _).
  apply Hdrop. fold r in Hes. rewrite Hlisted.
  apply (f_equal (@length _)) in Hes. rewrite length_map, Hkept in Hes. lia.
Defined.

(** ** The command line *)

Section CommandLineProperties.
Variable EnsureAbsolut : wstring -> wstring.

Lemma tmain_arguments_consistent (n : nat) :
  forall (args : list wstring) (v v' : Locals),
    (length args <= n)%nat ->
    Locals_consistent v ->
    tmain_arguments EnsureAbsolut args v = Some v' ->
    Locals_consistent v'.
Proof.
  induction n as [|n IH]; intros args v v' Hlen Hv.
  - destruct args; [|simpl in Hlen; lia]. intros [= <-]. exact Hv.
  - destruct args as [|arg rest]; [intros [= <-]; exact Hv|].
    assert (forall w, Locals_consistent w ->
                      tmain_arguments EnsureAbsolut rest w = Some v' ->
                      Locals_consistent v') as IH1.
    { intros w Hw. apply IH; [simpl in Hlen; lia|exact Hw]. }
    assert (forall next rest' w, rest = next :: rest' ->
                                 Locals_consistent w ->
                                 tmain_arguments EnsureAbsolut rest' w = Some v' ->
                                 Locals_consistent v') as IH2.
    { intros next rest' w -> Hw. apply IH; [simpl in Hlen; lia|exact Hw]. }
    cbn [tmain_arguments]. cbv zeta.
    unfold Locals_consistent in Hv.
    destruct Hv as (Hvs & Hb & Hall & Honly & Hexcl & Hboth).
    repeat match goal with
           | |- (if ?c then _ else _) = Some _ -> _ => destruct c eqn:?
           | |- match rest with [] => None | _ :: _ => _ end = Some _ -> _ =>
               let next := fresh "next" in
               let rest' := fresh "rest'" in
               destruct rest as [|next rest'] eqn:?
           end;
      try discriminate;
      try (apply IH1; unfold Locals_consistent; simpl;
           intuition (try congruence; try discriminate));
      try (eapply IH2; [reflexivity|]; unfold Locals_consistent; simpl;
           intuition (try congruence; try discriminate)).
    all: try (destruct (onlySpecList _); discriminate).
    all: try (destruct (excludeSpecList _); discriminate).
    all: match goal with
         | Hand : _ && _ = true |- _ =>
             apply andb_true_iff in Hand as [Hand _]; exact Hand
         end.
Qed.

Lemma tmain_arguments_fixed (n : nat) :
  forall (args : list wstring) (v v' : Locals),
    (length args <= n)%nat ->
    tmain_arguments EnsureAbsolut args v = Some v' ->
    argv1 (options v') = argv1 (options v)
    /\ bBenchmarkOp (options v') = bBenchmarkOp (options v)
    /\ bForceSumMode (options v') = bForceSumMode (options v).
Proof.
  induction n as [|n IH]; intros args v v' Hlen.
  - destruct args; [|simpl in Hlen; lia]. intros [= <-]. auto.
  - destruct args as [|arg rest]; [intros [= <-]; auto|].
    assert (forall w,
               argv1 (options w) = argv1 (options v)
               /\ bBenchmarkOp (options w) = bBenchmarkOp (options v)
               /\ bForceSumMode (options w) = bForceSumMode (options v) ->
               tmain_arguments EnsureAbsolut rest w = Some v' ->
               argv1 (options v') = argv1 (options v)
               /\ bBenchmarkOp (options v') = bBenchmarkOp (options v)
               /\ bForceSumMode (options v') = bForceSumMode (options v))
      as IH1.
    { intros w (H1 & H2 & H3) Hw. rewrite <- H1, <- H2, <- H3.
      apply (IH rest); [simpl in Hlen; lia|exact Hw]. }
    assert (forall next rest' w,
               rest = next :: rest' ->
               argv1 (options w) = argv1 (options v)
               /\ bBenchmarkOp (options w) = bBenchmarkOp (options v)
               /\ bForceSumMode (options w) = bForceSumMode (options v) ->
               tmain_arguments EnsureAbsolut rest' w = Some v' ->
               argv1 (options v') = argv1 (options v)
               /\ bBenchmarkOp (options v') = bBenchmarkOp (options v)
               /\ bForceSumMode (options v') = bForceSumMode (options v))
      as IH2.
    { intros next rest' w -> (H1 & H2 & H3) Hw. rewrite <- H1, <- H2, <- H3.
      apply (IH rest'); [simpl in Hlen; lia|exact Hw]. }
    cbn [tmain_arguments]. cbv zeta.
    repeat match goal with
           | |- (if ?c then _ else _) = Some _ -> _ => destruct c eqn:?
           | |- match rest with [] => None | _ :: _ => _ end = Some _ -> _ =>
               let next := fresh "next" in
               let rest' := fresh "rest'" in
               destruct rest as [|next rest'] eqn:?
           end;
      try discriminate;
      try (apply IH1; simpl; auto);
      try (eapply IH2; [reflexivity|]; simpl; auto).
Qed.

(** X20.  Whatever the arguments and the defaults of [DirHash.ini], when
    the loop over the arguments ends without returning: [-verify] and
    [-sum] are not both in force; in a benchmark neither is, and there is
    no [-only] or [-exclude] pattern; all algorithms are benchmarked only
    in a benchmark; and [-only] and [-exclude] patterns are never both
    present. *)
Theorem tmain_command_line_modes (iniParams : ConfigParams.t)
  (argv : list wstring) (v : Locals) :
  tmain_command_line EnsureAbsolut iniParams argv = Some v ->
  let o := options v in
  (bVerifyMode o = true -> bSumMode0 o = false)
  /\ (bBenchmarkOp o = true ->
      bVerifyMode o = false /\ bSumMode0 o = false
      /\ onlySpecList (globals o) = [] /\ excludeSpecList (globals o) = [])
  /\ (bBenchmarkAllAlgos o = true -> bBenchmarkOp o = true)
  /\ (onlySpecList (globals o) = [] \/ excludeSpecList (globals o) = [])
  /\ (bBenchmarkOp o = true <-> nth 1 argv [] = W "-benchmark").
Proof.
  unfold tmain_command_line.
  destruct argv as [|argv_0 [|argv_1 args]]; try discriminate.
  intros Hargs.
  assert (Locals_consistent (tmain_defaults iniParams argv_1)) as Hstart.
  { unfold Locals_consistent. simpl. intuition discriminate. }
  pose proof (tmain_arguments_consistent (length args) args _ _
                (Nat.le_refl _) Hstart Hargs)
    as (Hvs & Hb & Hall & Honly & Hexcl & Hboth).
  pose proof (tmain_arguments_fixed (length args) args _ _
                (Nat.le_refl _) Hargs) as (_ & Hbench & _).
  cbv zeta. split; [exact Hvs|]. split; [exact Hb|]. split; [exact Hall|].
  split.
  - destruct (onlySpecified v) eqn:Ho; [right|left; auto].
    apply Hexcl. apply Hboth. reflexivity.
  - rewrite Hbench. simpl. apply bool_decide_eq_true.
Qed.
End CommandLineProperties.

Lemma tmain_command_line_consistent (EnsureAbsolut : wstring -> wstring)
  (iniParams : ConfigParams.t) (argv : list wstring) (v : Locals) :
  tmain_command_line EnsureAbsolut iniParams argv = Some v ->
  Locals_consistent v.
Proof.
  unfold tmain_command_line.
  destruct argv as [|argv_0 [|argv_1 args]]; try discriminate.
  apply (tmain_arguments_consistent EnsureAbsolut (length args) args);
    [reflexivity|].
  unfold Locals_consistent. simpl. intuition discriminate.
Qed.

Lemma map_begin_None (m : gmap (list Z) HashResultEntry) :
  map_begin m = None -> m = ∅.
Proof.
  unfold map_begin. intros Hbegin. apply map_to_list_empty_iff.
  apply Permutation_nil.
  rewrite <- (list_sort_Permutation
                (fun x y => wstring_less (fst x) (fst y)) (map_to_list m)).
  destruct (list_sort _ _); [reflexivity|discriminate].
Qed.

Section NeverUndefined.
Context `{Primitives}.
Variable USE_STREEBOG : bool.
Variable EnsureAbsolut : wstring -> wstring.

Lemma tmain_checks_Reached_engines (o : Options) (out : Outside)
  (bIsFile : bool) (inputArg g_inputDirPath : wstring) (bSumMode : bool)
  (pHashes : list Hash) :
  tmain_checks USE_STREEBOG o out
  = Reached bIsFile inputArg g_inputDirPath bSumMode pHashes ->
  bBenchmarkOp o = false
  /\ (bBenchmarkAllAlgos o = false -> pHashes <> []).
Proof.
  unfold tmain_checks.
  destruct (bBenchmarkAllAlgos o); simpl.
  - destruct (bVerifyMode o && _); [discriminate|].
    destruct (bBenchmarkOp o); [discriminate|].
    destruct (target out) as [node|]; [|discriminate].
    destruct (g_bNoFollow (globals o) && IsReparsePoint node);
      [discriminate|].
    intros _. split; [reflexivity|discriminate].
  - destruct (decide (GetHashes USE_STREEBOG (hashAlgoToUse o) = []))
      as [Hnone|Hsome].
    + rewrite (bool_decide_eq_true_2 _ Hnone). discriminate.
    + rewrite (bool_decide_eq_false_2 _ Hsome). simpl.
      destruct (negb (ValidateHashesVector _)); [discriminate|].
      destruct (bVerifyMode o && _); [discriminate|].
      destruct (bBenchmarkOp o); [discriminate|].
      destruct (target out) as [node|]; [|discriminate].
      destruct (g_bNoFollow (globals o) && IsReparsePoint node);
        [discriminate|].
      intros [= _ _ _ _ <-]. split; [reflexivity|]. intros _. exact Hsome.
Qed.

(** X21.  Whatever the command line, the defaults and the files found,
    [_tmain] never reads [pHashes[0]] of an empty vector nor the first
    entry of an empty table: it returns, runs the benchmark, or reaches the
    walk. *)
Theorem tmain_never_Undefined (iniParams : ConfigParams.t)
  (argv : list wstring) (out : Outside) :
  tmain USE_STREEBOG EnsureAbsolut iniParams argv out <> Undefined.
Proof.
  unfold tmain.
  destruct (tmain_command_line EnsureAbsolut iniParams argv) as [v|] eqn:Hv;
    [|discriminate].
  apply tmain_command_line_consistent in Hv.
  destruct Hv as (_ & _ & Hall & _).
  unfold tmain_start.
  destruct (tmain_checks USE_STREEBOG (options v) out)
    as [s|bIsFile inputArg dir bSum pHashes] eqn:Hchecks.
  { apply tmain_checks_Ended in Hchecks as [->|[code ->]]; discriminate. }
  apply tmain_checks_Reached_engines in Hchecks as [Hbench Hengines].
  destruct (bVerifyMode (options v)); [|discriminate].
  assert (pHashes <> []) as Hsome.
  { apply Hengines. destruct (bBenchmarkAllAlgos (options v)); [|reflexivity].
    rewrite Hall in Hbench by reflexivity. discriminate. }
  unfold tmain_verify.
  destruct pHashes as [|pHashes_0 rest]; [contradiction|].
  destruct (ParseSumFile dir true (verificationFile out) ∅ [])
    as [[[|] parsed] skipped] eqn:Hparse.
  - destruct (map_begin parsed) as [[k first]|] eqn:Hbegin.
    + destruct (negb _); [discriminate|].
      destruct bIsFile; [|discriminate].
      destruct (parsed !! _); discriminate.
    + exfalso. apply map_begin_None in Hbegin. subst parsed.
      destruct (ParseSumFile_invariant dir true (fun _ _ => True)
                  (verificationFile out) ∅ ∅ [] skipped I
                  (fun _ _ _ _ _ _ _ => I) Hparse) as [Hne _].
      contradiction.
  - destruct (resultFile out) as [[[|] results] raw]; [|discriminate].
    match goal with
    | |- context [match ?found with Some _ => _ | None => Exit (-8) end] =>
        destruct found as [digest|]; [|discriminate]
    end.
    destruct (negb _); discriminate.
Qed.
End NeverUndefined.

Lemma tmain_command_line_modes_witness :
  let argv :=
    [W "DirHash.exe"; W "root"; W "sha256"; W "-verify"; W "sums.sha256";
     W "-exclude"; W "*.tmp"; W "-skipError"] in
  exists v,
    tmain_command_line (fun p => W "c:\" ++ p) example_ini argv = Some v
    /\ bVerifyMode (options v) = true
    /\ bSumMode0 (options v) = false
    /\ onlySpecList (globals (options v)) = [].
Proof.
  intros argv.
  destruct (tmain_command_line (fun p => W "c:\" ++ p) example_ini argv)
    as [v|] eqn:Hv; [|vm_compute in Hv; discriminate].
  exists v. split; [reflexivity|].
  pose proof (tmain_command_line_modes (fun p => W "c:\" ++ p) example_ini
                argv v Hv) as (Hvs & _ & _ & Hlists & _).
  assert (bVerifyMode (options v) = true) as Hverify.
  { vm_compute in Hv. injection Hv as <-. reflexivity. }
  split; [exact Hverify|]. split; [exact (Hvs Hverify)|].
  destruct Hlists as [Honly|Hexcl]; [exact Honly|].
  vm_compute in Hv. injection Hv as <-. discriminate.
Defined.

(** ** Result files, written and read *)

Lemma FromHex_bad (szHex : wstring) :
  Exists (fun c => is_hex_digit c = false) szHex ->
  FromHex szHex = (false, []).
Proof.
  intros Hbad. unfold FromHex.
  destruct (Nat.eqb_spec (length szHex mod 2) 0) as [Heven|]; [|reflexivity].
  rewrite FromHex_loop_bad; [reflexivity| |exact Hbad].
  pose proof (Nat.div_mod_eq (length szHex) 2). lia.
Qed.

Lemma take_app_minus {A : Type} (a b : list A) :
  take (length (a ++ b) - length b) (a ++ b) = a.
Proof.
  rewrite length_app.
  replace (length a + length b - length b)%nat with (length a) by lia.
  apply take_app_length.
Qed.

Lemma GetID_no_space (c : HashClass) :
  Forall (fun x => x <> space) (GetID c).
Proof. destruct c; repeat constructor; discriminate. Qed.

Lemma GetHashSize_printed (c : HashClass) :
  exists d1 d2,
    print_d (GetHashSize c) = [d1; d2] /\ d1 <> space /\ d2 <> space
    /\ 16 <= GetHashSize c.
Proof.
  destruct c; eexists _, _;
    (split; [vm_compute; reflexivity|]);
    (split; [discriminate|]); (split; [discriminate|]);
    vm_compute; discriminate.
Qed.

Section ResultFileProperties.
Context `{Primitives}.
Variable USE_STREEBOG : bool.
Variable swscanf_2d : wstring -> option Z.

Lemma ParseResultLine_written (g_bLowerCase : bool)
  (c : HashClass) (szFileName : wstring) (pbDigest : ByteArray)
  (targetName hashName : wstring) (digestValue : ByteArray) :
  USE_STREEBOG = true \/ c <> Streebog ->
  quote ∉ szFileName ->
  Forall is_byte pbDigest ->
  Z.of_nat (length pbDigest) = GetHashSize c ->
  swscanf_2d (print_d (GetHashSize c)) = Some (GetHashSize c) ->
  ParseResultLine USE_STREEBOG swscanf_2d
    (result_line g_bLowerCase c szFileName pbDigest)
    targetName hashName digestValue
  = (true, szFileName, GetID c, pbDigest).
Proof.
  intros Hbuild Hname Hbytes Hsize Hscan.
  destruct (GetHashSize_printed c) as (d1 & d2 & Hprint & Hd1 & Hd2 & Hmin).
  set (hex := ToHex g_bLowerCase pbDigest).
  assert (length hex = (2 * length pbDigest)%nat) as Hhex
      by apply ToHex_length.
  assert (32 <= length hex)%nat as Hlong by lia.
  set (tail3 := [98; 121; 116; 101; 115; 41; 32; 61; 32] ++ hex).
  set (tail2 := [d1; d2] ++ space :: tail3).
  set (tail1 := szFileName ++ quote :: space :: open_paren :: tail2).
  set (tail0 := [104; 97; 115; 104; 32; 111; 102; 32; quote] ++ tail1).
  assert (result_line g_bLowerCase c szFileName pbDigest
          = GetID c ++ space :: tail0) as Hline.
  { unfold result_line. rewrite Hprint. reflexivity. }
  assert (length tail3 = (9 + length hex)%nat) as Hl3 by reflexivity.
  assert (length tail2 = (3 + length tail3)%nat) as Hl2 by reflexivity.
  assert (length tail1 = (length szFileName + 3 + length tail2)%nat) as Hl1.
  { unfold tail1. rewrite length_app. simpl. lia. }
  assert (length tail0 = (9 + length tail1)%nat) as Hl0 by reflexivity.
  unfold ParseResultLine. rewrite Hline.
  replace (32 <=? length (GetID c ++ space :: tail0))%nat with true.
  2:{ symmetry. apply Nat.leb_le. rewrite length_app. simpl. lia. }
  rewrite FromHex_bad.
  2:{ apply Exists_app. right. constructor. reflexivity. }
  rewrite (wcschr_app _ _ _ (GetID_no_space c)).
  rewrite (take_app_minus (GetID c) (space :: tail0)).
  unfold GetHash. rewrite (GetHash_class_GetID _ _ Hbuild). simpl fmap.
  cbv zeta. simpl tl. simpl hash_class.
  replace (32 <? length tail0)%nat with true
    by (symmetry; apply Nat.ltb_lt; lia).
  replace (starts_with tail0 (W "hash of " ++ [quote])) with true
    by (symmetry; apply bool_decide_eq_true; reflexivity).
  simpl andb. cbv iota.
  change (drop 9 tail0) with tail1.
  assert (Forall (fun x => x <> quote) szFileName) as Hnoquote.
  { apply Forall_forall. intros x Hx ->. contradiction. }
  change tail1 with (szFileName ++ quote :: space :: open_paren :: tail2).
  rewrite (wcschr_app _ _ _ Hnoquote).
  rewrite (take_app_minus szFileName
             (quote :: space :: open_paren :: tail2)).
  change (nth 1 (quote :: space :: open_paren :: tail2) 0) with space.
  change (nth 2 (quote :: space :: open_paren :: tail2) 0) with open_paren.
  rewrite !Z.eqb_refl. simpl andb. cbv iota.
  change (drop 3 (quote :: space :: open_paren :: tail2)) with tail2.
  replace (32 <? length tail2)%nat with true
    by (symmetry; apply Nat.ltb_lt; lia).
  assert (Forall (fun x => x <> space) [d1; d2]) as Hdigits
      by (repeat constructor; assumption).
  change tail2 with ([d1; d2] ++ space :: tail3).
  rewrite (wcschr_app _ _ _ Hdigits).
  rewrite (take_app_minus [d1; d2] (space :: tail3)).
  change (length [d1; d2] =? 2)%nat with true. cbv iota.
  rewrite <- Hprint, Hscan, Z.eqb_refl.
  change (tl (space :: tail3)) with tail3.
  replace (32 <? length tail3)%nat with true
    by (symmetry; apply Nat.ltb_lt; lia).
  replace (starts_with tail3 (W "bytes) = ")) with true
    by (symmetry; apply bool_decide_eq_true; reflexivity).
  simpl andb. cbv iota.
  change (drop 9 tail3) with hex.
  replace (Z.of_nat (length hex) =? 2 * GetHashSize c) with true
    by (symmetry; apply Z.eqb_eq; lia).
  unfold hex. rewrite (FromHex_of_ToHex g_bLowerCase pbDigest Hbytes).
  reflexivity.
Qed.

Lemma ParseResultLine_bare (g_bLowerCase : bool) (pbDigest : ByteArray)
  (targetName hashName : wstring) (digestValue : ByteArray) :
  Forall is_byte pbDigest ->
  IsHashSize (Z.of_nat (length pbDigest)) = true ->
  ParseResultLine USE_STREEBOG swscanf_2d (ToHex g_bLowerCase pbDigest)
    targetName hashName digestValue
  = (true, targetName, hashName, pbDigest).
Proof.
  intros Hbytes Hsize. unfold ParseResultLine.
  assert (16 <= length pbDigest)%nat as Hmin.
  { unfold IsHashSize in Hsize. rewrite !orb_true_iff, !Z.eqb_eq in Hsize.
    lia. }
  replace (32 <=? length (ToHex g_bLowerCase pbDigest))%nat with true.
  2:{ symmetry. apply Nat.leb_le. rewrite ToHex_length. lia. }
  rewrite (FromHex_of_ToHex g_bLowerCase pbDigest Hbytes), Hsize.
  reflexivity.
Qed.

(** X22.  A line that [_tmain] writes to a result file for an engine, a
    file name without a double quote and the digest of the engine is read
    back by [ParseResultLine] as that file name, the identifier of the
    engine and that digest, provided [swscanf] reads back the digest size
    that [printf] wrote. *)
Theorem ParseResultLine_of_result_line (g_bLowerCase : bool)
  (c : HashClass) (szFileName : wstring) (pbDigest : ByteArray)
  (targetName hashName : wstring) (digestValue : ByteArray) :
  USE_STREEBOG = true \/ c <> Streebog ->
  quote ∉ szFileName ->
  Forall is_byte pbDigest ->
  Z.of_nat (length pbDigest) = GetHashSize c ->
  swscanf_2d (print_d (GetHashSize c)) = Some (GetHashSize c) ->
  ParseResultLine USE_STREEBOG swscanf_2d
    (result_line g_bLowerCase c szFileName pbDigest)
    targetName hashName digestValue
  = (true, szFileName, GetID c, pbDigest).
Proof. apply ParseResultLine_written. Qed.

(** X23.  [ParseResultFile] keeps the name read from a line for the lines
    that follow: a bare digest that follows the line of a named entry
    replaces the digest of that entry and is not recorded as a bare
    digest, whereas a bare digest that comes first is recorded as a bare
    digest and the named entry keeps its own. *)
Theorem ParseResultFile_bare_digest (g_bLowerCase : bool) (c : HashClass)
  (szFileName : wstring) (pbDigest bare : ByteArray)
  (pathDigestList : gmap (list Z) HashResultEntry)
  (rawDigestList : gmap Z (list Z)) :
  USE_STREEBOG = true \/ c <> Streebog ->
  szFileName <> [] -> quote ∉ szFileName ->
  Forall is_byte pbDigest ->
  Z.of_nat (length pbDigest) = GetHashSize c ->
  swscanf_2d (print_d (GetHashSize c)) = Some (GetHashSize c) ->
  Forall is_byte bare -> IsHashSize (Z.of_nat (length bare)) = true ->
  let named_line :=
    result_line g_bLowerCase c szFileName pbDigest ++ [newline] in
  let bare_line := ToHex g_bLowerCase bare ++ [newline] in
  ParseResultFile USE_STREEBOG swscanf_2d (Some [named_line; bare_line])
    pathDigestList rawDigestList
  = (true, {[ szFileName := mkHashResultEntry (GetID c) bare false ]}, ∅)
  /\ ParseResultFile USE_STREEBOG swscanf_2d (Some [bare_line; named_line])
       pathDigestList rawDigestList
     = (true, {[ szFileName := mkHashResultEntry (GetID c) pbDigest false ]},
        {[ Z.of_nat (length bare) := bare ]}).
Proof.
  intros Hbuild Hname Hquote Hbytes Hsize Hscan Hbare Hbare_size
    named_line bare_line.
  assert ((length (result_line g_bLowerCase c szFileName pbDigest) =? 0)%nat
          = false) as Hnamed_len.
  { apply Nat.eqb_neq. unfold result_line. rewrite !length_app.
    destruct c; simpl; lia. }
  assert ((length (ToHex g_bLowerCase bare) =? 0)%nat = false) as Hbare_len.
  { apply Nat.eqb_neq. rewrite ToHex_length.
    unfold IsHashSize in Hbare_size.
    rewrite !orb_true_iff, !Z.eqb_eq in Hbare_size. lia. }
  assert ((length szFileName =? 0)%nat = false) as Hname_len.
  { apply Nat.eqb_neq. destruct szFileName; [contradiction|discriminate]. }
  assert ((length (GetID c) =? 0)%nat = false) as Hid_len
      by (destruct c; reflexivity).
  unfold ParseResultFile, named_line, bare_line. split.
  - cbn [ParseResultFile_loop]. rewrite !chomp_snoc.
    rewrite Hnamed_len, Hbare_len.
    rewrite (ParseResultLine_written g_bLowerCase c szFileName pbDigest
               [] [] [] Hbuild Hquote Hbytes Hsize Hscan).
    rewrite Hname_len, Hid_len. simpl andb. cbv iota.
    rewrite (ParseResultLine_bare g_bLowerCase bare szFileName (GetID c)
               pbDigest Hbare Hbare_size).
    rewrite Hname_len, Hid_len. simpl andb. cbv iota.
    unfold set_result. rewrite lookup_empty. simpl.
    rewrite lookup_insert_eq. simpl. rewrite insert_insert_eq, insert_empty.
    rewrite (bool_decide_eq_false_2 _
               (map_non_empty_singleton szFileName _)).
    reflexivity.
  - cbn [ParseResultFile_loop]. rewrite !chomp_snoc.
    rewrite Hnamed_len, Hbare_len.
    rewrite (ParseResultLine_bare g_bLowerCase bare [] [] [] Hbare
               Hbare_size).
    simpl andb. cbv iota.
    rewrite (ParseResultLine_written g_bLowerCase c szFileName pbDigest
               [] [] bare Hbuild Hquote Hbytes Hsize Hscan).
    rewrite Hname_len, Hid_len. simpl andb. cbv iota.
    unfold set_result. rewrite lookup_empty. simpl.
    rewrite !insert_empty.
    rewrite (bool_decide_eq_false_2 _
               (map_non_empty_singleton szFileName _)).
    reflexivity.
Qed.
End ResultFileProperties.

Lemma ParseResultLine_of_result_line_witness :
  @ParseResultLine transcript true example_swscanf_2d
    (result_line false Md5Cng (W "b.txt") md5_a) [] [] []
  = (true, W "b.txt", GetID Md5Cng, md5_a).
Proof.
  apply (@ParseResultLine_of_result_line transcript true example_swscanf_2d
           false Md5Cng (W "b.txt") md5_a [] [] []).
  - left. reflexivity.
  - intros Hin. apply list_elem_of_In in Hin. simpl in Hin.
    repeat (destruct Hin as [Hin|Hin]; [discriminate|]). exact Hin.
  - repeat constructor; unfold is_byte; lia.
  - reflexivity.
  - reflexivity.
Defined.

Lemma ParseResultFile_bare_digest_witness :
  @ParseResultFile transcript true example_swscanf_2d
    (Some [result_line false Md5Cng (W "b.txt") md5_a ++ [newline];
           ToHex false md5_b ++ [newline]]) ∅ ∅
  = (true, {[ W "b.txt" := mkHashResultEntry (GetID Md5Cng) md5_b false ]}, ∅).
Proof.
  apply (@ParseResultFile_bare_digest transcript true example_swscanf_2d
           false Md5Cng (W "b.txt") md5_a md5_b ∅ ∅).
  - left. reflexivity.
  - discriminate.
  - intros Hin. apply list_elem_of_In in Hin. simpl in Hin.
    repeat (destruct Hin as [Hin|Hin]; [discriminate|]). exact Hin.
  - repeat constructor; unfold is_byte; lia.
  - reflexivity.
  - reflexivity.
  - repeat constructor; unfold is_byte; lia.
  - reflexivity.
Defined.


(** ** A checksum file, sorted and read again *)

Lemma FromHex_bytes (szHex : wstring) (data : ByteArray) :
  FromHex szHex = (true, data) -> Forall is_byte data.
Proof.
  unfold FromHex.
  destruct (Nat.eqb_spec (length szHex mod 2) 0) as [Heven|]; [|discriminate].
  destruct (FromHex_loop _ _ _) as [buffer|] eqn:Hloop; [|discriminate].
  intros [= <-].
  apply (FromHex_loop_Some false) in Hloop as (d & -> & _ & Hbytes & _).
  - exact Hbytes.
  - pose proof (Nat.div_mod_eq (length szHex) 2). lia.
Qed.

Lemma ParseSumFile_line_bytes (g_inputDirPath : wstring)
  (normalizePath : bool) (digestLen : nat) (szLine entryName : wstring)
  (digest : ByteArray) :
  ParseSumFile_line g_inputDirPath normalizePath digestLen szLine
  = Some (entryName, digest) ->
  Forall is_byte digest.
Proof.
  unfold ParseSumFile_line.
  destruct (wcschr szLine space) as [at_space|]; [|discriminate].
  cbv zeta. destruct (not_at_last _); [|discriminate].
  destruct (FromHex _) as [[|] d] eqn:Hhex; [|discriminate].
  destruct (_ || _); [|discriminate].
  intros [= _ <-]. exact (FromHex_bytes _ _ Hhex).
Qed.

Lemma replace_slashes_id (s : wstring) :
  slash ∉ s -> replace_slashes s = s.
Proof.
  induction s as [|c s IH]; [reflexivity|]. intros Hs. simpl.
  destruct (Z.eqb_spec c slash) as [->|_].
  - exfalso. apply Hs. apply list_elem_of_here.
  - rewrite IH; [reflexivity|]. intros Hin. apply Hs.
    apply list_elem_of_further. exact Hin.
Qed.

(** The paths and the digests of a table read without [normalizePath]. *)
Lemma ParseSumFile_plain_entries (g_inputDirPath : wstring)
  (f : option (list (list Z)))
  (digestList0 digestList : gmap (list Z) HashResultEntry)
  (skippedLines0 skippedLines : list Z) :
  ParseSumFile g_inputDirPath false f digestList0 skippedLines0
  = (true, digestList, skippedLines) ->
  forall p e,
    digestList !! p = Some e ->
    length p <> 1%nat /\ (slash ∉ p) /\ Forall is_byte (m_digest e).
Proof.
  intros Hparse.
  pose (I := fun (_ : nat) (dl : gmap (list Z) HashResultEntry) =>
               forall p e, dl !! p = Some e ->
                           length p <> 1%nat /\ (slash ∉ p)
                           /\ Forall is_byte (m_digest e)).
  destruct (ParseSumFile_invariant g_inputDirPath false I f digestList0
              digestList skippedLines0 skippedLines) as [_ [size HI]];
    [| |exact Hparse|exact HI].
  - intros p e Hp. rewrite lookup_empty in Hp. discriminate.
  - intros digestLen dl szLine entryName digest Hdl Hline p e Hp.
    pose proof (ParseSumFile_line_bytes _ _ _ _ _ _ Hline) as Hbytes.
    apply ParseSumFile_line_name in Hline as (ptr & Hptr & ->).
    apply set_digest_lookup in Hp as [[-> ->]|[_ Hp]]; [|exact (Hdl _ _ Hp)].
    unfold stored_name. simpl. split; [|split; [|exact Hbytes]].
    + unfold replace_slashes. rewrite length_map. exact Hptr.
    + unfold replace_slashes. intros Hin.
      apply list_elem_of_fmap in Hin as (c & Hc & _).
      destruct (Z.eqb_spec c slash); [discriminate|congruence].
Qed.

Section SortedSumFile.
Variable g_inputDirPath : wstring.
Variable g_bLowerCase : bool.

Lemma classify_SortSumFile_lines (size : nat)
  (sortedEntries : list (list Z * HashResultEntry)) (digestLen : nat) :
  IsHashSize (Z.of_nat size) = true ->
  digestLen = O \/ digestLen = size ->
  Forall (fun entry =>
            (2 <= length (fst entry))%nat /\ (slash ∉ fst entry)
            /\ deref (fst entry) <> space /\ deref (fst entry) <> asterisk
            /\ Forall is_byte (m_digest (snd entry))
            /\ length (m_digest (snd entry)) = size) sortedEntries ->
  classify g_inputDirPath false digestLen
    (SortSumFile_lines g_bLowerCase sortedEntries)
  = map (fun entry => Accepted (fst entry) (m_digest (snd entry)))
      sortedEntries.
Proof.
  intros Hsize Hlen Hall. revert digestLen Hlen.
  induction Hall as [|[p e] rest (Hp & Hslash & Hblank & Hstar & Hbytes & He)
                       Hall IH]; intros digestLen Hlen; [reflexivity|].
  simpl in Hp, Hslash, Hblank, Hstar, Hbytes, He.
  change (SortSumFile_lines g_bLowerCase ((p, e) :: rest))
    with ((ToHex g_bLowerCase (m_digest e) ++ W "  " ++ p ++ [newline])
          :: SortSumFile_lines g_bLowerCase rest).
  cbn [classify map fst snd].
  rewrite !app_assoc, chomp_snoc, <- !app_assoc.
  replace (length (ToHex g_bLowerCase (m_digest e) ++ W "  " ++ p) =? 0)%nat
    with false.
  2:{ symmetry. apply Nat.eqb_neq. rewrite !length_app. simpl. lia. }
  rewrite (ParseSumFile_line_written g_inputDirPath false g_bLowerCase
             digestLen (m_digest e) p Hbytes); auto.
  - unfold stored_name. simpl. rewrite (replace_slashes_id p Hslash).
    f_equal. apply IH. right. exact He.
  - destruct Hlen as [->| ->].
    + left. split; [reflexivity|]. rewrite He. exact Hsize.
    + right. split; [|symmetry; exact He].
      apply (IsHashSize_nonzero _ Hsize).
Qed.

Lemma digests_of_entries (sortedEntries : list (list Z * HashResultEntry))
  (p : list Z) :
  NoDup (map fst sortedEntries) ->
  digests_of p
    (map (fun entry => (fst entry, m_digest (snd entry))) sortedEntries)
  = match list_find (fun entry => fst entry = p) sortedEntries with
    | Some (_, entry) => [m_digest (snd entry)]
    | None => []
    end.
Proof.
  induction sortedEntries as [|[q e] rest IH]; intros Hnodup;
    [reflexivity|].
  simpl in Hnodup. apply NoDup_cons in Hnodup as [Hq Hnodup].
  simpl map. rewrite digests_of_cons. simpl fst. simpl snd.
  cbn [list_find]. simpl fst.
  destruct (decide (q = p)) as [->|Hne].
  - simpl. f_equal. rewrite IH by exact Hnodup.
    destruct (list_find _ rest) as [[i [q' e']]|] eqn:Hfind; [|reflexivity].
    exfalso. apply list_find_Some in Hfind as (Hi & Hq' & _).
    simpl in Hq'. subst q'. apply Hq.
    apply list_elem_of_fmap. exists (p, e'). split; [reflexivity|].
    eapply list_elem_of_lookup_2. exact Hi.
  - rewrite IH by exact Hnodup.
    destruct (list_find _ rest) as [[i [q' e']]|]; reflexivity.
Qed.

Lemma SortSumFile_lines_table
  (f : option (list (list Z)))
  (digestList0 digestList digestList1 : gmap (list Z) HashResultEntry)
  (skippedLines0 skippedLines skippedLines1 : list Z)
  (g_inputDirPath0 : wstring)
  (sortedEntries : list (list Z * HashResultEntry)) :
  ParseSumFile g_inputDirPath0 false f digestList0 skippedLines0
  = (true, digestList, skippedLines) ->
  (forall p e,
      digestList !! p = Some e ->
      p <> [] /\ deref p <> space /\ deref p <> asterisk) ->
  Permutation sortedEntries (map_to_list digestList) ->
  ParseSumFile g_inputDirPath false
    (Some (SortSumFile_lines g_bLowerCase sortedEntries)) digestList1
    skippedLines1
  = (true, digestList, []).
Proof.
  intros Hparse Hkeys Hperm.
  destruct (ParseSumFile_table_entries g_inputDirPath0 false f digestList0
              digestList skippedLines0 skippedLines Hparse)
    as (Hsome & size & Hsize & Hentries).
  pose proof (ParseSumFile_plain_entries g_inputDirPath0 f digestList0
                digestList skippedLines0 skippedLines Hparse) as Hplain.
  assert (forall p e, (p, e) ∈ sortedEntries <-> digestList !! p = Some e)
    as Hin.
  { intros p e. rewrite Hperm. apply elem_of_map_to_list. }
  assert (NoDup (map fst sortedEntries)) as Hnodup.
  { rewrite Hperm. apply NoDup_fst_map_to_list. }
  assert (classify g_inputDirPath false 0
            (SortSumFile_lines g_bLowerCase sortedEntries)
          = map (fun entry => Accepted (fst entry) (m_digest (snd entry)))
              sortedEntries) as Hclassify.
  { apply (classify_SortSumFile_lines size); [exact Hsize|left; reflexivity|].
    apply Forall_forall. intros [p e] Hpe. apply Hin in Hpe. simpl.
    destruct (Hkeys _ _ Hpe) as (Hne & Hblank & Hstar).
    destruct (Hplain _ _ Hpe) as (Hone & Hslash & Hbytes).
    destruct (Hentries _ _ Hpe) as (Hlen & _ & _).
    repeat split; try assumption.
    destruct p as [|c [|c' p]]; simpl in *; try contradiction; lia. }
  unfold ParseSumFile. rewrite ParseSumFile_loop_spec. cbv zeta.
  rewrite Hclassify.
  assert (accepted_lines
            (map (fun entry => Accepted (fst entry) (m_digest (snd entry)))
               sortedEntries)
          = map (fun entry => (fst entry, m_digest (snd entry)))
              sortedEntries) as ->.
  { clear. induction sortedEntries as [|x l IH]; [reflexivity|].
    unfold accepted_lines in *. simpl. f_equal. exact IH. }
  assert (rejected_from 1
            (map (fun entry => Accepted (fst entry) (m_digest (snd entry)))
               sortedEntries) = []) as ->.
  { clear. generalize 1. induction sortedEntries as [|x l IH]; intros n;
      [reflexivity|]. simpl. apply IH. }
  assert (fold_digests
            (map (fun entry => (fst entry, m_digest (snd entry)))
               sortedEntries) ∅ = digestList) as ->.
  { apply map_eq. intros p. rewrite fold_digests_lookup, lookup_empty.
    rewrite (digests_of_entries sortedEntries p Hnodup).
    destruct (list_find _ sortedEntries) as [[i [q e]]|] eqn:Hfind.
    - apply list_find_Some in Hfind as (Hi & Hq & _). simpl in Hq. subst q.
      apply list_elem_of_lookup_2, Hin in Hi. simpl. rewrite Hi.
      destruct (Hentries _ _ Hi) as (_ & Hproc & Hname).
      destruct e as [h d pr]. simpl in *. subst. reflexivity.
    - destruct (digestList !! p) as [e|] eqn:Hp; [|reflexivity].
      exfalso. apply Hin in Hp.
      apply list_elem_of_lookup_1 in Hp as [i Hi].
      eapply list_find_None in Hfind. rewrite Forall_forall in Hfind.
      apply (Hfind (p, e)); [eapply list_elem_of_lookup_2; exact Hi|].
      reflexivity. }
  destruct sortedEntries as [|x l].
  - exfalso. apply Hsome. apply map_to_list_empty_iff.
    apply Permutation_nil. exact Hperm.
  - simpl head. rewrite bool_decide_eq_false_2 by discriminate.
    rewrite (bool_decide_eq_false_2 _ Hsome). reflexivity.
Qed.

(** X25.  The lines [SortSumFile] writes say what the file it has read
    says: in whatever order the entries of the table are written, reading
    the lines again gives the same table and skips no line, provided no
    path of the table is empty or begins with a blank or an asterisk. *)
Theorem SortSumFile_keeps_table (f : option (list (list Z)))
  (digestList0 digestList digestList1 : gmap (list Z) HashResultEntry)
  (skippedLines0 skippedLines skippedLines1 : list Z)
  (g_inputDirPath0 : wstring)
  (sortedEntries : list (list Z * HashResultEntry)) :
  ParseSumFile g_inputDirPath0 false f digestList0 skippedLines0
  = (true, digestList, skippedLines) ->
  (forall p e,
      digestList !! p = Some e ->
      p <> [] /\ deref p <> space /\ deref p <> asterisk) ->
  Permutation sortedEntries (map_to_list digestList) ->
  ParseSumFile g_inputDirPath false
    (Some (SortSumFile_lines g_bLowerCase sortedEntries)) digestList1
    skippedLines1
  = (true, digestList, []).
Proof. apply SortSumFile_lines_table. Qed.
End SortedSumFile.

Lemma SortSumFile_keeps_table_witness :
  let digestList : gmap (list Z) HashResultEntry :=
    {[ W "dir\ab.txt" := mkHashResultEntry [] md5_a false ]} in
  ParseSumFile [] false
    (Some (SortSumFile_lines true
             [(W "dir\ab.txt", mkHashResultEntry [] md5_a false)])) ∅ []
  = (true, digestList, []).
Proof.
  intros digestList.
  apply (SortSumFile_keeps_table [] true
           (Some [ToHex false md5_a ++ W "  dir/ab.txt" ++ [newline]])
           ∅ digestList ∅ [] [] [] []).
  - vm_compute. reflexivity.
  - intros p e Hp. apply lookup_singleton_Some in Hp as [<- _].
    repeat split; discriminate.
  - unfold digestList. rewrite map_to_list_singleton. reflexivity.
Defined.

(** ** The paths of the walk and the input directory *)

Section WalkPaths.
Variable PathMatchSpec : wstring -> wstring -> bool.
Variable g : Globals.
Variable bSumMode : bool.

Lemma HashDirectory_for_under (dirPath : CPath) (es : list Node)
  (st : WalkState) :
  Forall (fun e => forall path st',
              Forall (fun p => exists rel, m_path p = m_path path ++ rel)
                (flat_map Trace_files
                   (snd (fst (HashNode PathMatchSpec g bSumMode e path st')))))
    es ->
  Forall (fun p => exists rel, m_path p = m_path dirPath ++ backslash :: rel)
    (flat_map Trace_files
       (snd (fst (HashDirectory_for
                    (map (dirContent_entry dirPath
                            (HashNode PathMatchSpec g bSumMode)) es) st)))).
Proof.
  intros Hes. revert st. induction Hes as [|e es He Hes IH]; intros st;
    [constructor|].
  simpl. specialize (He (AppendName dirPath (cFileName_of e)) st).
  destruct (HashNode PathMatchSpec g bSumMode e
              (AppendName dirPath (cFileName_of e)) st)
    as [[dwError done] st'].
  simpl in He.
  assert (Forall (fun p => exists rel,
                      m_path p = m_path dirPath ++ backslash :: rel)
            (flat_map Trace_files done)) as Hdone.
  { eapply Forall_impl; [exact He|]. intros p [rel Hp].
    exists (cFileName_of e ++ rel). rewrite Hp. simpl.
    rewrite <- !app_assoc. reflexivity. }
  destruct (dwError =? 0); [|exact Hdone].
  specialize (IH st').
  destruct (HashDirectory_for _ st') as [[dwError' done'] st''].
  simpl in *. rewrite flat_map_app. apply Forall_app. split; assumption.
Qed.

Lemma HashNode_under (n : Node) (path : CPath) (st : WalkState) :
  Forall (fun p =>
            exists rel,
              m_path p = m_path path ++ rel
              /\ (is_directory n = true -> exists rel', rel = backslash :: rel'))
    (flat_map Trace_files
       (snd (fst (HashNode PathMatchSpec g bSumMode n path st)))).
Proof.
  revert path st. induction n as [name r openable|name r ff entries fn IH]
    using Node_nested_ind; intros path st.
  - destruct (HashFile_shape PathMatchSpec g bSumMode path openable st)
      as [Hnone|[opened Hone]]; simpl in *.
    + rewrite Hnone. constructor.
    + rewrite Hone. simpl. constructor; [|constructor].
      exists []. rewrite app_nil_r. split; [reflexivity|discriminate].
  - rewrite HashNode_DirNode. unfold HashDirectory_body.
    destruct (IsExcludedName _ _ _ _); [constructor|].
    destruct ff as [dwError|].
    { destruct (g_bSkipError g); constructor. }
    destruct (enumerate_spec g bSumMode path
                (negb (bool_decide (digestList st = ∅)))
                (HashNode PathMatchSpec g bSumMode) entries
                (g_sumFileSkipped st)) as [es [Hsub Hes]].
    destruct (enumerate _ _ _ _ _ _) as [dirContent skipped].
    simpl in Hes. subst dirContent.
    destruct (negb (fn =? ERROR_NO_MORE_FILES)).
    { destruct (g_bSkipError g); constructor. }
    rewrite list_sort_map.
    set (sorted := list_sort _ es).
    assert (Permutation sorted es) as Hperm by apply list_sort_Permutation.
    assert (Forall (fun e => forall path st',
                        Forall (fun p => exists rel,
                                    m_path p = m_path path ++ rel)
                          (flat_map Trace_files
                             (snd (fst (HashNode PathMatchSpec g bSumMode e
                                          path st'))))) sorted) as Hsorted.
    { rewrite Hperm. eapply Forall_sublist; [exact Hsub|].
      eapply Forall_impl; [exact IH|]. intros e He path' st'.
      eapply Forall_impl; [apply He|]. intros p (rel & Hp & _). eauto. }
    pose proof (HashDirectory_for_under path sorted
                  (mkWalkState skipped (g_bMismatchFound st) (digestList st))
                  Hsorted) as Hfor.
    destruct (HashDirectory_for _ _) as [[dwError done] st'].
    simpl in *. rewrite app_nil_r.
    eapply Forall_impl; [exact Hfor|]. intros p [rel Hp].
    exists (backslash :: rel). split; [exact Hp|]. intros _. eauto.
Qed.
End WalkPaths.

Lemma replace_slashes_idemp (s : wstring) :
  replace_slashes (replace_slashes s) = replace_slashes s.
Proof.
  apply replace_slashes_id. unfold replace_slashes. intros Hin.
  apply list_elem_of_fmap in Hin as (c & Hc & _).
  destruct (Z.eqb_spec c slash); [discriminate|congruence].
Qed.

Lemma replace_slashes_take (n : nat) (s : wstring) :
  replace_slashes (take n s) = take n (replace_slashes s).
Proof. unfold replace_slashes. symmetry. apply firstn_map. Qed.

Lemma inputArg_of_replaced (argv_1 : wstring) :
  replace_slashes (inputArg_of argv_1) = inputArg_of argv_1.
Proof.
  unfold inputArg_of. cbv zeta.
  destruct (last (replace_slashes argv_1)) as [c|];
    [|apply replace_slashes_idemp].
  destruct (c =? backslash); [|apply replace_slashes_idemp].
  rewrite replace_slashes_take, replace_slashes_idemp.
  unfold replace_slashes. rewrite length_map. reflexivity.
Qed.

Lemma find_last_of_bound (s : wstring) (c : Z) (pos : nat) :
  find_last_of s c = Some pos -> (pos < length s)%nat.
Proof.
  revert pos. induction s as [|x s IH]; intros pos; [discriminate|].
  simpl. destruct (find_last_of s c) as [q|].
  - intros [= <-]. specialize (IH q eq_refl). lia.
  - destruct (x =? c); [|discriminate]. intros [= <-]. lia.
Qed.

Section InputDirectory.
Context `{Primitives}.
Variable USE_STREEBOG : bool.
Variable PathMatchSpec : wstring -> wstring -> bool.
Variable EnsureAbsolut : wstring -> wstring.

Lemma tmain_checks_input_directory (o : Options) (out : Outside)
  (n : Node) (bIsFile : bool) (inputArg g_inputDirPath : wstring)
  (bSumMode : bool) (pHashes : list Hash) :
  target out = Some n -> is_directory n = true ->
  tmain_checks USE_STREEBOG o out
  = Reached bIsFile inputArg g_inputDirPath bSumMode pHashes ->
  bSumMode = true \/ bVerifyMode o = true ->
  g_inputDirPath = inputDirPath_of o (inputArg_of (argv1 o)).
Proof.
  intros Htarget Hdir. unfold tmain_checks. rewrite Htarget, Hdir.
  destruct (negb (bBenchmarkAllAlgos o) && _); [discriminate|].
  destruct (bVerifyMode o && _); [discriminate|].
  destruct (bBenchmarkOp o); [discriminate|].
  destruct (g_bNoFollow (globals o) && IsReparsePoint n); [discriminate|].
  simpl negb. simpl andb. intros [= _ _ <- <- _] [Hsum|Hverify].
  - rewrite Hsum. reflexivity.
  - rewrite Hverify, orb_true_r. reflexivity.
Qed.

Lemma tmain_verify_input_directory (o : Options) (out : Outside)
  (bIsFile : bool) (inputArg dir : wstring) (bSum : bool)
  (hashes : list Hash) (bSumMode : bool) (g_inputDirPath : wstring)
  (pHashes : list Hash) (digestsList : gmap (list Z) HashResultEntry)
  (skippedLines : list Z) (verifyDigest : ByteArray) :
  tmain_verify EnsureAbsolut o out bIsFile inputArg dir bSum hashes
  = Hashing bSumMode g_inputDirPath pHashes digestsList skippedLines
      verifyDigest ->
  g_inputDirPath = dir.
Proof.
  unfold tmain_verify. destruct hashes as [|h hs]; [discriminate|].
  destruct (ParseSumFile _ _ _ _ _) as [[[|] parsed] skipped].
  - destruct (map_begin parsed) as [[k first]|]; [|discriminate].
    destruct (negb _); [discriminate|].
    destruct bIsFile.
    + destruct (parsed !! _); [|discriminate].
      intros [= _ <- _ _ _ _]. reflexivity.
    + intros [= _ <- _ _ _ _]. reflexivity.
  - destruct (resultFile out) as [[[|] results] raw]; [|discriminate].
    match goal with
    | |- context [match ?found with Some _ => _ | None => Exit (-8) end] =>
        destruct found as [digest|]; [|discriminate]
    end.
    destruct (negb _); [discriminate|].
    intros [= _ <- _ _ _ _]. reflexivity.
Qed.

Lemma tmain_start_input_directory (o : Options) (out : Outside)
  (n : Node) (bSumMode : bool) (g_inputDirPath : wstring)
  (pHashes : list Hash) (digestsList : gmap (list Z) HashResultEntry)
  (skippedLines : list Z) (verifyDigest : ByteArray) :
  target out = Some n -> is_directory n = true ->
  bSumMode = true \/ bVerifyMode o = true ->
  tmain_start USE_STREEBOG EnsureAbsolut o out
  = Hashing bSumMode g_inputDirPath pHashes digestsList skippedLines
      verifyDigest ->
  g_inputDirPath = inputDirPath_of o (inputArg_of (argv1 o)).
Proof.
  intros Htarget Hdir Hmode. unfold tmain_start.
  destruct (tmain_checks USE_STREEBOG o out)
    as [s|bIsFile inputArg dir bSum hashes] eqn:Hchecks.
  { intros ->. apply tmain_checks_Ended in Hchecks as [Hs|[code Hs]];
      discriminate. }
  pose proof (tmain_checks_input_directory o out n _ _ _ _ _ Htarget Hdir
                Hchecks) as Hdirpath.
  destruct (bVerifyMode o) eqn:Hverify.
  - intros Hstart. apply tmain_verify_input_directory in Hstart. subst dir.
    apply Hdirpath. right. reflexivity.
  - intros [= <- <- _ _ _ _]. apply Hdirpath.
    destruct Hmode as [Hsum|Hv]; [left; exact Hsum|discriminate].
Qed.

(** X26.  In sum or verify mode on a directory, the path of every file
    the walk tries to open begins with [g_inputDirPath]: the pointer
    [szFilePath + g_inputDirPathLength], from which [ProcessFile] writes
    the path with [-sumRelativePath], stays inside the path. *)
Theorem walk_paths_under_input_directory (o : Options) (out : Outside)
  (n : Node) (bSumMode : bool) (g_inputDirPath : wstring)
  (pHashes : list Hash) (digestsList : gmap (list Z) HashResultEntry)
  (skippedLines : list Z) (verifyDigest : ByteArray) :
  target out = Some n -> is_directory n = true ->
  bSumMode = true \/ bVerifyMode o = true ->
  tmain_start USE_STREEBOG EnsureAbsolut o out
  = Hashing bSumMode g_inputDirPath pHashes digestsList skippedLines
      verifyDigest ->
  Forall (fun p => exists rel, m_path p = g_inputDirPath ++ rel)
    (flat_map Trace_files
       (tmain_walk USE_STREEBOG PathMatchSpec EnsureAbsolut o out)).
Proof.
  intros Htarget Hdir Hmode Hstart.
  pose proof (tmain_start_input_directory o out n _ _ _ _ _ _ Htarget Hdir
                Hmode Hstart) as ->.
  unfold tmain_walk. rewrite Hstart, Htarget.
  destruct n as [name r openable|name r ff entries fn]; [discriminate|].
  unfold HashDirectory.
  eapply Forall_impl;
    [apply (HashNode_under PathMatchSpec (globals o) bSumMode
              (DirNode [] false ff entries fn))|].
  intros p (rel & Hp & Hrel). destruct (Hrel eq_refl) as [rel' ->].
  unfold CPath_new in Hp. simpl in Hp. rewrite inputArg_of_replaced in Hp.
  unfold inputDirPath_of. destruct (g_bIncludeLastDir o).
  - destruct (find_last_of (inputArg_of (argv1 o)) backslash) as [pos|]
      eqn:Hpos.
    + exists (drop (pos + 1) (inputArg_of (argv1 o)) ++ backslash :: rel').
      rewrite Hp, app_assoc, take_drop. reflexivity.
    + exists (inputArg_of (argv1 o) ++ backslash :: rel'). exact Hp.
  - exists rel'. rewrite Hp, <- app_assoc. reflexivity.
Qed.
End InputDirectory.

Lemma walk_paths_under_input_directory_witness :
  let o :=
    mkOptions (W "root") (W "MD5") false true false false false false
      example_globals in
  length (flat_map Trace_files
            (@tmain_walk transcript true ends_with (fun p => W "c:\" ++ p) o
               example_outside)) = 5%nat
  /\ Forall (fun p => exists rel, m_path p = W "root\" ++ rel)
       (flat_map Trace_files
          (@tmain_walk transcript true ends_with (fun p => W "c:\" ++ p) o
             example_outside)).
Proof.
  intros o. split; [vm_compute; reflexivity|].
  apply (@walk_paths_under_input_directory transcript true ends_with
           (fun p => W "c:\" ++ p) o example_outside example_tree true
           (W "root\") [@Hash_new transcript Md5Cng] ∅ [] []).
  - reflexivity.
  - reflexivity.
  - left. reflexivity.
  - vm_compute. reflexivity.
Defined.

(** ** The name shown with the progress bar *)

(** X27.  For a buffer size from 4 to 256, [GetShortFileName] leaves in
    [szShortName] a string shorter than the buffer size, whatever the
    path; for a buffer size under 4 and a name that is not shorter than
    it, the lengths of the copies wrap around and the copies go outside
    the buffer. *)
Theorem GetShortFileName_fits (bufferSize : Z) (szFilePath : wstring) :
  szFilePath <> [] ->
  (4 <= bufferSize <= 256 ->
   exists szShortName,
     GetShortFileName bufferSize szFilePath = Some szShortName
     /\ Z.of_nat (length szShortName) < bufferSize)
  /\ (1 <= bufferSize < 4 ->
      bufferSize
      <= Z.of_nat
           (length
              (drop (GetFileName_scan szFilePath (length szFilePath - 1) + 1)
                 szFilePath)) ->
      GetShortFileName bufferSize szFilePath = None).
Proof.
  intros Hpath. destruct szFilePath as [|c rest]; [contradiction|].
  unfold GetShortFileName. cbv zeta.
  set (ptr := drop _ (c :: rest)).
  split.
  - intros Hsize.
    destruct (Z.ltb_spec (Z.of_nat (length ptr)) bufferSize) as [Hshort|Hlong].
    { exists ptr. split; [reflexivity|exact Hshort]. }
    assert (0 <= bufferSize / 2 - 2 < 2 ^ 64) as Hprefix.
    { assert (2 <= bufferSize / 2) by (apply Z.div_le_lower_bound; lia).
      assert (bufferSize / 2 <= 128) by (apply Z.div_le_upper_bound; lia).
      lia. }
    assert (to_size_t (bufferSize / 2 - 2) = bufferSize / 2 - 2) as Hp
        by (apply Z.mod_small; exact Hprefix).
    rewrite Hp.
    assert (bufferSize / 2 <= bufferSize - 2) as Hhalf.
    { pose proof (Z.div_mod bufferSize 2 ltac:(lia)).
      pose proof (Z.mod_pos_bound bufferSize 2 ltac:(lia)). lia. }
    assert (to_size_t (bufferSize - (bufferSize / 2 - 2) - 4)
            = bufferSize - (bufferSize / 2 - 2) - 4) as Hs
        by (apply Z.mod_small; lia).
    rewrite Hs.
    replace ((bufferSize / 2 - 2 <=? Z.of_nat (length ptr))
             && (bufferSize - (bufferSize / 2 - 2) - 4
                 <=? Z.of_nat (length ptr))
             && (bufferSize / 2 - 2 + 3
                 + (bufferSize - (bufferSize / 2 - 2) - 4) <=? 256)
             && (1 <=? bufferSize) && (bufferSize <=? 256)) with true.
    2:{ symmetry. rewrite !andb_true_iff, !Z.leb_le. lia. }
    eexists. split; [reflexivity|].
    rewrite length_take. lia.
  - intros Hsize Hname.
    destruct (Z.ltb_spec (Z.of_nat (length ptr)) bufferSize) as [Hshort|Hlong];
      [lia|].
    assert (bufferSize / 2 = 0 \/ bufferSize / 2 = 1) as Hhalf.
    { assert (0 <= bufferSize / 2) by (apply Z.div_pos; lia).
      assert (bufferSize / 2 < 2) by (apply Z.div_lt_upper_bound; lia).
      lia. }
    assert (2 ^ 64 - 2 <= to_size_t (bufferSize / 2 - 2)) as Hwrap.
    { unfold to_size_t. destruct Hhalf as [-> | ->]; vm_compute; discriminate. }
    assert (0 <= to_size_t (bufferSize
                            - to_size_t (bufferSize / 2 - 2) - 4)) as Hpos.
    { unfold to_size_t. apply Z.mod_pos_bound. reflexivity. }
    replace (to_size_t (bufferSize / 2 - 2) + 3
             + to_size_t (bufferSize - to_size_t (bufferSize / 2 - 2) - 4)
             <=? 256) with false.
    2:{ symmetry. apply Z.leb_gt.
        assert (2 ^ 64 = 18446744073709551616) by reflexivity. lia. }
    rewrite andb_false_r. reflexivity.
Qed.

(** X28.  The name [GetShortFileName] shows, when it is shorter than the
    buffer size: what follows the last separator of the path; for a path
    without separator, the path without its first code unit. *)
Theorem GetShortFileName_name (bufferSize : Z) (dir name : wstring)
  (sep c : Z) :
  Forall (fun x => is_separator x = false) name ->
  Z.of_nat (length name) < bufferSize ->
  (is_separator sep = true ->
   GetShortFileName bufferSize (dir ++ sep :: name) = Some name)
  /\ GetShortFileName bufferSize (c :: name) = Some name.
Proof.
  intros Hname Hshort. split.
  - intros Hsep. unfold GetShortFileName.
    destruct (dir ++ sep :: name) as [|x s] eqn:Hs;
      [destruct dir; discriminate|].
    rewrite <- Hs. clear x s Hs. cbv zeta.
    assert (GetFileName_scan (dir ++ sep :: name)
              (length (dir ++ sep :: name) - 1) = length dir) as ->.
    { replace (length (dir ++ sep :: name) - 1)%nat
        with (length dir + length name)%nat
        by (rewrite length_app; simpl; lia).
      apply GetFileName_scan_stops.
      - rewrite app_nth2 by lia. rewrite Nat.sub_diag. exact Hsep.
      - intros j Hj. rewrite app_nth2 by lia.
        replace (j - length dir)%nat with (S (j - length dir - 1)) by lia.
        simpl. apply nth_separator_free; [exact Hname|lia]. }
    replace (dir ++ sep :: name) with ((dir ++ [sep]) ++ name)
      by (rewrite <- app_assoc; reflexivity).
    rewrite drop_app_length' by (rewrite length_app; simpl; lia).
    destruct (Z.ltb_spec (Z.of_nat (length name)) bufferSize); [|lia].
    reflexivity.
  - unfold GetShortFileName. cbv zeta.
    assert (GetFileName_scan (c :: name) (length (c :: name) - 1) = O) as ->.
    { apply GetFileName_scan_start. intros j Hj.
      destruct j as [|j]; [lia|]. simpl.
      apply nth_separator_free; [exact Hname|]. simpl in Hj. lia. }
    change (drop (0 + 1) (c :: name)) with name.
    destruct (Z.ltb_spec (Z.of_nat (length name)) bufferSize); [|lia].
    reflexivity.
Qed.

Lemma GetShortFileName_fits_witness :
  exists szShortName,
    GetShortFileName 9 (W "c:\root\a_rather_long_name.txt") = Some szShortName
    /\ Z.of_nat (length szShortName) < 9.
Proof.
  apply (GetShortFileName_fits 9 (W "c:\root\a_rather_long_name.txt"));
    [discriminate|lia].
Defined.

Lemma GetShortFileName_name_witness :
  GetShortFileName 9 (W "c:\root" ++ backslash :: W "a.txt") = Some (W "a.txt")
  /\ GetShortFileName 9 (97 :: W ".txt") = Some (W ".txt").
Proof.
  destruct (GetShortFileName_name 9 (W "c:\root") (W "a.txt") backslash 97)
    as [Hlast _]; [repeat constructor|reflexivity|].
  destruct (GetShortFileName_name 9 [] (W ".txt") backslash 97)
    as [_ Hfirst]; [repeat constructor|reflexivity|].
  split; [apply Hlast; reflexivity|exact Hfirst].
Defined.

(** ** The walker and the canonical walk *)

Lemma only_marks_dom (dl dl' : gmap (list Z) HashResultEntry) :
  only_marks dl dl' -> dom dl' = dom dl.
Proof.
  intros Hmarks. apply set_eq. intros p. rewrite !elem_of_dom.
  specialize (Hmarks p).
  destruct (dl !! p), (dl' !! p); try contradiction;
    split; intros [x Hx]; try discriminate; eauto.
Qed.

Lemma IsExcludedName_filtered_out (PathMatchSpec : wstring -> wstring -> bool)
  (g : Globals) (szName : wstring) (bIsFile : bool) :
  IsExcludedName PathMatchSpec g szName bIsFile = true
  <-> filtered_out PathMatchSpec g szName bIsFile.
Proof.
  unfold IsExcludedName, filtered_out, matches.
  destruct (decide (bIsFile = true /\ onlySpecList g <> [])) as [[-> Honly]|Hno].
  - rewrite (bool_decide_eq_false_2 _ Honly). simpl.
    rewrite negb_true_iff, <- not_true_iff_false, existsb_elem_of.
    reflexivity.
  - assert (bIsFile && negb (bool_decide (onlySpecList g = [])) = false) as ->.
    { destruct bIsFile; [|reflexivity]. simpl. apply negb_false_iff.
      apply bool_decide_eq_true. destruct (onlySpecList g); [reflexivity|].
      exfalso. apply Hno. split; [reflexivity|discriminate]. }
    apply existsb_elem_of.
Qed.

Section Survivors.
Variable g : Globals.
Variable keys : gset (list Z).
Variable dirPath : CPath.

Lemma survivors_skip (bSumMode : bool) (e : Node) (entries es : list Node) :
  listed g e = false ->
  survivors g bSumMode keys dirPath entries es ->
  survivors g bSumMode keys dirPath (e :: entries) es.
Proof.
  unfold survivors. intros He Hes. simpl. rewrite He. exact Hes.
Qed.

Lemma survivors_keep (bSumMode : bool) (e : Node) (entries es : list Node) :
  listed g e = true ->
  (is_directory e = false ->
   ~ self_file g bSumMode keys (AppendName dirPath (cFileName_of e))) ->
  survivors g bSumMode keys dirPath entries es ->
  survivors g bSumMode keys dirPath (e :: entries) (e :: es).
Proof.
  unfold survivors. intros He Hself Hes. simpl. rewrite He.
  destruct Hes as [->|(l1 & e0 & l2 & Hfilter & -> & Hfile & Hself0 & Hfirst)].
  - left. reflexivity.
  - right. exists (e :: l1), e0, l2. rewrite Hfilter.
    refine (conj eq_refl (conj eq_refl (conj Hfile (conj Hself0 _)))).
    constructor; assumption.
Qed.

Lemma survivors_drop (bSumMode : bool) (e : Node) (entries : list Node) :
  listed g e = true -> is_directory e = false ->
  self_file g bSumMode keys (AppendName dirPath (cFileName_of e)) ->
  survivors g bSumMode keys dirPath (e :: entries)
    (List.filter (listed g) entries).
Proof.
  unfold survivors. intros He Hfile Hself. simpl. rewrite He.
  right. exists [], e, (List.filter (listed g) entries).
  refine (conj eq_refl (conj eq_refl (conj Hfile (conj Hself _)))).
  constructor.
Qed.

Lemma survivors_elem_of (bSumMode : bool) (entries es : list Node) :
  survivors g bSumMode keys dirPath entries es ->
  forall e, e ∈ es -> e ∈ entries /\ listed g e = true.
Proof.
  intros Hes e He.
  assert (e ∈ List.filter (listed g) entries) as Hin.
  { destruct Hes as [->|(l1 & e0 & l2 & -> & -> & _)]; [exact He|].
    apply elem_of_app in He as [He|He]; apply elem_of_app;
      [left; exact He|right; apply list_elem_of_further; exact He]. }
  apply list_elem_of_In, filter_In in Hin as [Hin Hl].
  split; [apply list_elem_of_In; exact Hin|exact Hl].
Qed.

(** A directory that the follow-link filter lets through survives the
    enumeration. *)
Lemma survivors_directory (bSumMode : bool) (entries es : list Node) :
  survivors g bSumMode keys dirPath entries es ->
  forall d, d ∈ entries -> listed g d = true -> is_directory d = true ->
            d ∈ es.
Proof.
  intros Hes d Hd Hl Hdir.
  assert (d ∈ List.filter (listed g) entries) as Hin.
  { apply list_elem_of_In, filter_In.
    split; [apply list_elem_of_In, Hd|exact Hl]. }
  destruct Hes as [->|(l1 & e0 & l2 & Hfilter & -> & Hfile & _)]; [exact Hin|].
  rewrite Hfilter in Hin. apply elem_of_app in Hin as [Hin|Hin].
  - apply elem_of_app. left. exact Hin.
  - apply elem_of_cons in Hin as [->|Hin]; [congruence|].
    apply elem_of_app. right. exact Hin.
Qed.

(** What the enumeration keeps are the survivors. *)
Lemma enumerate_survivors (bSumMode : bool)
  (walk_of : Node -> CPath -> WalkState -> Z * list Trace * WalkState)
  (entries : list Node) (skipped : bool) :
  exists es,
    survivors g bSumMode keys dirPath entries es
    /\ fst (enumerate g bSumMode dirPath (negb (bool_decide (keys = ∅)))
              (map (fun e => (e, walk_of e)) entries) skipped)
       = map (dirContent_entry dirPath walk_of) es.
Proof.
  destruct (bSumMode && negb skipped) eqn:Hon.
  2:{ assert (bSumMode = false \/ skipped = true) as Hplain.
      { destruct bSumMode; [right|left; reflexivity].
        destruct skipped; [reflexivity|discriminate]. }
      rewrite (enumerate_plain g dirPath walk_of bSumMode _ entries skipped
                 Hplain).
      exists (List.filter (listed g) entries). split; [left|]; reflexivity. }
  apply andb_true_iff in Hon as [-> Hs]. apply negb_true_iff in Hs. subst.
  induction entries as [|e entries IH].
  { exists []. split; [left|]; reflexivity. }
  destruct IH as (es & Hsurv & Hes).
  pose proof (enumerate_plain g dirPath walk_of true
                (negb (bool_decide (keys = ∅))) entries true
                (or_intror eq_refl)) as Hrest.
  simpl. rewrite Hrest.
  destruct (enumerate g true dirPath (negb (bool_decide (keys = ∅)))
              (map (fun e => (e, walk_of e)) entries) false)
    as [dirContent skipped'].
  simpl in Hes. subst dirContent.
  assert (forall p, self_file g true keys p
                    <-> if negb (bool_decide (keys = ∅))
                        then _wcsicmp (m_absolutPath (g_verificationFileName g))
                               (m_absolutPath p) = 0
                        else m_absolutPath (g_outputFileName g) <> []
                             /\ _wcsicmp (m_absolutPath (g_outputFileName g))
                                  (m_absolutPath p) = 0) as Hself.
  { intros p. unfold self_file, verifying. simpl. tauto. }
  destruct e as [name r o|name r ff sub fn]; simpl.
  - destruct (negb (g_bNoFollow g) || negb r) eqn:Hfollow; simpl.
    2:{ exists es. split; [|reflexivity]. apply survivors_skip; [|exact Hsurv].
        unfold listed. simpl. exact Hfollow. }
    assert (listed g (FileNode name r o) = true) as Hlisted
      by (unfold listed; simpl; exact Hfollow).
    specialize (Hself (AppendName dirPath name)).
    destruct (negb (bool_decide (keys = ∅))).
    + destruct (_ =? 0) eqn:Hcmp;
        [apply Z.eqb_eq in Hcmp as Heq|apply Z.eqb_neq in Hcmp as Hne]; simpl.
      * exists (List.filter (listed g) entries). split; [|reflexivity].
        apply survivors_drop; [exact Hlisted|reflexivity|].
        apply Hself. exact Heq.
      * exists (FileNode name r o :: es). split; [|reflexivity].
        apply survivors_keep; [exact Hlisted| |exact Hsurv].
        intros _ Hs. apply Hself in Hs. contradiction.
    + destruct (bool_decide_reflect (m_absolutPath (g_outputFileName g) = []))
        as [Hnone|Hsome]; simpl.
      * exists (FileNode name r o :: List.filter (listed g) entries).
        split; [|reflexivity]. left. cbn [List.filter].
        rewrite Hlisted. reflexivity.
      * destruct (_ =? 0) eqn:Hcmp;
          [apply Z.eqb_eq in Hcmp as Heq|apply Z.eqb_neq in Hcmp as Hne];
          simpl.
        -- exists (List.filter (listed g) entries). split; [|reflexivity].
           apply survivors_drop; [exact Hlisted|reflexivity|].
           apply Hself. split; assumption.
        -- exists (FileNode name r o :: es). split; [|reflexivity].
           apply survivors_keep; [exact Hlisted| |exact Hsurv].
           intros _ Hs. apply Hself in Hs. destruct Hs. contradiction.
  - destruct (bool_decide (name = W ".")) eqn:Hdot; simpl.
    { exists es. split; [|reflexivity]. apply survivors_skip; [|exact Hsurv].
      unfold listed, is_dots. simpl. rewrite Hdot. reflexivity. }
    destruct (bool_decide (name = W "..")) eqn:Hdots; simpl.
    { exists es. split; [|reflexivity]. apply survivors_skip; [|exact Hsurv].
      unfold listed, is_dots. simpl. rewrite Hdot, Hdots. reflexivity. }
    destruct (negb (g_bNoFollow g) || negb r) eqn:Hfollow; simpl.
    + exists (DirNode name r ff sub fn :: es). split; [|reflexivity].
      apply survivors_keep; [|discriminate|exact Hsurv].
      unfold listed, is_dots. simpl. rewrite Hdot, Hdots, Hfollow. reflexivity.
    + exists es. split; [|reflexivity]. apply survivors_skip; [|exact Hsurv].
      unfold listed, is_dots. simpl. rewrite Hdot, Hdots, Hfollow. reflexivity.
Qed.
End Survivors.

Section CanonicalWalkProperties.
Variable PathMatchSpec : wstring -> wstring -> bool.
Variable g : Globals.
Variable bSumMode : bool.

Lemma verifying_dom (digestList : gmap (list Z) HashResultEntry) :
  bool_decide (digestList = ∅) = bool_decide (dom digestList = ∅).
Proof. apply bool_decide_ext. symmetry. apply dom_empty_iff_L. Qed.

(** [HashFile] does what the canonical walk does on a file. *)
Lemma HashFile_canonical (name : wstring) (r openable : bool) (path : CPath)
  (st : WalkState) :
  canonical_walk PathMatchSpec g bSumMode (dom (digestList st))
    (FileNode name r openable) path
    (fst (fst (HashFile PathMatchSpec g bSumMode path openable st)))
    (snd (fst (HashFile PathMatchSpec g bSumMode path openable st))).
Proof.
  unfold HashFile.
  destruct (IsExcludedName PathMatchSpec g (m_path path) true) eqn:Hex.
  { apply canonical_file_filtered, IsExcludedName_filtered_out. exact Hex. }
  assert (~ filtered_out PathMatchSpec g (m_path path) true) as Hkeep.
  { rewrite <- IsExcludedName_filtered_out. congruence. }
  assert (forall st1 : WalkState,
             (verifying bSumMode (dom (digestList st)) = true ->
              m_path path ∈ dom (digestList st)) ->
             canonical_walk PathMatchSpec g bSumMode (dom (digestList st))
               (FileNode name r openable) path
               (fst (fst (if openable then (0, [TFile path true], st1)
                          else if g_bSkipError g then
                            (0, [TFile path false],
                             if bSumMode
                             then mkWalkState (g_sumFileSkipped st1) true
                                    (digestList st1)
                             else st1)
                          else (to_dword (-1), [TFile path false], st1))))
               (snd (fst (if openable then (0, [TFile path true], st1)
                          else if g_bSkipError g then
                            (0, [TFile path false],
                             if bSumMode
                             then mkWalkState (g_sumFileSkipped st1) true
                                    (digestList st1)
                             else st1)
                          else (to_dword (-1), [TFile path false], st1)))))
    as Hopen.
  { intros st1 Hlisted.
    pose proof (canonical_file PathMatchSpec g bSumMode (dom (digestList st))
                  name r openable path Hkeep Hlisted) as Hc.
    revert Hc. destruct openable; [|destruct (g_bSkipError g)]; simpl;
      intros Hc; exact Hc. }
  rewrite verifying_dom.
  change (bSumMode && negb (bool_decide (dom (digestList st) = ∅)))
    with (verifying bSumMode (dom (digestList st))).
  destruct (verifying bSumMode (dom (digestList st))) eqn:Hver.
  - destruct (digestList st !! m_path path) as [e|] eqn:He.
    + apply Hopen. intros _. apply elem_of_dom. eauto.
    + assert (m_path path ∉ dom (digestList st)) as Hout
        by (apply not_elem_of_dom; exact He).
      pose proof (canonical_file_unlisted PathMatchSpec g bSumMode
                    (dom (digestList st)) name r openable path Hkeep Hver Hout)
        as Hc.
      revert Hc. destruct (g_bSkipError g); simpl; intros Hc; exact Hc.
  - apply Hopen. discriminate.
Qed.

(** The loop over the sorted entries does what the canonical walk does on
    them. *)
Lemma HashDirectory_for_canonical (keys : gset (list Z)) (dirPath : CPath)
  (es : list Node) (st : WalkState) :
  Forall (fun e => forall path st',
              dom (digestList st') = keys ->
              canonical_walk PathMatchSpec g bSumMode keys e path
                (fst (fst (HashNode PathMatchSpec g bSumMode e path st')))
                (snd (fst (HashNode PathMatchSpec g bSumMode e path st'))))
    es ->
  dom (digestList st) = keys ->
  canonical_entries PathMatchSpec g bSumMode keys dirPath es
    (fst (fst (HashDirectory_for
                 (map (dirContent_entry dirPath
                         (HashNode PathMatchSpec g bSumMode)) es) st)))
    (snd (fst (HashDirectory_for
                 (map (dirContent_entry dirPath
                         (HashNode PathMatchSpec g bSumMode)) es) st))).
Proof.
  intros Hall. revert st.
  induction Hall as [|e es He Hall IH]; intros st Hdom; simpl.
  - constructor.
  - specialize (He (AppendName dirPath (cFileName_of e)) st Hdom).
    pose proof (HashNode_only_marks PathMatchSpec g bSumMode e
                  (AppendName dirPath (cFileName_of e)) st) as [Hmarks _].
    destruct (HashNode PathMatchSpec g bSumMode e
                (AppendName dirPath (cFileName_of e)) st)
      as [[dwError done] st'].
    simpl in He, Hmarks. apply only_marks_dom in Hmarks.
    destruct (Z.eqb_spec dwError 0) as [->|Hne].
    + specialize (IH st'). rewrite Hmarks in IH. specialize (IH Hdom).
      destruct (HashDirectory_for _ st') as [[dwError' done'] st''].
      simpl in *. apply canonical_next; assumption.
    + simpl. apply canonical_stop; assumption.
Qed.

(** The walker does what the canonical walk does. *)
Lemma HashNode_canonical (n : Node) (path : CPath) (st : WalkState) :
  well_named n = true ->
  canonical_walk PathMatchSpec g bSumMode (dom (digestList st)) n path
    (fst (fst (HashNode PathMatchSpec g bSumMode n path st)))
    (snd (fst (HashNode PathMatchSpec g bSumMode n path st))).
Proof.
  revert path st. induction n as [name r openable|name r ff entries fn IH]
    using Node_nested_ind; intros path st Hnamed.
  - apply HashFile_canonical.
  - pose proof (well_named_entries _ _ _ _ _ Hnamed) as Hentries.
    rewrite HashNode_DirNode. unfold HashDirectory_body.
    destruct (IsExcludedName PathMatchSpec g (m_path path) false) eqn:Hex.
    { apply canonical_dir_filtered, IsExcludedName_filtered_out. exact Hex. }
    assert (~ filtered_out PathMatchSpec g (m_path path) false) as Hkeep.
    { rewrite <- IsExcludedName_filtered_out. congruence. }
    destruct ff as [dwError|].
    { pose proof (canonical_dir_not_found PathMatchSpec g bSumMode
                    (dom (digestList st)) name r dwError entries fn path Hkeep)
        as Hc.
      revert Hc. destruct (g_bSkipError g); simpl; intros Hc; exact Hc. }
    rewrite verifying_dom.
    destruct (enumerate_survivors g (dom (digestList st)) path bSumMode
                (HashNode PathMatchSpec g bSumMode) entries
                (g_sumFileSkipped st)) as (es & Hsurv & Hes).
    destruct (enumerate _ _ _ _ _ _) as [dirContent skipped].
    simpl in Hes. subst dirContent.
    destruct (Z.eqb_spec fn ERROR_NO_MORE_FILES) as [->|Hfn]; simpl negb;
      cbv iota.
    2:{ pose proof (canonical_dir_not_listed PathMatchSpec g bSumMode
                      (dom (digestList st)) name r entries fn path Hkeep Hfn)
          as Hc.
        revert Hc. destruct (g_bSkipError g); simpl; intros Hc; exact Hc. }
    rewrite list_sort_map.
    rewrite (list_sort_ext _
               (fun a b => compare_nocase (cFileName_of a) (cFileName_of b)))
      by (intros a b; apply compare_dirContent_entry).
    set (sorted := list_sort _ es).
    assert (Permutation sorted es) as Hperm by apply list_sort_Permutation.
    assert (Forall (fun e => e ∈ entries) es) as Hes_in.
    { apply Forall_forall. intros e He.
      apply (survivors_elem_of g _ path bSumMode entries es Hsurv e He). }
    assert (Forall (fun e => well_named e = true) es) as Hes_named.
    { eapply Forall_impl; [exact Hes_in|]. intros e He.
      rewrite Forall_forall in Hentries. apply Hentries. exact He. }
    assert (StronglySorted nocase_le (map cFileName_of sorted)) as Hsorted.
    { apply StronglySorted_map, sorted_entries_ascending. exact Hes_named. }
    assert (Forall (fun e => forall path st',
                        dom (digestList st') = dom (digestList st) ->
                        canonical_walk PathMatchSpec g bSumMode
                          (dom (digestList st)) e path
                          (fst (fst (HashNode PathMatchSpec g bSumMode e path
                                       st')))
                          (snd (fst (HashNode PathMatchSpec g bSumMode e path
                                       st')))) sorted) as Hwalk.
    { rewrite Hperm. apply Forall_forall. intros e He path' st' Hdom.
      rewrite Forall_forall in IH, Hes_in, Hes_named.
      rewrite <- Hdom. apply IH; auto. }
    pose proof (HashDirectory_for_canonical (dom (digestList st)) path sorted
                  (mkWalkState skipped (g_bMismatchFound st) (digestList st))
                  Hwalk eq_refl) as Hfor.
    destruct (HashDirectory_for _ _) as [[dwError done] st'].
    simpl in *.
    exact (canonical_dir PathMatchSpec g bSumMode (dom (digestList st)) name r
             entries path es sorted dwError done Hkeep Hsurv Hperm Hsorted
             Hfor).
Qed.
End CanonicalWalkProperties.

Section ReadingCanonicalWalk.
Variable PathMatchSpec : wstring -> wstring -> bool.
Variable g : Globals.
Variable bSumMode : bool.
Variable keys : gset (list Z).

(** A canonical walk that returns 0 on the entries of a directory has
    walked every one of them, in their order. *)
Lemma canonical_entries_zero (dirPath : CPath) (es : list Node)
  (done : list Trace) :
  canonical_entries PathMatchSpec g bSumMode keys dirPath es 0 done ->
  exists traces : list (list Trace),
    Forall2 (fun e d =>
               canonical_walk PathMatchSpec g bSumMode keys e
                 (AppendName dirPath (cFileName_of e)) 0 d) es traces
    /\ done = concat traces.
Proof.
  revert done. induction es as [|e es IH]; intros done Hwalk.
  - inversion Hwalk; subst. exists []. split; [constructor|reflexivity].
  - inversion Hwalk; subst; [contradiction|].
    destruct (IH _ ltac:(eassumption)) as (traces & Hall & ->).
    exists (done0 :: traces). split; [constructor; assumption|reflexivity].
Qed.

(** A canonical walk does nothing at all, tries the one file or lists the
    one directory it is on. *)
Lemma canonical_walk_shape (n : Node) (path : CPath) (dwError : Z)
  (done : list Trace) :
  canonical_walk PathMatchSpec g bSumMode keys n path dwError done ->
  done = [] \/ exists t, done = [t] /\ Trace_path t = path.
Proof. intros Hwalk. inversion Hwalk; subst; eauto. Qed.
End ReadingCanonicalWalk.

Section CanonicalWalkComplete.
Variable PathMatchSpec : wstring -> wstring -> bool.
Variable g : Globals.
Variable keys : gset (list Z).
Hypothesis no_only : onlySpecList g = [].
Hypothesis no_exclude : excludeSpecList g = [].
Hypothesis follow : g_bNoFollow g = false.

Lemma filtered_out_no_filter (szName : wstring) (bIsFile : bool) :
  ~ filtered_out PathMatchSpec g szName bIsFile.
Proof.
  rewrite <- IsExcludedName_filtered_out.
  rewrite (IsExcludedName_no_filter PathMatchSpec g no_only no_exclude).
  discriminate.
Qed.

Lemma survivors_plain (dirPath : CPath) (entries es : list Node) :
  survivors g false keys dirPath entries es ->
  es = List.filter (listed g) entries.
Proof.
  intros [->|(l1 & e & l2 & _ & _ & _ & [Hsum _] & _)];
    [reflexivity|discriminate].
Qed.

Lemma canonical_entries_complete (dirPath : CPath) (es : list Node)
  (dwError : Z) (done : list Trace) :
  Forall (fun e => forall path dwError done,
              canonical_walk PathMatchSpec g false keys e path dwError done ->
              dwError = 0
              /\ Permutation (flat_map Trace_files done) (tree_files path e))
    es ->
  canonical_entries PathMatchSpec g false keys dirPath es dwError done ->
  dwError = 0
  /\ Permutation (flat_map Trace_files done)
       (flat_map (fun e => tree_files (AppendName dirPath (cFileName_of e)) e)
          es).
Proof.
  intros Hall. revert dwError done.
  induction Hall as [|e es He Hall IH]; intros dwError done Hwalk.
  - inversion Hwalk; subst. split; [reflexivity|constructor].
  - inversion Hwalk as [|? ? ? ? ? Hstop Hne|? ? ? done1 ? done2 Hhead Htail];
      subst.
    + destruct (He _ _ _ Hstop) as [Hzero _]. contradiction.
    + destruct (He _ _ _ Hhead) as [_ Hfiles].
      destruct (IH _ _ Htail) as [Hzero Hrest].
      split; [exact Hzero|]. simpl. rewrite flat_map_app.
      apply Permutation_app; assumption.
Qed.

(** The canonical walk alone settles what a walk without filters and
    without errors does outside sum mode: it returns 0 and tries the files
    of the tree, every one once. *)
Lemma canonical_walk_complete (n : Node) (path : CPath) (dwError : Z)
  (done : list Trace) :
  all_readable n = true ->
  canonical_walk PathMatchSpec g false keys n path dwError done ->
  dwError = 0 /\ Permutation (flat_map Trace_files done) (tree_files path n).
Proof.
  revert path dwError done.
  induction n as [name r openable|name r ff entries fn IH]
    using Node_nested_ind; intros path dwError done Hread Hwalk.
  - simpl in Hread. subst openable. inversion Hwalk; subst.
    + exfalso. eapply filtered_out_no_filter. eassumption.
    + discriminate.
    + simpl. split; reflexivity.
  - simpl in Hread. apply andb_true_iff in Hread as [Hread Hentries].
    apply andb_true_iff in Hread as [Hff Hfn].
    apply bool_decide_eq_true in Hff. apply Z.eqb_eq in Hfn.
    apply forallb_Forall_true in Hentries.
    inversion Hwalk as [| | | | | |? ? ? ? es sorted ? children Hkeep Hsurv
                                     Hperm Hsorted Hentries_walk];
      subst; try discriminate; try contradiction.
    + exfalso. eapply filtered_out_no_filter. eassumption.
    + apply survivors_plain in Hsurv. subst es.
      assert (Forall (fun e => forall path dwError done,
                          canonical_walk PathMatchSpec g false keys e path
                            dwError done ->
                          dwError = 0
                          /\ Permutation (flat_map Trace_files done)
                               (tree_files path e)) sorted) as Hall.
      { rewrite Hperm. apply Forall_forall. intros e He path' c d Hc.
        apply list_elem_of_In, filter_In in He as [He _].
        apply list_elem_of_In in He.
        rewrite Forall_forall in IH, Hentries.
        apply (IH e He path' c d (Hentries e He) Hc). }
      destruct (canonical_entries_complete path sorted dwError children Hall
                  Hentries_walk) as [Hzero Hfiles].
      split; [exact Hzero|]. simpl. rewrite app_nil_r, Hfiles.
      rewrite <- (tree_files_listed g follow).
      apply Permutation_flat_map. exact Hperm.
Qed.
End CanonicalWalkComplete.

(** A walk of the example tree that lists the root and goes on with none of
    its entries is not a canonical walk. *)
Example canonical_walk_skips_nothing :
  ~ canonical_walk ends_with example_globals false ∅ example_tree example_root
      0 [TDir example_root []].
Proof.
  intros Hwalk.
  destruct (canonical_walk_complete ends_with example_globals ∅ eq_refl
              eq_refl eq_refl example_tree example_root 0
              [TDir example_root []] eq_refl Hwalk) as [_ Hfiles].
  apply Permutation_length in Hfiles. discriminate.
Qed.
Section CanonicalOrder.
Variable PathMatchSpec : wstring -> wstring -> bool.
Variable g : Globals.
Variable bSumMode : bool.

(** C1.  Whatever the tree, the filters, the mode and the errors met, the
    walker does what the canonical walk does: in every directory it lists,
    the entries that survive the enumeration are walked one after the other
    in ascending case-insensitive order of their names, every one of them up
    to the first that returns an error; a directory among them that the
    exclude patterns let through is listed and gone down into, a file among
    them that the include or exclude patterns let through is tried (in a
    verification, when the table lists it).  Hence, under every directory
    listed, what was done concerns entries of that directory in ascending
    order of their names. *)
Theorem walker_canonical_tree_order (n : Node) (path : CPath)
  (st : WalkState) :
  well_named n = true ->
  let r := HashNode PathMatchSpec g bSumMode n path st in
  canonical_walk PathMatchSpec g bSumMode (dom (digestList st)) n path
    (fst (fst r)) (snd (fst r))
  /\ Forall walk_ordered (snd (fst r)).
Proof.
  intros Hnamed. split.
  - apply HashNode_canonical. exact Hnamed.
  - apply HashNode_walk_ordered. exact Hnamed.
Qed.
End CanonicalOrder.

Lemma walker_canonical_tree_order_witness :
  well_named example_tree = true
  /\ canonical_walk ends_with example_globals false ∅ example_tree
       example_root 0
       [TDir example_root
          [TFile (AppendName example_root (W "A.TXT")) true;
           TFile (AppendName example_root (W "b.txt")) true;
           TFile (AppendName example_root (W "c.bin")) true;
           TDir (AppendName example_root (W "Dir"))
             [TFile (AppendName (AppendName example_root (W "Dir"))
                       (W "Y.bin")) true;
              TFile (AppendName (AppendName example_root (W "Dir"))
                       (W "z.txt")) true]]].
Proof.
  assert (well_named example_tree = true) as Hnamed by reflexivity.
  split; [exact Hnamed|].
  pose proof (proj1 (walker_canonical_tree_order ends_with example_globals
                       false example_tree example_root
                       (mkWalkState false false ∅) Hnamed)) as Hwalk.
  cbn [digestList] in Hwalk. rewrite dom_empty_L in Hwalk. exact Hwalk.
Defined.

(** ** Include patterns *)

Lemma filter_flat_map {A B : Type} (f : B -> bool) (h : A -> list B)
  (l : list A) :
  List.filter f (flat_map h l) = flat_map (fun x => List.filter f (h x)) l.
Proof.
  induction l as [|x l IH]; [reflexivity|]. simpl.
  rewrite List.filter_app, IH. reflexivity.
Qed.

Section IncludePatterns.
Variable PathMatchSpec : wstring -> wstring -> bool.
Variable g : Globals.
Hypothesis some_only : onlySpecList g <> [].
Hypothesis no_exclude : excludeSpecList g = [].

Lemma IsExcludedName_only_file (szName : wstring) :
  IsExcludedName PathMatchSpec g szName true
  = negb (existsb (fun spec => PathMatchSpec szName spec) (onlySpecList g)).
Proof.
  unfold IsExcludedName. rewrite (bool_decide_eq_false_2 _ some_only).
  reflexivity.
Qed.

Lemma IsExcludedName_only_directory (szName : wstring) :
  IsExcludedName PathMatchSpec g szName false = false.
Proof. rewrite IsExcludedName_directory, no_exclude. reflexivity. Qed.

(** A file that no include pattern matches is left out. *)
Lemma HashFile_not_included (bSumMode : bool) (filePath : CPath)
  (openable : bool) (st : WalkState) :
  ~ matches PathMatchSpec (onlySpecList g) (m_path filePath) ->
  HashFile PathMatchSpec g bSumMode filePath openable st = (0, [], st).
Proof.
  intros Hno. unfold HashFile. rewrite IsExcludedName_only_file.
  destruct (existsb _ (onlySpecList g)) eqn:Hin; [|reflexivity].
  exfalso. apply Hno. apply existsb_elem_of in Hin. exact Hin.
Qed.

(** A file that an include pattern matches is tried, unless the walk
    verifies against a table that does not list it. *)
Lemma HashFile_included (bSumMode : bool) (filePath : CPath)
  (openable : bool) (st : WalkState) :
  matches PathMatchSpec (onlySpecList g) (m_path filePath) ->
  bSumMode = false \/ digestList st = ∅
  \/ is_Some (digestList st !! m_path filePath) ->
  fst (HashFile PathMatchSpec g bSumMode filePath openable st)
  = (if openable || g_bSkipError g then 0 else to_dword (-1),
     [TFile filePath openable]).
Proof.
  intros Hin Hlisted. unfold HashFile. rewrite IsExcludedName_only_file.
  assert (existsb (fun spec => PathMatchSpec (m_path filePath) spec)
            (onlySpecList g) = true) as ->
    by (apply existsb_elem_of; exact Hin).
  simpl negb. cbv iota.
  assert (forall st1 : WalkState,
             fst (if openable then (0, [TFile filePath true], st1)
                  else if g_bSkipError g then
                    (0, [TFile filePath false],
                     if bSumMode
                     then mkWalkState (g_sumFileSkipped st1) true
                            (digestList st1)
                     else st1)
                  else (to_dword (-1), [TFile filePath false], st1))
             = (if openable || g_bSkipError g then 0 else to_dword (-1),
                [TFile filePath openable])) as Hopen.
  { intros st1. destruct openable; [|destruct (g_bSkipError g)]; reflexivity. }
  destruct (bSumMode && negb (bool_decide (digestList st = ∅))) eqn:Hver;
    [|apply Hopen].
  apply andb_true_iff in Hver as [Hsum Hver]. apply negb_true_iff in Hver.
  apply bool_decide_eq_false in Hver.
  destruct Hlisted as [Hplain|[Hempty|[e He]]]; [congruence|contradiction|].
  rewrite He. apply Hopen.
Qed.

(** Every file the walk tries is matched by an include pattern. *)
Lemma HashNode_tries_included (bSumMode : bool) (n : Node) (path : CPath)
  (st : WalkState) :
  Forall (fun p => matches PathMatchSpec (onlySpecList g) (m_path p))
    (flat_map Trace_files
       (snd (fst (HashNode PathMatchSpec g bSumMode n path st)))).
Proof.
  pose (R := fun (st : WalkState) (r : Z * list Trace * WalkState) =>
               Forall (fun p => matches PathMatchSpec (onlySpecList g)
                                  (m_path p))
                 (flat_map Trace_files (snd (fst r)))).
  apply (HashNode_walk_ind PathMatchSpec g bSumMode R R); unfold R; clear R.
  - intros filePath openable st0.
    destruct (IsExcludedName PathMatchSpec g (m_path filePath) true) eqn:Hex.
    + unfold HashFile. rewrite Hex. constructor.
    + rewrite IsExcludedName_only_file in Hex. apply negb_false_iff in Hex.
      apply existsb_elem_of in Hex.
      destruct (HashFile_shape PathMatchSpec g bSumMode filePath openable st0)
        as [Hnone|[opened Hone]]; simpl in *.
      * rewrite Hnone. constructor.
      * rewrite Hone. simpl. constructor; [exact Hex|constructor].
  - intros st0. constructor.
  - intros st0 skipped dirPath dwError _. simpl. constructor.
  - intros st0 skipped dirPath dwError done st' _ Hdone. simpl in *.
    rewrite app_nil_r. exact Hdone.
  - intros st0. constructor.
  - intros st0 done st' dwError' done' st'' H1 H2. simpl in *.
    rewrite flat_map_app. apply Forall_app. split; assumption.
  - intros st0 dwError done st' _ HR. exact HR.
Qed.

(** A directory is listed whatever its name. *)
Lemma HashNode_directory_listed (bSumMode : bool) (name : wstring)
  (r : bool) (ff : option Z) (entries : list Node) (fn : Z) (path : CPath)
  (st : WalkState) :
  exists dwError children st',
    HashNode PathMatchSpec g bSumMode (DirNode name r ff entries fn) path st
    = (dwError, [TDir path children], st').
Proof.
  rewrite HashNode_DirNode.
  apply HashDirectory_body_listed, IsExcludedName_only_directory.
Qed.

(** A loop that returns 0 has walked every entry. *)
Lemma HashDirectory_for_walks_all (bSumMode : bool) (dirPath : CPath)
  (es : list Node) (st : WalkState) (done : list Trace) (st' : WalkState) :
  HashDirectory_for
    (map (dirContent_entry dirPath (HashNode PathMatchSpec g bSumMode)) es) st
  = (0, done, st') ->
  forall e, e ∈ es ->
    exists st1 done1 st2,
      HashNode PathMatchSpec g bSumMode e (AppendName dirPath (cFileName_of e))
        st1 = (0, done1, st2)
      /\ forall t, t ∈ done1 -> t ∈ done.
Proof.
  revert st done. induction es as [|e0 es IH]; intros st done Hfor e He.
  { apply elem_of_nil in He. contradiction. }
  simpl in Hfor.
  destruct (HashNode PathMatchSpec g bSumMode e0
              (AppendName dirPath (cFileName_of e0)) st)
    as [[dwError done0] st0] eqn:Hwalk.
  destruct (Z.eqb_spec dwError 0) as [->|Hne].
  2:{ injection Hfor as Hcode _ _. contradiction. }
  destruct (HashDirectory_for _ st0) as [[dwError' done'] st''] eqn:Hrest.
  injection Hfor as -> <- <-.
  apply elem_of_cons in He as [->|He].
  - exists st, done0, st0. split; [exact Hwalk|].
    intros t Ht. apply elem_of_app. left. exact Ht.
  - destruct (IH st0 done' Hrest e He) as (st1 & done1 & st2 & Hwalk1 & Hsub).
    exists st1, done1, st2. split; [exact Hwalk1|].
    intros t Ht. apply elem_of_app. right. apply Hsub. exact Ht.
Qed.

(** A walk of a directory that returns 0 has gone down into every
    directory that the enumeration returned, but for [.], [..] and what the
    follow-link filter drops. *)
Lemma HashNode_descends (bSumMode : bool) (name : wstring) (r : bool)
  (entries : list Node) (path : CPath) (st : WalkState)
  (children : list Trace) (st' : WalkState) :
  HashNode PathMatchSpec g bSumMode
    (DirNode name r None entries ERROR_NO_MORE_FILES) path st
  = (0, [TDir path children], st') ->
  forall d, d ∈ entries -> is_directory d = true -> listed g d = true ->
    exists st1 children' st2,
      HashNode PathMatchSpec g bSumMode d (AppendName path (cFileName_of d))
        st1
      = (0, [TDir (AppendName path (cFileName_of d)) children'], st2)
      /\ TDir (AppendName path (cFileName_of d)) children' ∈ children.
Proof.
  rewrite HashNode_DirNode. unfold HashDirectory_body.
  rewrite IsExcludedName_only_directory, verifying_dom.
  destruct (enumerate_survivors g (dom (digestList st)) path bSumMode
              (HashNode PathMatchSpec g bSumMode) entries
              (g_sumFileSkipped st)) as (es & Hsurv & Hes).
  destruct (enumerate _ _ _ _ _ _) as [dirContent skipped].
  simpl in Hes. subst dirContent.
  change (negb (ERROR_NO_MORE_FILES =? ERROR_NO_MORE_FILES)) with false.
  cbv iota. rewrite list_sort_map.
  set (sorted := list_sort _ es).
  assert (Permutation sorted es) as Hperm by apply list_sort_Permutation.
  destruct (HashDirectory_for _ _) as [[dwError done] st''] eqn:Hfor.
  intros Hwalk d Hd Hdir Hlisted. injection Hwalk as -> -> ->.
  assert (d ∈ sorted) as Hin.
  { rewrite Hperm.
    apply (survivors_directory g _ path bSumMode entries es Hsurv d Hd Hlisted
             Hdir). }
  destruct (HashDirectory_for_walks_all bSumMode path sorted _ _ _ Hfor d Hin)
    as (st1 & done1 & st2 & Hwalk1 & Hsub).
  destruct d as [dname dr o|dname dr dff dentries dfn]; [discriminate|].
  destruct (HashNode_directory_listed bSumMode dname dr dff dentries dfn
              (AppendName path dname) st1) as (c & children' & s & Hshape).
  simpl cFileName_of in *. rewrite Hshape in Hwalk1.
  injection Hwalk1 as -> <- ->.
  exists st1, children', st2. split; [exact Hshape|].
  apply Hsub. apply list_elem_of_here.
Qed.

Hypothesis follow : g_bNoFollow g = false.

Lemma tree_listed {A : Type} (h : Node -> list A) (entries : list Node) :
  flat_map h (List.filter (listed g) entries)
  = flat_map (fun e => if is_dots e then [] else h e) entries.
Proof.
  induction entries as [|e entries IH]; [reflexivity|]. simpl.
  unfold listed at 1. rewrite follow. simpl. rewrite andb_true_r.
  destruct (is_dots e); simpl; rewrite IH; reflexivity.
Qed.

Lemma tree_files_included (path : CPath) (entries : list Node) :
  flat_map (fun e => List.filter (included PathMatchSpec (onlySpecList g))
                       (tree_files (AppendName path (cFileName_of e)) e))
    (List.filter (listed g) entries)
  = List.filter (included PathMatchSpec (onlySpecList g))
      (flat_map (fun e =>
                   if is_dots e then []
                   else tree_files (AppendName path (cFileName_of e)) e)
         entries).
Proof.
  rewrite filter_flat_map, tree_listed. apply flat_map_ext.
  intros e. destruct (is_dots e); reflexivity.
Qed.

Lemma HashDirectory_for_only (dirPath : CPath) (es : list Node)
  (st : WalkState) :
  Forall (fun e => forall path st',
              exists done,
                HashNode PathMatchSpec g false e path st' = (0, done, st')
                /\ Permutation (flat_map Trace_files done)
                     (List.filter (included PathMatchSpec (onlySpecList g))
                        (tree_files path e))
                /\ Permutation (flat_map Trace_dirs done) (tree_dirs path e))
    es ->
  exists done,
    HashDirectory_for
      (map (dirContent_entry dirPath (HashNode PathMatchSpec g false)) es) st
    = (0, done, st)
    /\ Permutation (flat_map Trace_files done)
         (flat_map
            (fun e => List.filter (included PathMatchSpec (onlySpecList g))
                        (tree_files (AppendName dirPath (cFileName_of e)) e))
            es)
    /\ Permutation (flat_map Trace_dirs done)
         (flat_map (fun e => tree_dirs (AppendName dirPath (cFileName_of e)) e)
            es).
Proof.
  induction 1 as [|e es He Hes IH]; simpl.
  - exists []. split; [reflexivity|]. split; constructor.
  - destruct (He (AppendName dirPath (cFileName_of e)) st)
      as (done & -> & Hfiles & Hdirs).
    destruct IH as (done' & -> & Hfiles' & Hdirs'). simpl.
    exists (done ++ done'). split; [reflexivity|].
    rewrite !flat_map_app. split; apply Permutation_app; assumption.
Qed.

(** Outside sum mode and on a tree where every directory can be listed and
    every file can be opened, the walk lists every directory of the tree
    and tries the files that an include pattern matches, and no other. *)
Lemma HashNode_only (n : Node) (path : CPath) (st : WalkState) :
  all_readable n = true ->
  exists done,
    HashNode PathMatchSpec g false n path st = (0, done, st)
    /\ Permutation (flat_map Trace_files done)
         (List.filter (included PathMatchSpec (onlySpecList g))
            (tree_files path n))
    /\ Permutation (flat_map Trace_dirs done) (tree_dirs path n).
Proof.
  revert path st. induction n as [name r openable|name r ff entries fn IH]
    using Node_nested_ind; intros path st Hread.
  - simpl in Hread. subst openable. simpl. unfold HashFile.
    rewrite IsExcludedName_only_file.
    fold (included PathMatchSpec (onlySpecList g) path).
    destruct (included PathMatchSpec (onlySpecList g) path); simpl.
    + exists [TFile path true]. repeat split; reflexivity.
    + exists []. repeat split; reflexivity.
  - simpl in Hread. apply andb_true_iff in Hread as [Hread Hentries].
    apply andb_true_iff in Hread as [Hff Hfn].
    apply bool_decide_eq_true in Hff. subst ff.
    rewrite HashNode_DirNode. unfold HashDirectory_body.
    rewrite IsExcludedName_only_directory.
    rewrite (enumerate_plain g path (HashNode PathMatchSpec g false) false
               (negb (bool_decide (digestList st = ∅))) entries
               (g_sumFileSkipped st) (or_introl eq_refl)).
    rewrite Hfn. simpl negb. cbv iota.
    rewrite list_sort_map.
    set (sorted := list_sort _ (List.filter (listed g) entries)).
    assert (Permutation sorted (List.filter (listed g) entries)) as Hperm
      by apply list_sort_Permutation.
    assert (Forall (fun e => forall path st',
                        exists done,
                          HashNode PathMatchSpec g false e path st'
                          = (0, done, st')
                          /\ Permutation (flat_map Trace_files done)
                               (List.filter
                                  (included PathMatchSpec (onlySpecList g))
                                  (tree_files path e))
                          /\ Permutation (flat_map Trace_dirs done)
                               (tree_dirs path e)) sorted) as Hsorted.
    { rewrite Hperm. apply Forall_forall. intros e He path' st'.
      apply list_elem_of_In, filter_In in He as [He _].
      apply list_elem_of_In in He.
      rewrite Forall_forall in IH. apply (IH e He).
      apply forallb_Forall_true in Hentries.
      rewrite Forall_forall in Hentries. exact (Hentries e He). }
    destruct (HashDirectory_for_only path sorted
                (mkWalkState (g_sumFileSkipped st) (g_bMismatchFound st)
                   (digestList st)) Hsorted) as (done & -> & Hfiles & Hdirs).
    exists [TDir path done]. destruct st as [s m dl]. simpl.
    split; [reflexivity|]. rewrite app_nil_r. split.
    + rewrite Hfiles, <- tree_files_included.
      apply Permutation_flat_map. exact Hperm.
    + constructor. rewrite app_nil_r, Hdirs.
      rewrite <- (tree_listed
                    (fun e => tree_dirs (AppendName path (cFileName_of e)) e)).
      apply Permutation_flat_map. exact Hperm.
Qed.
End IncludePatterns.

(** C8.  Exclude patterns apply to directories and, when there is no
    include pattern, to files: what one of them matches is left out.  With
    include patterns and no exclude pattern: a file that no include pattern
    matches is left out, a file that one matches is tried (in a
    verification, when the table lists it), and no walk tries a file that
    no include pattern matches; a directory is listed whatever its name,
    and a walk of a directory that returns 0 has gone down into every
    directory the enumeration returned, but for [.], [..] and what the
    follow-link filter drops.  So, outside sum mode, without [-nofollow]
    and on a tree that can be read, the walk lists every directory of the
    tree and tries the files that an include pattern matches, every one
    once and no other file. *)
Theorem include_patterns_apply_to_files_only
  (PathMatchSpec : wstring -> wstring -> bool) (g : Globals)
  (bSumMode : bool) :
  (forall n path st,
      is_directory n = true \/ onlySpecList g = [] ->
      matches PathMatchSpec (excludeSpecList g) (m_path path) ->
      HashNode PathMatchSpec g bSumMode n path st = (0, [], st))
  /\ (onlySpecList g <> [] -> excludeSpecList g = [] ->
      (forall name r openable path st,
          (~ matches PathMatchSpec (onlySpecList g) (m_path path) ->
           HashNode PathMatchSpec g bSumMode (FileNode name r openable) path st
           = (0, [], st))
          /\ (matches PathMatchSpec (onlySpecList g) (m_path path) ->
              bSumMode = false \/ digestList st = ∅
              \/ is_Some (digestList st !! m_path path) ->
              fst (HashNode PathMatchSpec g bSumMode
                     (FileNode name r openable) path st)
              = (if openable || g_bSkipError g then 0 else to_dword (-1),
                 [TFile path openable])))
      /\ (forall n path st,
            Forall (fun p => matches PathMatchSpec (onlySpecList g) (m_path p))
              (flat_map Trace_files
                 (snd (fst (HashNode PathMatchSpec g bSumMode n path st)))))
      /\ (forall name r findFirstError entries findNextError path st,
            exists dwError children st',
              HashNode PathMatchSpec g bSumMode
                (DirNode name r findFirstError entries findNextError) path st
              = (dwError, [TDir path children], st'))
      /\ (forall name r entries path st children st',
            HashNode PathMatchSpec g bSumMode
              (DirNode name r None entries ERROR_NO_MORE_FILES) path st
            = (0, [TDir path children], st') ->
            forall d,
              d ∈ entries -> is_directory d = true -> listed g d = true ->
              exists st1 children' st2,
                HashNode PathMatchSpec g bSumMode d
                  (AppendName path (cFileName_of d)) st1
                = (0, [TDir (AppendName path (cFileName_of d)) children'], st2)
                /\ TDir (AppendName path (cFileName_of d)) children'
                   ∈ children)
      /\ (g_bNoFollow g = false ->
          forall n path st,
            all_readable n = true ->
            exists done,
              HashNode PathMatchSpec g false n path st = (0, done, st)
              /\ Permutation (flat_map Trace_files done)
                   (List.filter (included PathMatchSpec (onlySpecList g))
                      (tree_files path n))
              /\ Permutation (flat_map Trace_dirs done) (tree_dirs path n))).
Proof.
  split.
  - intros n path st Hkind Hmatch.
    assert (IsExcludedName PathMatchSpec g (m_path path) (negb (is_directory n))
            = true) as Hex.
    { apply IsExcludedName_filtered_out. unfold filtered_out.
      destruct (decide _) as [[Hfile Honly]|_]; [|exact Hmatch].
      destruct Hkind as [Hdir|Hnone]; [|contradiction].
      rewrite Hdir in Hfile. discriminate. }
    destruct n as [name r openable|name r ff entries fn]; simpl in Hex.
    + simpl. unfold HashFile. rewrite Hex. reflexivity.
    + rewrite HashNode_DirNode. unfold HashDirectory_body. rewrite Hex.
      reflexivity.
  - intros Honly Hexclude. repeat apply conj.
    + intros name r openable path st. split.
      * apply HashFile_not_included. exact Honly.
      * apply HashFile_included. exact Honly.
    + intros n path st.
      apply HashNode_tries_included; assumption.
    + intros name r ff entries fn path st.
      apply HashNode_directory_listed. exact Hexclude.
    + intros name r entries path st children st'.
      apply HashNode_descends. exact Hexclude.
    + intros Hfollow n path st.
      apply HashNode_only; assumption.
Qed.

Lemma include_patterns_apply_to_files_only_witness :
  onlySpecList example_only_txt <> []
  /\ excludeSpecList example_only_txt = []
  /\ exists done,
      HashNode ends_with example_only_txt false example_tree example_root
        (mkWalkState false false ∅)
      = (0, done, mkWalkState false false ∅)
      /\ Permutation (flat_map Trace_files done)
           [AppendName example_root (W "b.txt");
            AppendName (AppendName example_root (W "Dir")) (W "z.txt")]
      /\ Permutation (flat_map Trace_dirs done)
           [example_root; AppendName example_root (W "Dir")].
Proof.
  assert (onlySpecList example_only_txt <> []) as Honly by discriminate.
  assert (excludeSpecList example_only_txt = []) as Hexclude by reflexivity.
  split; [exact Honly|]. split; [exact Hexclude|].
  destruct (proj2 (include_patterns_apply_to_files_only ends_with
                     example_only_txt false) Honly Hexclude)
    as (_ & _ & _ & _ & Hwhole).
  exact (Hwhole eq_refl example_tree example_root (mkWalkState false false ∅)
           eq_refl).
Defined.
